(** * melonJS 15.1.5 : physics world tick and pointer-event dispatch

    A shallow embedding of [physics/world.js] (class [World]) and of the
    dispatch and registration half of [input/pointerevent.js].

    Conventions
    - a JS number is a rational [Q]; [===] on numbers is [Qeq_bool], and
      results on numbers are stated up to [==].  The constructor arguments,
      which may be [Infinity], use [ExtNum].
    - a JS object is a reference: bodies and renderables live in a store
      indexed by identifiers, so that mutation through one reference is seen
      through every other one.
    - a JS [Set] is its specification-level entry list (insertion ordered,
      deleted entries leave an empty slot), which is what [forEach] walks.
    - collaborators whose code is not part of these files (QuadTree, Body,
      Detector, Container, Bounds, the device and the game) are the
      methods of a class, over which every statement is generic; every
      call the world or the dispatcher makes is recorded in a trace. *)

From Stdlib Require Import QArith.
From stdpp Require Import gmap strings list fin_maps.

Open Scope Q_scope.
Open Scope nat_scope.

(* ===================================================================== *)
(** ** The ECMAScript [Set] *)
(* ===================================================================== *)

Module JSSet.

(** [[SetData]]: entries in insertion order; [None] is an emptied slot. *)
Definition t (A : Type) := list (option A).

Section Ops.
Context {A : Type} `{EqDecision A}.

Definition empty : t A := [].

(** the live elements, in iteration order *)
Definition elements (s : t A) : list A := omap id s.

Definition has (x : A) (s : t A) : bool := bool_decide (Some x ∈ s).

(** [Set.prototype.add]: append unless already present *)
Definition add (x : A) (s : t A) : t A :=
  if has x s then s else s ++ [Some x].

(** [Set.prototype.delete]: the entry is replaced by an empty slot *)
Definition delete (x : A) (s : t A) : t A :=
  fmap (M:=list) (λ e, if decide (e = Some x) then None else e) s.

(** [Set.prototype.clear]: every entry is replaced by an empty slot *)
Definition clear (s : t A) : t A := fmap (M:=list) (λ _, None) s.

(** [Set.prototype.forEach]: the entry list and its length are read
    again after every call of the callback, so entries appended by the
    callback are visited and entries it deleted are not.  [get] reads
    the set out of the program state [S]; [fuel] bounds the number of
    slots visited (the callback may append for ever). *)
Fixpoint forEach {S : Type} (fuel : nat) (get : S → t A)
    (callback : A → S → S) (index : nat) (st : S) : option S :=
  match get st !! index with
  | None => Some st
  | Some e =>
      match fuel with
      | O => None
      | Datatypes.S fuel' =>
          match e with
          | None => forEach fuel' get callback (Datatypes.S index) st
          | Some x => forEach fuel' get callback (Datatypes.S index) (callback x st)
          end
      end
  end.
End Ops.

End JSSet.

(* ===================================================================== *)
(** ** [physics/world.js] *)
(* ===================================================================== *)

Module World.

(** *** Data *)

Record Vector2d := mkVec { x : Q; y : Q }.

(** the numbers the constructor can be handed: [width] and [height]
    default to [Infinity] *)
Inductive ExtNum := Finite (q : Q) | Infinity | NegInfinity | NotANumber.

(** [Number.isFinite] *)
Definition isFinite (n : ExtNum) : bool :=
  match n with Finite _ => true | _ => false end.

Definition BodyId := nat.
Definition EntityId := nat.

(** the fields of a [Body] that [World] reads or writes, and its velocity *)
Record Body := mkBody {
  isStatic : bool;
  ignoreGravity : bool;
  gravityScale : Q;
  mass : Q;
  force : Vector2d;
  vel : Vector2d;
  ancestor : EntityId
}.

(** the fields of a body's owner that [World.update] reads or writes, and
    its position *)
Record Renderable := mkRenderable {
  updateWhenPaused : bool;
  inViewport : bool;
  alwaysUpdate : bool;
  isDirty : bool;
  pos : Vector2d
}.

(** the types owned by collaborators *)
Class Types := {
  QuadTree : Type;    (* physics/quadtree.js *)
  Bounds : Type;      (* physics/bounds.js *)
  Container : Type    (* the inherited state of renderable/container.js *)
}.

Section Model.
Context {T : Types}.

(** Everything code that is handed a body or a renderable can reach:
    the object store and the world's own fields.  The quadtree is kept
    apart: it is reached through [world.broadphase] only. *)
Record Scene := mkScene {
  body_of : BodyId → Body;
  entity_of : EntityId → Renderable;
  container : Container;
  name : string;
  anchorPoint : Vector2d;
  fps : Q;
  gravity : Vector2d;
  preRender : bool;
  bodies : JSSet.t BodyId
}.

Record World := mkWorld {
  scene : Scene;
  broadphase : QuadTree
}.

(** what [collision.js] exports for the quadtree *)
Record Collision := mkCollision { maxChildren : ExtNum; maxDepth : ExtNum }.

(** the methods of the collaborators *)
Class Collaborators := {
  Container_new : ExtNum → ExtNum → ExtNum → ExtNum → bool → option Container;
  Container_getBounds : Container → Bounds;
  Container_reset : Scene → Scene;
  Container_update : Q → Scene → bool * Scene;
  QuadTree_new : Bounds → ExtNum → ExtNum → option QuadTree;
  QuadTree_clear : option Bounds → QuadTree → QuadTree;
  QuadTree_insertContainer : Scene → QuadTree → QuadTree;
  Body_update : BodyId → Q → Scene → bool * Scene;
  Detector_collisions : EntityId → QuadTree → Scene → Scene
}.

(** *** Field updates *)

Definition upd {A} (f : nat → A) (k : nat) (v : A) : nat → A :=
  λ i, if decide (i = k) then v else f i.

Definition Body_set_force (f : Vector2d) (b : Body) : Body :=
  {| isStatic := isStatic b; ignoreGravity := ignoreGravity b;
     gravityScale := gravityScale b; mass := mass b; force := f;
     vel := vel b; ancestor := ancestor b |}.

Definition Body_set_vel (v : Vector2d) (b : Body) : Body :=
  {| isStatic := isStatic b; ignoreGravity := ignoreGravity b;
     gravityScale := gravityScale b; mass := mass b; force := force b;
     vel := v; ancestor := ancestor b |}.

Definition Renderable_set_isDirty (d : bool) (r : Renderable) : Renderable :=
  {| updateWhenPaused := updateWhenPaused r; inViewport := inViewport r;
     alwaysUpdate := alwaysUpdate r; isDirty := d; pos := pos r |}.

Definition Renderable_set_pos (p : Vector2d) (r : Renderable) : Renderable :=
  {| updateWhenPaused := updateWhenPaused r; inViewport := inViewport r;
     alwaysUpdate := alwaysUpdate r; isDirty := isDirty r; pos := p |}.

Definition set_body_of (m : BodyId → Body) (sc : Scene) : Scene :=
  {| body_of := m; entity_of := entity_of sc; container := container sc;
     name := name sc; anchorPoint := anchorPoint sc; fps := fps sc;
     gravity := gravity sc; preRender := preRender sc; bodies := bodies sc |}.

Definition set_entity_of (m : EntityId → Renderable) (sc : Scene) : Scene :=
  {| body_of := body_of sc; entity_of := m; container := container sc;
     name := name sc; anchorPoint := anchorPoint sc; fps := fps sc;
     gravity := gravity sc; preRender := preRender sc; bodies := bodies sc |}.

Definition set_anchorPoint (p : Vector2d) (sc : Scene) : Scene :=
  {| body_of := body_of sc; entity_of := entity_of sc; container := container sc;
     name := name sc; anchorPoint := p; fps := fps sc;
     gravity := gravity sc; preRender := preRender sc; bodies := bodies sc |}.

Definition set_bodies (s : JSSet.t BodyId) (sc : Scene) : Scene :=
  {| body_of := body_of sc; entity_of := entity_of sc; container := container sc;
     name := name sc; anchorPoint := anchorPoint sc; fps := fps sc;
     gravity := gravity sc; preRender := preRender sc; bodies := s |}.

Definition set_scene (sc : Scene) (w : World) : World :=
  {| scene := sc; broadphase := broadphase w |}.

Definition set_broadphase (q : QuadTree) (w : World) : World :=
  {| scene := scene w; broadphase := q |}.

(** [body.force.set(fx, fy)] and the two [body.force.* += ...] *)
Definition force_set (b : BodyId) (f : Vector2d) (sc : Scene) : Scene :=
  set_body_of (upd (body_of sc) b (Body_set_force f (body_of sc b))) sc.

(** [ancestor.isDirty = true] *)
Definition mark_dirty (a : EntityId) (sc : Scene) : Scene :=
  set_entity_of (upd (entity_of sc) a (Renderable_set_isDirty true (entity_of sc a))) sc.

(** *** The trace of calls made by the world *)

Inductive Event :=
| EvQuadTreeClear           (* this.broadphase.clear(...) *)
| EvInsertContainer         (* this.broadphase.insertContainer(this) *)
| EvApplyGravity (b : BodyId)
| EvBodyUpdate (b : BodyId) (dt : Q)
| EvMarkDirty (a : EntityId)
| EvCollisions (a : EntityId)
| EvForceReset (b : BodyId)
| EvContainerUpdate (dt : Q)   (* super.update(dt) *)
| EvAnchorReset
| EvContainerReset             (* super.reset() *)
| EvBodiesClear.

Context {C : Collaborators}.

(** *** constructor *)

Definition default (d : ExtNum) (arg : option ExtNum) : ExtNum :=
  match arg with Some v => v | None => d end.

(** [constructor(x = 0, y = 0, width = Infinity, height = Infinity)];
    an omitted argument is [None].  A collaborator's constructor that
    throws makes the whole construction throw ([None]); the constructor
    has no check of its own.  [Detector] keeps no state of its own in
    this model and the two event subscriptions are the functions
    [reset] and [onLevelLoaded] below. *)
Definition World_new (store_b : BodyId → Body) (store_e : EntityId → Renderable)
    (col : Collision) (ax ay awidth aheight : option ExtNum) : option World :=
  let x := default (Finite 0) ax in
  let y := default (Finite 0) ay in
  let width := default Infinity awidth in
  let height := default Infinity aheight in
  match Container_new x y width height true with
  | None => None
  | Some c =>
      let sc := {| body_of := store_b; entity_of := store_e; container := c;
                   name := "rootContainer"; anchorPoint := mkVec 0 0; fps := 60;
                   gravity := mkVec 0 (98 # 100); preRender := false;
                   bodies := JSSet.empty |} in
      match QuadTree_new (Container_getBounds c) (maxChildren col) (maxDepth col) with
      | None => None
      | Some q => Some {| scene := sc; broadphase := q |}
      end
  end.

(** the [LEVEL_LOADED] handler *)
Definition onLevelLoaded (w : World) : World :=
  set_broadphase
    (QuadTree_clear (Some (Container_getBounds (container (scene w)))) (broadphase w)) w.

Definition Run : Type := World * list Event.

Definition emit (e : Event) (r : Run) : Run := (r.1, r.2 ++ [e]).

(** *** [reset] *)
Definition reset_run (r : Run) : Run :=
  (* this.broadphase.clear() *)
  let r := emit EvQuadTreeClear (set_broadphase (QuadTree_clear None (broadphase r.1)) r.1, r.2) in
  (* this.anchorPoint.set(0, 0) *)
  let r := emit EvAnchorReset (set_scene (set_anchorPoint (mkVec 0 0) (scene r.1)) r.1, r.2) in
  (* super.reset() *)
  let r := emit EvContainerReset (set_scene (Container_reset (scene r.1)) r.1, r.2) in
  (* this.bodies.clear() *)
  emit EvBodiesClear (set_scene (set_bodies (JSSet.clear (bodies (scene r.1))) (scene r.1)) r.1, r.2).

Definition reset (w : World) : World := (reset_run (w, [])).1.

(** *** [addBody], [removeBody] *)
Definition addBody (b : BodyId) (w : World) : World :=
  set_scene (set_bodies (JSSet.add b (bodies (scene w))) (scene w)) w.

Definition removeBody (b : BodyId) (w : World) : World :=
  set_scene (set_bodies (JSSet.delete b (bodies (scene w))) (scene w)) w.

(** *** [bodyApplyGravity] *)
Definition bodyApplyGravity (b : BodyId) (sc : Scene) : Scene :=
  let body := body_of sc b in
  if negb (ignoreGravity body) && negb (Qeq_bool (gravityScale body) 0) then
    let g := gravity sc in
    let fx := (x (force body) + (mass body * x g) * gravityScale body)%Q in
    let fy := (y (force body) + (mass body * y g) * gravityScale body)%Q in
    force_set b (mkVec fx fy) sc
  else sc.

(** *** [update] *)

(** the callback handed to [this.bodies.forEach] *)
Definition update_body (isPaused : bool) (dt : Q) (b : BodyId) (r : Run) : Run :=
  let body := body_of (scene r.1) b in
  if negb (isStatic body) then
    let a := ancestor body in
    let anc := entity_of (scene r.1) a in
    if negb (isPaused && negb (updateWhenPaused anc))
       && (inViewport anc || alwaysUpdate anc) then
      (* this.bodyApplyGravity(body) *)
      let r := emit (EvApplyGravity b) (set_scene (bodyApplyGravity b (scene r.1)) r.1, r.2) in
      (* if (body.update(dt) === true) ancestor.isDirty = true *)
      let res := Body_update b dt (scene r.1) in
      let r := emit (EvBodyUpdate b dt) (set_scene res.2 r.1, r.2) in
      let r := if res.1 then emit (EvMarkDirty a) (set_scene (mark_dirty a (scene r.1)) r.1, r.2)
               else r in
      (* this.detector.collisions(ancestor) *)
      let r := emit (EvCollisions a)
                 (set_scene (Detector_collisions a (broadphase r.1) (scene r.1)) r.1, r.2) in
      (* body.force.set(0, 0) *)
      emit (EvForceReset b) (set_scene (force_set b (mkVec 0 0) (scene r.1)) r.1, r.2)
    else r
  else r.

(** [update(dt)]; [isPaused] is the value of [state.isPaused()] read on
    entry.  The result is the value of [super.update(dt)], the world
    after the tick and the calls made, in order. *)
Definition update (fuel : nat) (isPaused : bool) (dt : Q) (w : World)
    : option (bool * World * list Event) :=
  let r : Run := (w, []) in
  let r := emit EvQuadTreeClear (set_broadphase (QuadTree_clear None (broadphase r.1)) r.1, r.2) in
  let r := emit EvInsertContainer
             (set_broadphase (QuadTree_insertContainer (scene r.1) (broadphase r.1)) r.1, r.2) in
  match JSSet.forEach fuel (λ r : Run, bodies (scene r.1)) (update_body isPaused dt) 0 r with
  | None => None
  | Some r =>
      let res := Container_update dt (scene r.1) in
      let r := emit (EvContainerUpdate dt) (set_scene res.2 r.1, r.2) in
      Some (res.1, r.1, r.2)
  end.

(** *** The tick as the specification words it

    "clear quadtree; bulk-insert the renderable tree; for each
    registered body in the active set: skip if static; skip if
    paused-and-not-exempt or not in viewport and not always-updating;
    else apply gravity, integrate, mark owner dirty on change, run
    Detector.collisions for its owner, zero its force accumulator":
    a single left-to-right pass over the live elements. *)

Definition skipped (isPaused : bool) (anc : Renderable) : bool :=
  (isPaused && negb (updateWhenPaused anc))
  || (negb (inViewport anc) && negb (alwaysUpdate anc)).

Definition spec_body_step (isPaused : bool) (dt : Q) (r : Run) (b : BodyId) : Run :=
  let sc := scene r.1 in
  let a := ancestor (body_of sc b) in
  if isStatic (body_of sc b) then r
  else if skipped isPaused (entity_of sc a) then r
  else
    let sc1 := bodyApplyGravity b sc in
    let res := Body_update b dt sc1 in
    let sc3 := if res.1 then mark_dirty a res.2 else res.2 in
    let sc4 := Detector_collisions a (broadphase r.1) sc3 in
    let sc5 := force_set b (mkVec 0 0) sc4 in
    (set_scene sc5 r.1,
     r.2 ++ [EvApplyGravity b; EvBodyUpdate b dt]
         ++ (if res.1 then [EvMarkDirty a] else [])
         ++ [EvCollisions a; EvForceReset b]).

Definition spec_tick (isPaused : bool) (dt : Q) (w : World) : bool * World * list Event :=
  let q := QuadTree_insertContainer (scene w) (QuadTree_clear None (broadphase w)) in
  let r := fold_left (spec_body_step isPaused dt) (JSSet.elements (bodies (scene w)))
             (set_broadphase q w, [EvQuadTreeClear; EvInsertContainer]) in
  let res := Container_update dt (scene r.1) in
  (res.1, set_scene res.2 r.1, r.2 ++ [EvContainerUpdate dt]).

(** the calls one visited body can give rise to *)
Definition segment (dt : Q) (b : BodyId) (seg : list Event) : Prop :=
  seg = [] ∨
  ∃ a, seg = [EvApplyGravity b; EvBodyUpdate b dt; EvCollisions a; EvForceReset b]
     ∨ seg = [EvApplyGravity b; EvBodyUpdate b dt; EvMarkDirty a; EvCollisions a; EvForceReset b].

(** a collaborator that neither adds nor removes bodies *)
Definition keeps_bodies (f : Scene → Scene) : Prop :=
  ∀ sc, bodies (f sc) = bodies sc.

(** a collaborator that also leaves [isStatic] and [ancestor] of every
    body as they are *)
Definition keeps_kind (f : Scene → Scene) : Prop :=
  ∀ sc b, isStatic (body_of (f sc) b) = isStatic (body_of sc b)
          ∧ ancestor (body_of (f sc) b) = ancestor (body_of sc b).

(** Modelled from the spec: [Body.update(dt)], which is not part of
    these files, "applies accumulated force and mass to update velocity
    and position via simple explicit (semi-implicit Euler)
    integration; returns whether the body's position changed". *)
Definition Body_update_spec (b : BodyId) (dt : Q) (sc : Scene) : bool * Scene :=
  let body := body_of sc b in
  let vx := (x (vel body) + (x (force body) / mass body) * dt)%Q in
  let vy := (y (vel body) + (y (force body) / mass body) * dt)%Q in
  let a := ancestor body in
  let p := pos (entity_of sc a) in
  let sc1 := set_body_of (upd (body_of sc) b (Body_set_vel (mkVec vx vy) body)) sc in
  let p' := mkVec (x p + vx * dt)%Q (y p + vy * dt)%Q in
  let sc2 := set_entity_of (upd (entity_of sc1) a (Renderable_set_pos p' (entity_of sc1 a))) sc1 in
  (negb (Qeq_bool (vx * dt) 0 && Qeq_bool (vy * dt) 0), sc2).

(** equality of vectors, up to the equality of rationals *)
Definition Vec_eq (u v : Vector2d) : Prop := (x u == x v)%Q ∧ (y u == y v)%Q.

(** applying gravity to [b] leaves its accumulated force as it was *)
Definition gravity_is_noop (b : BodyId) (sc : Scene) : Prop :=
  Vec_eq (force (body_of (bodyApplyGravity b sc) b)) (force (body_of sc b)).

(** no two bodies of the active set share an owner *)
Definition one_body_per_owner (sc : Scene) : Prop :=
  ∀ b1 b2, b1 ∈ JSSet.elements (bodies sc) → b2 ∈ JSSet.elements (bodies sc) →
           ancestor (body_of sc b1) = ancestor (body_of sc b2) → b1 = b2.



(** *** What a caller can do with the value of [world.bodies]

    [bodies] is a plain data property holding the [Set] object itself:
    reading it yields the very object the world iterates, and the
    methods of [Set.prototype] called on that value act on the world's
    set. *)
Inductive SetCall := CallAdd (b : BodyId) | CallDelete (b : BodyId) | CallClear.

Definition via_bodies (c : SetCall) (w : World) : World :=
  let s := bodies (scene w) in
  let s' := match c with
            | CallAdd b => JSSet.add b s
            | CallDelete b => JSSet.delete b s
            | CallClear => JSSet.clear s
            end in
  set_scene (set_bodies s' (scene w)) w.

(** Modelled from the spec: what section 7 calls an invalid
    configuration of the world and of its quadtree, "invalid
    maxChildren/maxDepth, non-finite bounds".  [maxChildren] has to be a
    positive integer, [maxDepth] a non-negative one and the four
    numbers of the bounds finite. *)
Definition is_integer (n : ExtNum) : bool :=
  match n with Finite q => Pos.eqb (Qden (Qred q)) 1 | _ => false end.

Definition positive_num (n : ExtNum) : bool :=
  match n with Finite q => bool_decide (0 < Qnum q)%Z | _ => false end.

Definition negative_num (n : ExtNum) : bool :=
  match n with Finite q => bool_decide (Qnum q < 0)%Z | _ => false end.

Definition valid_configuration (col : Collision) (ax ay awidth aheight : option ExtNum) : bool :=
  is_integer (maxChildren col) && positive_num (maxChildren col)
  && is_integer (maxDepth col) && negb (negative_num (maxDepth col))
  && isFinite (default (Finite 0) ax) && isFinite (default (Finite 0) ay)
  && isFinite (default Infinity awidth) && isFinite (default Infinity aheight).

End Model.

(** *** A concrete set of collaborators, to run the model on *)

Module Sample.

#[export] Instance types : Types :=
  {| QuadTree := list EntityId;
     Bounds := ExtNum * ExtNum * ExtNum * ExtNum;
     Container := ExtNum * ExtNum * ExtNum * ExtNum |}.

(** constructors that accept whatever they are given, a quadtree that
    is a list of entities and a detector that finds no overlap *)
#[export] Instance collaborators : Collaborators :=
  {| Container_new := λ x y w h _, Some (x, y, w, h);
     Container_getBounds := λ c, c;
     Container_reset := λ sc, sc;
     Container_update := λ _ sc, (false, sc);
     QuadTree_new := λ _ _ _, Some [];
     QuadTree_clear := λ _ _, [];
     QuadTree_insertContainer := λ sc q, JSSet.elements (bodies sc) ++ q;
     Body_update := Body_update_spec;
     Detector_collisions := λ _ _ sc, sc |}.

Definition default_collision : Collision :=
  {| maxChildren := Finite 8; maxDepth := Finite 4 |}.

Definition body0 : Body :=
  {| isStatic := false; ignoreGravity := false; gravityScale := 1; mass := 1;
     force := mkVec 0 0; vel := mkVec 0 0; ancestor := 0 |}.

Definition wall : Body :=
  {| isStatic := true; ignoreGravity := false; gravityScale := 1; mass := 1;
     force := mkVec 0 0; vel := mkVec 0 0; ancestor := 1 |}.

Definition floater : Body :=
  {| isStatic := false; ignoreGravity := false; gravityScale := 0; mass := 1;
     force := mkVec 0 0; vel := mkVec 0 0; ancestor := 2 |}.

Definition sprite : Renderable :=
  {| updateWhenPaused := false; inViewport := true; alwaysUpdate := false;
     isDirty := false; pos := mkVec 10 10 |}.

(** body 0 falls, body 1 is a wall, body 2 ignores gravity through its
    scale; every other identifier is a wall as well *)
Definition store_b : BodyId → Body :=
  upd (upd (λ i, {| isStatic := true; ignoreGravity := false; gravityScale := 1;
                    mass := 1; force := mkVec 0 0; vel := mkVec 0 0; ancestor := i |})
           0%nat body0) 2%nat floater.

Definition store_e : EntityId → Renderable := λ _, sprite.

Definition scene0 : Scene :=
  {| body_of := store_b; entity_of := store_e;
     container := (Finite 0, Finite 0, Infinity, Infinity);
     name := "rootContainer"; anchorPoint := mkVec 0 0; fps := 60;
     gravity := mkVec 0 (98 # 100); preRender := false; bodies := JSSet.empty |}.

Definition world0 : World := {| scene := scene0; broadphase := [] |}.

(** a falling body, a wall and a body of gravity scale 0 *)
Definition three_bodies : World := addBody 2 (addBody 1 (addBody 0 world0)).

(** two walls *)
Definition two_walls : World := addBody 3 (addBody 1 world0).

(** the same world without gravity *)
Definition scene_no_gravity : Scene :=
  {| body_of := store_b; entity_of := store_e;
     container := (Finite 0, Finite 0, Infinity, Infinity);
     name := "rootContainer"; anchorPoint := mkVec 0 0; fps := 60;
     gravity := mkVec 0 0; preRender := false; bodies := JSSet.empty |}.

End Sample.
End World.

(* ===================================================================== *)
(** ** [input/pointerevent.js] : registration and dispatch *)
(* ===================================================================== *)

Module PointerEvent.

Definition RegionId := nat.
Definition Callback := nat.

(** *** internal constants *)

Definition WHEEL : list string := ["wheel"].
Definition POINTER_MOVE : list string := ["pointermove"; "mousemove"; "touchmove"].
Definition POINTER_DOWN : list string := ["pointerdown"; "mousedown"; "touchstart"].
Definition POINTER_UP : list string := ["pointerup"; "mouseup"; "touchend"].
Definition POINTER_CANCEL : list string := ["pointercancel"; "mousecancel"; "touchcancel"].
Definition POINTER_ENTER : list string := ["pointerenter"; "mouseenter"; "touchenter"].
Definition POINTER_OVER : list string := ["pointerover"; "mouseover"; "touchover"].
Definition POINTER_LEAVE : list string := ["pointerleave"; "mouseleave"; "touchleave"].

(** [a[i]] of an array of strings, used as a property name *)
Definition item (a : list string) (i : nat) : string := default "undefined" (a !! i).

Definition pointerEventList : list string :=
  [item WHEEL 0; item POINTER_MOVE 0; item POINTER_DOWN 0; item POINTER_UP 0;
   item POINTER_CANCEL 0; item POINTER_ENTER 0; item POINTER_OVER 0; item POINTER_LEAVE 0].

Definition mouseEventList : list string :=
  [item WHEEL 0; item POINTER_MOVE 1; item POINTER_DOWN 1; item POINTER_UP 1;
   item POINTER_CANCEL 1; item POINTER_ENTER 1; item POINTER_OVER 1; item POINTER_LEAVE 1].

Definition touchEventList : list string :=
  [item POINTER_MOVE 2; item POINTER_DOWN 2; item POINTER_UP 2;
   item POINTER_CANCEL 2; item POINTER_ENTER 2; item POINTER_OVER 2; item POINTER_LEAVE 2].

Definition pointerEventMap : list (string * list string) :=
  [("wheel", WHEEL); ("pointermove", POINTER_MOVE); ("pointerdown", POINTER_DOWN);
   ("pointerup", POINTER_UP); ("pointercancel", POINTER_CANCEL);
   ("pointerenter", POINTER_ENTER); ("pointerover", POINTER_OVER);
   ("pointerleave", POINTER_LEAVE)].

(** [pointerEventMap[eventType]]; the empty list stands for [undefined],
    which is only met for a type that has been refused before *)
Definition pointerEventMap_get (eventType : string) : list string :=
  default [] (snd <$> List.find (λ kv, String.eqb (fst kv) eventType) pointerEventMap).

(** *** Data *)

Record Rect := mkRect { rect_x : Q; rect_y : Q; rect_width : Q; rect_height : Q }.

(** the fields of a [Pointer] that the dispatcher reads or writes;
    [timeStamp] is [pointer.event.timeStamp] *)
Record Pointer := mkPointer {
  type : option string;
  isNormalized : bool;
  timeStamp : option Q;
  pointerId : nat;
  gameScreenX : Q; gameScreenY : Q;
  gameWorldX : Q; gameWorldY : Q;
  width : Q; height : Q;
  gameX : Q; gameY : Q;
  gameLocalX : Q; gameLocalY : Q
}.

(** what [eventHandlers] maps a region to; [None] is [null] *)
Record Handlers := mkHandlers {
  region : RegionId;
  callbacks : gmap string (list Callback);
  handlers_pointerId : option nat
}.

Record State := mkState {
  eventHandlers : gmap RegionId Handlers;
  lastTimeStamp : Q;
  activeEventList : list string;
  pointerInitialized : bool;
  T_POINTERS : list Pointer;
  currentPointer : option Rect
}.

(** what the module takes from the device, the game and its callers *)
Class Env := {
  device_pointerEvent : bool;
  device_touch : bool;
  maxTouchPoints : nat;
  (* remove(array, element) of utils/array.js *)
  array_remove : list Callback → Callback → list Callback;
  (* candidate.isKinematic === true *)
  isKinematic : RegionId → bool;
  (* region.isFloating === true *)
  isFloating : RegionId → bool;
  (* x and y of region.ancestor.getBounds(), when region.ancestor is defined *)
  ancestor_bounds : RegionId → option (Q * Q);
  (* region.getBounds().contains(x, y) *)
  bounds_contains : RegionId → Q → Q → bool;
  (* game.viewport *)
  viewport : RegionId;
  (* game.world._sortReverseZ *)
  sortReverseZ : RegionId → RegionId → Q;
  (* game.world.broadphase.retrieve(rect, comparator) *)
  retrieve : Rect → (RegionId → RegionId → Q) → list RegionId;
  (* callback(pointer) === false; callbacks do not register or release
     handlers while an event is dispatched *)
  returns_false : Callback → Pointer → bool
}.

(** the calls made by the dispatcher *)
Inductive Event :=
| EvPointerMove (p : Pointer)                  (* emit(POINTERMOVE, pointer) *)
| EvCallback (candidate : RegionId) (type : string) (cb : Callback) (p : Pointer).

Definition candidate_of (e : Event) : option RegionId :=
  match e with EvCallback c _ _ _ => Some c | EvPointerMove _ => None end.

Inductive Outcome :=
| Ok (s : State)
| Throw (message : string) (s : State).

Section Model.
Context {E : Env}.

(** *** Field updates *)

Definition set_eventHandlers (m : gmap RegionId Handlers) (s : State) : State :=
  {| eventHandlers := m; lastTimeStamp := lastTimeStamp s;
     activeEventList := activeEventList s; pointerInitialized := pointerInitialized s;
     T_POINTERS := T_POINTERS s; currentPointer := currentPointer s |}.

Definition set_lastTimeStamp (t : Q) (s : State) : State :=
  {| eventHandlers := eventHandlers s; lastTimeStamp := t;
     activeEventList := activeEventList s; pointerInitialized := pointerInitialized s;
     T_POINTERS := T_POINTERS s; currentPointer := currentPointer s |}.

Definition push_T_POINTERS (p : Pointer) (s : State) : State :=
  {| eventHandlers := eventHandlers s; lastTimeStamp := lastTimeStamp s;
     activeEventList := activeEventList s; pointerInitialized := pointerInitialized s;
     T_POINTERS := T_POINTERS s ++ [p]; currentPointer := currentPointer s |}.

Definition set_currentPointer (r : Rect) (s : State) : State :=
  {| eventHandlers := eventHandlers s; lastTimeStamp := lastTimeStamp s;
     activeEventList := activeEventList s; pointerInitialized := pointerInitialized s;
     T_POINTERS := T_POINTERS s; currentPointer := Some r |}.

Definition set_callbacks (c : gmap string (list Callback)) (h : Handlers) : Handlers :=
  {| region := region h; callbacks := c; handlers_pointerId := handlers_pointerId h |}.

Definition set_handlers_pointerId (i : option nat) (h : Handlers) : Handlers :=
  {| region := region h; callbacks := callbacks h; handlers_pointerId := i |}.

(** [pointer.gameX = pointer.gameLocalX = gx; pointer.gameY = pointer.gameLocalY = gy] *)
Definition set_game (gx gy : Q) (p : Pointer) : Pointer :=
  {| type := type p; isNormalized := isNormalized p; timeStamp := timeStamp p;
     pointerId := pointerId p;
     gameScreenX := gameScreenX p; gameScreenY := gameScreenY p;
     gameWorldX := gameWorldX p; gameWorldY := gameWorldY p;
     width := width p; height := height p;
     gameX := gx; gameY := gy; gameLocalX := gx; gameLocalY := gy |}.

Definition set_gameLocal (lx ly : Q) (p : Pointer) : Pointer :=
  {| type := type p; isNormalized := isNormalized p; timeStamp := timeStamp p;
     pointerId := pointerId p;
     gameScreenX := gameScreenX p; gameScreenY := gameScreenY p;
     gameWorldX := gameWorldX p; gameWorldY := gameWorldY p;
     width := width p; height := height p;
     gameX := gameX p; gameY := gameY p; gameLocalX := lx; gameLocalY := ly |}.

(** [new Pointer()] *)
Definition Pointer_new : Pointer :=
  {| type := None; isNormalized := false; timeStamp := None; pointerId := 0;
     gameScreenX := 0; gameScreenY := 0; gameWorldX := 0; gameWorldY := 0;
     width := 1; height := 1; gameX := 0; gameY := 0; gameLocalX := 0; gameLocalY := 0 |}.

(** the state of the module when it is loaded *)
Definition initial : State :=
  {| eventHandlers := ∅; lastTimeStamp := 0; activeEventList := [];
     pointerInitialized := false; T_POINTERS := []; currentPointer := None |}.

(** *** [enablePointerEvent]; the listeners it installs on the DOM call
    [dispatchEvent] and are not part of the state *)
Definition enablePointerEvent (s : State) : State :=
  if pointerInitialized s then s
  else
    let active := if device_pointerEvent then pointerEventList else mouseEventList in
    let active := if device_touch && negb device_pointerEvent
                  then active ++ touchEventList else active in
    {| eventHandlers := eventHandlers s; lastTimeStamp := lastTimeStamp s;
       activeEventList := active; pointerInitialized := true;
       T_POINTERS := T_POINTERS s ++ replicate maxTouchPoints Pointer_new;
       currentPointer := Some (mkRect 0 0 1 1) |}.

Definition findActiveEvent (active eventTypes : list string) : option string :=
  List.find (λ t, bool_decide (t ∈ active)) eventTypes.

Definition findAllActiveEvents (active eventTypes : list string) : list string :=
  List.filter (λ t, bool_decide (t ∈ active)) eventTypes.

(** *** [triggerEvent] *)

(** the loop over [handlers.callbacks[type]], from the last callback
    registered to the first; [cbs] is the array reversed *)
Fixpoint call_each (c : RegionId) (t : string) (p : Pointer) (cbs : list Callback)
    (tr : list Event) : bool * list Event :=
  match cbs with
  | [] => (false, tr)
  | cb :: rest =>
      let tr := tr ++ [EvCallback c t cb p] in
      if returns_false cb p then (true, tr) else call_each c t p rest tr
  end.

(** the name of the property [handlers.callbacks[type]] reads *)
Definition key (t : option string) : string := default "undefined" t.

(** [handlers] is the object that [eventHandlers] holds for the
    candidate [c] *)
Definition triggerEvent (c : RegionId) (t : option string) (p : Pointer)
    (pointerId : option nat) (st : State * list Event) : bool * (State * list Event) :=
  match eventHandlers st.1 !! c with
  | Some handlers =>
      match callbacks handlers !! key t with
      | Some cbs =>
          let s := set_eventHandlers
                     (<[c := set_handlers_pointerId pointerId handlers]> (eventHandlers st.1))
                     st.1 in
          let res := call_each c (key t) p (rev cbs) st.2 in
          (res.1, (s, res.2))
      | None => (false, st)
      end
  | None => (false, st)
  end.

(** *** [dispatchEvent] *)

Inductive Case := MoveCase | UpCase | CancelCase | DefaultCase.

Definition is_in (l : list string) (t : option string) : bool :=
  match t with Some t => bool_decide (t ∈ l) | None => false end.

(** [switch (pointer.type)]: each group of cases ends with the fourth
    entry of an array of three, which is [undefined] *)
Definition switch (t : option string) : Case :=
  match t with
  | None => MoveCase
  | Some _ =>
      if is_in POINTER_MOVE t then MoveCase
      else if is_in POINTER_UP t then UpCase
      else if is_in POINTER_CANCEL t then CancelCase
      else DefaultCase
  end.

(** the pointer, the state, the calls made and [handled] *)
Definition Visit : Type := Pointer * State * list Event * bool.

Definition visit_handled (v : Visit) : bool := v.2.
Definition visit_trace (v : Visit) : list Event := v.1.2.
Definition visit_state (v : Visit) : State := v.1.1.2.

Definition same_id (h : option nat) (i : nat) : bool := bool_decide (h = Some i).

(** the body of the loop over the candidates, up to the test of
    [handled] *)
Definition visit_candidate (c : RegionId) (v : Visit) : Visit :=
  let '(p, s, tr, handled) := v in
  match eventHandlers s !! c with
  | Some handlers =>
      if negb (isKinematic c) then
        let region := region handlers in
        let p := if isFloating region
                 then set_game (gameScreenX p) (gameScreenY p) p
                 else set_game (gameWorldX p) (gameWorldY p) p in
        let p := match ancestor_bounds region with
                 | Some (bx, by_) => set_gameLocal (gameX p - bx) (gameY p - by_) p
                 | None => p
                 end in
        let eventInBounds := bounds_contains region (gameX p) (gameY p) in
        match switch (type p) with
        | MoveCase =>
            let first :=
              if same_id (handlers_pointerId handlers) (pointerId p) && negb eventInBounds
              then triggerEvent c (findActiveEvent (activeEventList s) POINTER_LEAVE)
                     p None (s, tr)
              else if bool_decide (handlers_pointerId handlers = None) && eventInBounds
              then triggerEvent c (findActiveEvent (activeEventList s) POINTER_ENTER)
                     p (Some (pointerId p)) (s, tr)
              else (false, (s, tr)) in
            if first.1 then (p, first.2.1, first.2.2, true)
            else if eventInBounds then
              let res := triggerEvent c (type p) p (Some (pointerId p)) first.2 in
              (p, res.2.1, res.2.2, handled || res.1)
            else (p, first.2.1, first.2.2, handled)
        | UpCase =>
            if same_id (handlers_pointerId handlers) (pointerId p) && eventInBounds then
              let res := triggerEvent c (type p) p None (s, tr) in
              (p, res.2.1, res.2.2, handled || res.1)
            else (p, s, tr, handled)
        | CancelCase =>
            if same_id (handlers_pointerId handlers) (pointerId p) then
              let res := triggerEvent c (type p) p None (s, tr) in
              (p, res.2.1, res.2.2, handled || res.1)
            else (p, s, tr, handled)
        | DefaultCase =>
            if eventInBounds then
              let res := triggerEvent c (type p) p (Some (pointerId p)) (s, tr) in
              (p, res.2.1, res.2.2, handled || res.1)
            else (p, s, tr, handled)
        end
      else v
  | None => v
  end.

(** the loop over the candidates, in the order in which they are
    visited; it ends after the first candidate when [handled] is set *)
Fixpoint visit (candidates : list RegionId) (v : Visit) : Visit :=
  match candidates with
  | [] => v
  | c :: rest =>
      let v := visit_candidate c v in
      if visit_handled v then v else visit rest v
  end.

(** [timeStamp < lastTimeStamp] *)
Definition older (t last : Q) : bool := negb (Qle_bool last t).

Definition stale (p : Pointer) (s : State) : bool :=
  isNormalized p &&
  match timeStamp p with Some t => older t (lastTimeStamp s) | None => false end.

Definition pointer_rect (p : Pointer) : Rect :=
  mkRect (gameWorldX p) (gameWorldY p) (width p) (height p).

(** the candidates of a pointer, in the order of the array *)
Definition candidates_of (p : Pointer) : list RegionId :=
  retrieve (pointer_rect p) sortReverseZ ++ [viewport].

(** the state, the calls made and [handled] *)
Definition Dispatch : Type := State * list Event * bool.

(** one turn of the [while] loop, for the pointer popped *)
Definition dispatch_pointer (p : Pointer) (d : Dispatch) : Dispatch :=
  let '(s, tr, handled) := d in
  let s := push_T_POINTERS p s in
  if stale p s then (s, tr, handled)
  else
    let s := match isNormalized p, timeStamp p with
             | true, Some t => set_lastTimeStamp t s
             | _, _ => s
             end in
    let s := set_currentPointer (pointer_rect p) s in
    let '(p, tr) :=
      if is_in POINTER_MOVE (type p)
      then let p := set_game (gameScreenX p) (gameScreenY p) p in (p, tr ++ [EvPointerMove p])
      else (p, tr) in
    (* candidates are walked from the last to the first *)
    let v := visit (rev (candidates_of p)) (p, s, tr, handled) in
    (visit_state v, visit_trace v, visit_handled v).

(** [dispatchEvent(normalizedEvents)]: the events are popped, the last
    one first *)
Definition dispatchEvent (normalizedEvents : list Pointer) (s : State)
    : bool * State * list Event :=
  let d := fold_left (λ d p, dispatch_pointer p d) (rev normalizedEvents) (s, [], false) in
  (d.2, d.1.1, d.1.2).

(** *** [registerPointerEvent], [releasePointerEvent] *)

Definition register_type (callback : Callback)
    (cbs : gmap string (list Callback)) (eventType : string) : gmap string (list Callback) :=
  match cbs !! eventType with
  | Some l => <[eventType := l ++ [callback]]> cbs
  | None => <[eventType := [callback]]> cbs
  end.

Definition registerPointerEvent (eventType : string) (region : option RegionId)
    (callback : Callback) (s : State) : Outcome :=
  let s := enablePointerEvent s in
  if negb (bool_decide (eventType ∈ pointerEventList)) then
    Throw ("invalid event type : " +:+ eventType) s
  else
    match region with
    | None =>
        Throw "registerPointerEvent: region for [object Undefined] event is undefined " s
    | Some region =>
        let eventTypes := findAllActiveEvents (activeEventList s) (pointerEventMap_get eventType) in
        let m := match eventHandlers s !! region with
                 | Some _ => eventHandlers s
                 | None => <[region := {| region := region; callbacks := ∅;
                                          handlers_pointerId := None |}]> (eventHandlers s)
                 end in
        match m !! region with
        | Some handlers =>
            let cbs := fold_left (register_type callback) eventTypes (callbacks handlers) in
            Ok (set_eventHandlers (<[region := set_callbacks cbs handlers]> m) s)
        | None => Ok (set_eventHandlers m s)
        end
    end.

Definition release_type (callback : option Callback)
    (cbs : gmap string (list Callback)) (eventType : string) : gmap string (list Callback) :=
  match cbs !! eventType with
  | Some l =>
      let l := match callback with
               | Some cb => array_remove l cb
               | None => []
               end in
      if bool_decide (length l = 0) then delete eventType cbs else <[eventType := l]> cbs
  | None => cbs
  end.

Definition releasePointerEvent (eventType : string) (region : RegionId)
    (callback : option Callback) (s : State) : Outcome :=
  if negb (bool_decide (eventType ∈ pointerEventList)) then
    Throw ("invalid event type : " +:+ eventType) s
  else
    let eventTypes := findAllActiveEvents (activeEventList s) (pointerEventMap_get eventType) in
    match eventHandlers s !! region with
    | Some handlers =>
        let cbs := fold_left (release_type callback) eventTypes (callbacks handlers) in
        if bool_decide (size cbs = 0)
        then Ok (set_eventHandlers (delete region (eventHandlers s)) s)
        else Ok (set_eventHandlers (<[region := set_callbacks cbs handlers]> (eventHandlers s)) s)
    | None => Ok s
    end.

(** [registerPointerEvent(...)] followed by [releasePointerEvent(...)] *)
Definition register_then_release (eventType : string) (region : RegionId)
    (callback : Callback) (s : State) : Outcome :=
  match registerPointerEvent eventType (Some region) callback s with
  | Ok s1 => releasePointerEvent eventType region None s1
  | Throw m s1 => Throw m s1
  end.

(** *** Vocabulary for the statements *)

(** what dispatch never changes in an entry of [eventHandlers] *)
Definition core (h : Handlers) : RegionId * gmap string (list Callback) :=
  (region h, callbacks h).

Definition same_handlers (m m' : gmap RegionId Handlers) : Prop :=
  ∀ c, core <$> m !! c = core <$> m' !! c.

(** a callback that returned [false] *)
Definition loud (e : Event) : bool :=
  match e with EvCallback _ _ cb p => returns_false cb p | EvPointerMove _ => false end.

(** no callback of [evs] returned [false] *)
Definition quiet (evs : list Event) : Prop := Forall (λ e, loud e = false) evs.

(** nothing is called once a callback has returned [false] *)
Definition stops_at_false (evs : list Event) : Prop :=
  ∀ pre e post, evs = pre ++ e :: post → loud e = true → post = [].

(** [evs] are calls on candidates of [visited], in that order *)
Definition in_order (visited : list RegionId) (evs : list Event) : Prop :=
  ∃ segs, evs = concat segs
          ∧ Forall2 (λ c seg, Forall (λ e, candidate_of e = Some c) seg) visited segs.

(** the call [e] is one of a callback registered for [t] on a
    candidate of [p] that is not kinematic, with a pointer whose game
    coordinates are those of [p] in the space of the region and lie
    within the bounds of the region *)
Definition in_bounds_call (m : gmap RegionId Handlers) (candidates : list RegionId)
    (p : Pointer) (t : string) (e : Event) : Prop :=
  ∃ c cb p' h cbs,
    e = EvCallback c t cb p'
    ∧ c ∈ candidates
    ∧ m !! c = Some h
    ∧ isKinematic c = false
    ∧ callbacks h !! t = Some cbs ∧ cb ∈ cbs
    ∧ gameX p' = (if isFloating (region h) then gameScreenX p else gameWorldX p)
    ∧ gameY p' = (if isFloating (region h) then gameScreenY p else gameWorldY p)
    ∧ bounds_contains (region h) (gameX p') (gameY p') = true.


(** a run of quiet calls, or one closed by the call that returned
    [false] *)
Definition closed_by_false (evs : list Event) : Prop :=
  quiet evs ∨ ∃ pre e, evs = pre ++ [e] ∧ quiet pre ∧ loud e = true.

(** [st'] comes after [st]: calls were made on candidates that have
    handlers, and nothing but [handlers.pointerId] was written *)
Definition extends (st st' : State * list Event) : Prop :=
  ∃ new,
    st'.2 = st.2 ++ new
    ∧ Forall (λ e, ∀ c, candidate_of e = Some c → is_Some (eventHandlers st.1 !! c)) new
    ∧ same_handlers (eventHandlers st.1) (eventHandlers st'.1)
    ∧ lastTimeStamp st'.1 = lastTimeStamp st.1
    ∧ activeEventList st'.1 = activeEventList st.1.

(** [p] is the pointer [p0] but for the coordinates that the loop over
    the candidates writes *)
Definition same_event (p p0 : Pointer) : Prop :=
  type p = type p0
  ∧ gameScreenX p = gameScreenX p0 ∧ gameScreenY p = gameScreenY p0
  ∧ gameWorldX p = gameWorldX p0 ∧ gameWorldY p = gameWorldY p0.

End Model.

(** *** A concrete device and game, to run the model on *)

Module Sample.

(** [remove(arr, obj)] of utils/array.js: [indexOf] and [splice] take
    out the first occurrence of [obj] *)
Fixpoint remove_first (l : list Callback) (cb : Callback) : list Callback :=
  match l with
  | [] => []
  | c :: l => if Nat.eqb c cb then l else c :: remove_first l cb
  end.

(** Pointer Events are supported; the viewport is region 0 and spans
    800 by 600; region [r] is the square of side 10 at [(10 r, 0)];
    the quadtree knows regions 1 and 2, right of [x = 10]; callback 5
    is the one that returns [false]. *)
#[export] Instance env : Env :=
  {| device_pointerEvent := true;
     device_touch := false;
     maxTouchPoints := 1;
     array_remove := remove_first;
     isKinematic := λ _, false;
     isFloating := λ _, false;
     ancestor_bounds := λ _, None;
     bounds_contains := λ r px py,
       match r with
       | O => Qle_bool 0 px && Qle_bool px 800 && Qle_bool 0 py && Qle_bool py 600
       | _ => Qle_bool (10 * inject_Z (Z.of_nat r)) px
              && Qle_bool px (10 * inject_Z (Z.of_nat r) + 10)
              && Qle_bool 0 py && Qle_bool py 10
       end;
     viewport := 0%nat;
     sortReverseZ := λ a b, (inject_Z (Z.of_nat a) - inject_Z (Z.of_nat b))%Q;
     retrieve := λ rect _, if Qle_bool 10 (rect_x rect) then [1%nat; 2%nat] else [];
     returns_false := λ cb _, Nat.eqb cb 5 |}.

(** a [pointerdown] at [(px, py)], from a native pointer event *)
Definition pointerdown (px py : Q) : Pointer :=
  {| type := Some "pointerdown"; isNormalized := false; timeStamp := Some 100%Q;
     pointerId := 1;
     gameScreenX := px; gameScreenY := py; gameWorldX := px; gameWorldY := py;
     width := 1; height := 1; gameX := 0; gameY := 0; gameLocalX := 0; gameLocalY := 0 |}.

(** a [touchstart] at [(px, py)] with the time stamp [t], normalized *)
Definition touchstart (px py t : Q) : Pointer :=
  {| type := Some "touchstart"; isNormalized := true; timeStamp := Some t;
     pointerId := 1;
     gameScreenX := px; gameScreenY := py; gameWorldX := px; gameWorldY := py;
     width := 1; height := 1; gameX := 0; gameY := 0; gameLocalX := 0; gameLocalY := 0 |}.

Definition state_of (o : Outcome) : State :=
  match o with Ok s => s | Throw _ s => s end.

(** callback 7 on the viewport *)
Definition viewport_registered : State :=
  state_of (registerPointerEvent "pointerdown" (Some 0%nat) 7%nat initial).

(** callbacks 7 on region 1, 5 and then 8 on region 2, 9 on the viewport *)
Definition three_regions : State :=
  state_of (registerPointerEvent "pointerdown" (Some 0%nat) 9%nat
    (state_of (registerPointerEvent "pointerdown" (Some 2%nat) 8%nat
      (state_of (registerPointerEvent "pointerdown" (Some 2%nat) 5%nat
        (state_of (registerPointerEvent "pointerdown" (Some 1%nat) 7%nat initial))))))).

(** the viewport registered, after a touch with the time stamp 100 *)
Definition after_touch : State :=
  (dispatchEvent [touchstart 5 5 100] viewport_registered).1.2.

End Sample.
End PointerEvent.

(* ===================================================================== *)
(** ** Further vocabulary for the world *)
(* ===================================================================== *)

Module WorldMore.
Import World.

Section Model.
Context {T : Types} {C : Collaborators}.

(** the loop of [update] passes over the body [b]: it is static, or the
    game is paused and its owner is not exempt, or its owner is neither in
    the viewport nor always updated *)
Definition passed_over (isPaused : bool) (sc : Scene) (b : BodyId) : bool :=
  isStatic (body_of sc b)
  || skipped isPaused (entity_of sc (ancestor (body_of sc b))).

(** a collaborator that writes the accumulated force of no body *)
Definition keeps_force (f : Scene → Scene) : Prop :=
  ∀ sc b, force (body_of (f sc) b) = force (body_of sc b).

End Model.
End WorldMore.

(* ===================================================================== *)
(** ** [input/pointerevent.js] : the rest of the registration interface *)
(* ===================================================================== *)

Module PointerEventMore.
Import PointerEvent.

Section Model.
Context {E : Env}.

(** *** [releaseAllPointerEvents] *)

(** a sequence of [releasePointerEvent(t, region)], one for every [t] of
    [types]; an exception ends it *)
Definition release_types (types : list string) (region : RegionId) (s : State) : Outcome :=
  fold_left (λ o t, match o with
                    | Ok s => releasePointerEvent t region None s
                    | Throw m s => Throw m s
                    end) types (Ok s).

Definition releaseAllPointerEvents (region : RegionId) (s : State) : Outcome :=
  if bool_decide (is_Some (eventHandlers s !! region))
  then release_types pointerEventList region s
  else Ok s.

(** *** [Draggable], in [renderable/dragndrop.js]: the calls that
    [initEvents] and [destroy] make to this module (their subscriptions to
    the event bus of [system/event.js] do not touch its state) *)

Definition Draggable_initEvents (this : RegionId) (onDown onUp onCancel : Callback)
    (s : State) : Outcome :=
  match registerPointerEvent "pointerdown" (Some this) onDown s with
  | Throw m s => Throw m s
  | Ok s =>
      match registerPointerEvent "pointerup" (Some this) onUp s with
      | Throw m s => Throw m s
      | Ok s => registerPointerEvent "pointercancel" (Some this) onCancel s
      end
  end.

Definition Draggable_destroy (this : RegionId) (s : State) : Outcome :=
  release_types ["pointerdown"; "pointerup"; "pointercancel"] this s.

(** *** Vocabulary for the statements *)

(** the callbacks of [cbs] up to and with the first that returns [false] *)
Fixpoint until_false (p : Pointer) (cbs : list Callback) : list Callback :=
  match cbs with
  | [] => []
  | cb :: rest => cb :: (if returns_false cb p then [] else until_false p rest)
  end.

(** what [enablePointerEvent] sets [activeEventList] to *)
Definition active_events : list string :=
  (if device_pointerEvent then pointerEventList else mouseEventList)
  ++ (if device_touch && negb device_pointerEvent then touchEventList else []).

(** the property names under which a registration for [eventType] stores
    its callback *)
Definition variants (s : State) (eventType : string) : list string :=
  findAllActiveEvents (activeEventList s) (pointerEventMap_get eventType).

(** [e] is a call of a callback that the candidate [c] has registered in
    [m], under the type it is called with *)
Definition registered_call (m : gmap RegionId Handlers) (c : RegionId) (e : Event) : Prop :=
  ∃ t cb p h cbs,
    e = EvCallback c t cb p ∧ m !! c = Some h ∧ callbacks h !! t = Some cbs ∧ cb ∈ cbs.

(** the parts of the state that no visit of a candidate writes *)
Definition same_rest (s s' : State) : Prop :=
  lastTimeStamp s' = lastTimeStamp s
  ∧ activeEventList s' = activeEventList s
  ∧ pointerInitialized s' = pointerInitialized s
  ∧ T_POINTERS s' = T_POINTERS s
  ∧ currentPointer s' = currentPointer s.

(** calls closed by the one that returned [false] *)
Definition ends_loud (evs : list Event) : Prop :=
  ∃ pre e, evs = pre ++ [e] ∧ quiet pre ∧ loud e = true.

(** from [st] to [st'] callbacks of the candidate [c] were called, up to
    one that returned [false] when [flag] is set, and nothing but the
    [pointerId] of its handlers was written *)
Definition advance (c : RegionId) (flag : bool) (st st' : State * list Event) : Prop :=
  ∃ new,
    st'.2 = st.2 ++ new
    ∧ Forall (registered_call (eventHandlers st.1) c) new
    ∧ (if flag then ends_loud new else quiet new)
    ∧ same_handlers (eventHandlers st.1) (eventHandlers st'.1)
    ∧ (∀ c', c' ≠ c → eventHandlers st'.1 !! c' = eventHandlers st.1 !! c')
    ∧ same_rest st.1 st'.1.

(** [e] is a call of a registered callback on one of [candidates] that
    is not kinematic *)
Definition candidate_call (m : gmap RegionId Handlers) (candidates : list RegionId)
    (e : Event) : Prop :=
  ∃ c, c ∈ candidates ∧ registered_call m c e ∧ isKinematic c = false.

(** [e] is no call on a candidate other than the viewport *)
Definition on_viewport_only (e : Event) : Prop :=
  ∀ c, candidate_of e = Some c → c = viewport.

(** what a dispatch has done so far: no callback has returned [false]
    and [handled] is not set, or one has, [handled] is set, and every call
    made after it is one on the viewport *)
Definition handled_once (handled : bool) (tr : list Event) : Prop :=
  (handled = false ∧ quiet tr)
  ∨ (handled = true
     ∧ ∃ pre e post, tr = pre ++ e :: post ∧ quiet pre ∧ loud e = true
                     ∧ Forall on_viewport_only post).

(** [handlers.pointerId] of the entry of [c]: [Some None] is [null] *)
Definition holder (m : gmap RegionId Handlers) (c : RegionId) : option (option nat) :=
  handlers_pointerId <$> m !! c.

(** from [m] to [m'] the [pointerId] of an entry was kept or set to [i] *)
Definition writes (i : option nat) (m m' : gmap RegionId Handlers) : Prop :=
  ∀ c, holder m' c = holder m c ∨ holder m' c = Some i.

(** the [pointerId] that [triggerEvent] is given for an event of type
    [t] that is no move: that of the pointer in the default case, [null]
    for an up and a cancel *)
Definition written (t : string) (pid : nat) : option nat :=
  match switch (Some t) with DefaultCase => Some pid | _ => None end.

(** the callbacks registered on [r], by property name; none when [r] has
    no entry *)
Definition callbacks_at (s : State) (r : RegionId) : gmap string (list Callback) :=
  default ∅ (callbacks <$> eventHandlers s !! r).

(** the state that a call leaves, whether it returns or throws *)
Definition outcome_state (o : Outcome) : State :=
  match o with Ok s => s | Throw _ s => s end.

(** an entry [h] stored under [r] is tidy: it is the entry of [r], it
    has at least one array of callbacks and no empty one, and it has
    arrays only under names that a release can reach *)
Definition tidy (active : list string) (r : RegionId) (h : Handlers) : Prop :=
  region h = r
  ∧ callbacks h ≠ ∅
  ∧ (∀ k l, callbacks h !! k = Some l → l ≠ [])
  ∧ (∀ k, is_Some (callbacks h !! k) →
       ∃ t, t ∈ pointerEventList ∧ k ∈ findAllActiveEvents active (pointerEventMap_get t)).

(** what the registration interface keeps true of the state: every
    entry of [eventHandlers] is tidy; nothing is registered before the
    module is initialised, and once it is the active list is the one of
    the device *)
Record well_formed (s : State) : Prop := {
  wf_tidy : ∀ r h, eventHandlers s !! r = Some h → tidy (activeEventList s) r h;
  wf_fresh : pointerInitialized s = false → eventHandlers s = ∅;
  wf_active : pointerInitialized s = true → activeEventList s = active_events
}.

End Model.

(** *** More of the sample game *)

Module MoreSample.
Import PointerEvent.Sample.

(** a [pointerup] at [(px, py)], from a native pointer event *)
Definition pointerup (px py : Q) : Pointer :=
  {| type := Some "pointerup"; isNormalized := false; timeStamp := Some 200%Q;
     pointerId := 1;
     gameScreenX := px; gameScreenY := py; gameWorldX := px; gameWorldY := py;
     width := 1; height := 1; gameX := 0; gameY := 0; gameLocalX := 0; gameLocalY := 0 |}.

(** the entry of [r], or a fresh one *)
Definition handlers_of (s : State) (r : RegionId) : Handlers :=
  default {| region := r; callbacks := ∅; handlers_pointerId := None |}
          (eventHandlers s !! r).

(** region 2 registered for a press, callback 8, and for a release,
    callback 6 *)
Definition press_release : State :=
  state_of (registerPointerEvent "pointerup" (Some 2%nat) 6%nat
    (state_of (registerPointerEvent "pointerdown" (Some 2%nat) 8%nat initial))).

(** the same after a press at (25, 5) *)
Definition pressed : State := (dispatchEvent [pointerdown 25 5] press_release).1.2.

(** the callbacks called, by region *)
Definition called (tr : list Event) : list (RegionId * Callback) :=
  omap (λ e, match e with EvCallback c _ cb _ => Some (c, cb) | _ => None end) tr.

End MoreSample.

End PointerEventMore.

(* ===================================================================== *)
(** ** [input/pointerevent.js] : the pool of pointers and the key bindings *)
(* ===================================================================== *)

(** The functions of the module seen by the identity of the [Pointer]
    objects: which objects are in the pool, which are waiting in
    [normalizedEvents], and whose [bind] array is the one that
    [pointer.bind] refers to.  Every [Pointer] is created with a [bind]
    array of its own, and [Object.assign(pointer, normalizedEvents[0])]
    copies the reference to that array with the other properties.  The
    handlers, which [PointerEvent] covers, are left out, and with them
    the call of [preventDefault]; callbacks do not bind or unbind while
    an event is dispatched. *)

Module Bindings.

Class Keyboard := {
  (* getBindingKey(keyCode) of input/keyboard.js is truthy *)
  getBindingKey : Z → bool;
  (* device.touchEvent *)
  device_touchEvent : bool
}.

(** a [Pointer] object; 0 is [pointer], the one that the module exports *)
Definition ObjId : Type := nat.

(** an entry of a [bind] array: a key code, or [null] *)
Definition Slot : Type := option Z.

(** the properties of a DOM event that matter here: [changedTouches] is
    the length of the list when the event has one, [button] is
    [event.button] when it is a number *)
Record DomEvent := {
  type : string;
  changedTouches : option nat;
  isPrimary : option bool;
  button : option nat
}.

Record State := {
  pointerInitialized : bool;
  T_POINTERS : list ObjId;
  normalizedEvents : list ObjId;
  (* the objects created so far, [pointer] apart *)
  created : nat;
  (* the object whose array [pointer.bind] is *)
  pointer_bind : ObjId;
  (* [o.bind], an array, by index *)
  bind : ObjId → gmap nat Slot;
  (* [o.button] *)
  button_of : ObjId → nat
}.

(** [triggerKeyEvent(keycode, status, mouseButton)] *)
Definition KeyEvent : Type := Z * bool * nat.

Inductive Outcome (A : Type) :=
| Returns (a : A) (s : State)
| TypeError (s : State).
Arguments Returns {A} a s.
Arguments TypeError {A} s.

Inductive BindOutcome :=
| Bound (s : State)
| NoAction (keyCode : Z) (s : State).   (* "no action defined for keycode " + keyCode *)

Section Model.
Context {E : PointerEvent.Env} {K : Keyboard}.

(** [[ 0, 0, 0 ]] *)
Definition zeros : gmap nat Slot := {[ 0 := Some 0%Z; 1 := Some 0%Z; 2 := Some 0%Z ]}.

(** [pointer.LEFT] *)
Definition LEFT : nat := 0.

(** the module when it is loaded: [pointer = new Pointer(0, 0, 1, 1)] *)
Definition initial : State :=
  {| pointerInitialized := false; T_POINTERS := []; normalizedEvents := [];
     created := 0; pointer_bind := 0; bind := λ _, zeros; button_of := λ _, 0 |}.

(** [T_POINTERS.push(new Pointer())] *)
Definition push_new (s : State) : State :=
  {| pointerInitialized := pointerInitialized s;
     T_POINTERS := T_POINTERS s ++ [S (created s)];
     normalizedEvents := normalizedEvents s;
     created := S (created s);
     pointer_bind := pointer_bind s;
     bind := World.upd (bind s) (S (created s)) zeros;
     button_of := World.upd (button_of s) (S (created s)) 0 |}.

Definition enablePointerEvent (s : State) : State :=
  if pointerInitialized s then s
  else
    let s := Nat.iter PointerEvent.maxTouchPoints push_new s in
    {| pointerInitialized := true; T_POINTERS := T_POINTERS s;
       normalizedEvents := normalizedEvents s; created := created s;
       pointer_bind := pointer_bind s; bind := bind s; button_of := button_of s |}.

(** [pointer.bind[button] = v] *)
Definition set_bind (button : nat) (v : Slot) (s : State) : State :=
  {| pointerInitialized := pointerInitialized s; T_POINTERS := T_POINTERS s;
     normalizedEvents := normalizedEvents s; created := created s;
     pointer_bind := pointer_bind s;
     bind := World.upd (bind s) (pointer_bind s) (<[button := v]> (bind s (pointer_bind s)));
     button_of := button_of s |}.

(** [bindPointer(keyCode)] and [bindPointer(button, keyCode)]: [button]
    is [None] when there are fewer than two arguments *)
Definition bindPointer (button : option nat) (keyCode : Z) (s : State) : BindOutcome :=
  let button := default LEFT button in
  let s := enablePointerEvent s in
  if negb (getBindingKey keyCode) then NoAction keyCode s
  else Bound (set_bind button (Some keyCode) s).

(** [unbindPointer(button)]: [button] is [None] when it is [undefined] *)
Definition unbindPointer (button : option nat) (s : State) : State :=
  set_bind (default LEFT button) None s.

(** [_pointer = T_POINTERS.pop(); _pointer.setEvent(originalEvent, ...);
    normalizedEvents.push(_pointer)]; on an empty pool [_pointer] is
    [undefined] and the call of [setEvent] is a [TypeError] *)
Definition take_pointer (e : DomEvent) (s : State) : option State :=
  match last (T_POINTERS s) with
  | None => None
  | Some o =>
      Some {| pointerInitialized := pointerInitialized s;
              T_POINTERS := removelast (T_POINTERS s);
              normalizedEvents := normalizedEvents s ++ [o];
              created := created s; pointer_bind := pointer_bind s;
              bind := bind s;
              button_of := World.upd (button_of s) o (default 0 (button e)) |}
  end.

Fixpoint take_pointers (n : nat) (e : DomEvent) (s : State) : Outcome unit :=
  match n with
  | 0 => Returns tt s
  | S n =>
      match take_pointer e s with
      | None => TypeError s
      | Some s => take_pointers n e s
      end
  end.

(** how many pointers [normalizeEvent] takes for [e] *)
Definition pointers_of (e : DomEvent) : nat :=
  match changedTouches e with
  | Some n => if device_touchEvent then n else 1
  | None => 1
  end.

(** [Object.assign(pointer, o)], as far as [bind] goes *)
Definition assign (o : ObjId) (s : State) : State :=
  {| pointerInitialized := pointerInitialized s; T_POINTERS := T_POINTERS s;
     normalizedEvents := normalizedEvents s; created := created s;
     pointer_bind := o; bind := bind s; button_of := button_of s |}.

Definition normalizeEvent (e : DomEvent) (s : State) : Outcome unit :=
  match take_pointers (pointers_of e) e s with
  | TypeError s => TypeError s
  | Returns _ s =>
      if bool_decide (isPrimary e = Some false) then Returns tt s
      else
        match normalizedEvents s with
        | [] => TypeError s        (* normalizedEvents[0].isPrimary = true *)
        | first :: _ => Returns tt (assign first s)
        end
  end.

(** [dispatchEvent(normalizedEvents)]: every pointer is popped and pushed
    back on the pool *)
Definition dispatchEvent (s : State) : State :=
  {| pointerInitialized := pointerInitialized s;
     T_POINTERS := T_POINTERS s ++ rev (normalizedEvents s);
     normalizedEvents := [];
     created := created s; pointer_bind := pointer_bind s;
     bind := bind s; button_of := button_of s |}.

Definition onMoveEvent (e : DomEvent) (s : State) : Outcome unit :=
  match normalizeEvent e s with
  | TypeError s => TypeError s
  | Returns _ s => Returns tt (dispatchEvent s)
  end.

(** [if (keycode) triggerKeyEvent(keycode, POINTER_DOWN.includes(e.type), button + 1)] *)
Definition key_event (e : DomEvent) (button : nat) (keycode : option Slot) : option KeyEvent :=
  match keycode with
  | Some (Some k) =>
      if (k =? 0)%Z then None
      else Some (k, bool_decide (type e ∈ PointerEvent.POINTER_DOWN), button + 1)
  | _ => None
  end.

(** [onPointerEvent(e)]; the answer is the key event triggered, if any *)
Definition onPointerEvent (e : DomEvent) (s : State) : Outcome (option KeyEvent) :=
  match normalizeEvent e s with
  | TypeError s => TypeError s
  | Returns _ s =>
      match normalizedEvents s with
      | [] => TypeError s          (* normalizedEvents[0].button *)
      | first :: _ =>
          let button := button_of s first in
          let s := dispatchEvent s in
          Returns (key_event e button (bind s (pointer_bind s) !! button)) s
      end
  end.

(** the state that a call leaves, whether it returns or throws *)
Definition state_of {A} (r : Outcome A) : State :=
  match r with Returns _ s => s | TypeError s => s end.

(** *** Runs of calls *)

Inductive Call :=
| CallBind (button : option nat) (keyCode : Z)
| CallUnbind (button : option nat)
| CallPointerEvent (e : DomEvent)
| CallMoveEvent (e : DomEvent).

(** the state after a call, whether it returns or throws, and the key
    event it triggers *)
Definition call (c : Call) (s : State) : State * option KeyEvent :=
  match c with
  | CallBind button keyCode =>
      (match bindPointer button keyCode s with Bound s => s | NoAction _ s => s end, None)
  | CallUnbind button => (unbindPointer button s, None)
  | CallPointerEvent e =>
      match onPointerEvent e s with
      | Returns k s => (s, k)
      | TypeError s => (s, None)
      end
  | CallMoveEvent e =>
      (match onMoveEvent e s with Returns _ s => s | TypeError s => s end, None)
  end.

Fixpoint run (cs : list Call) (s : State) : State * list KeyEvent :=
  match cs with
  | [] => (s, [])
  | c :: cs =>
      let r := call c s in
      let r' := run cs r.1 in
      (r'.1, option_list r.2 ++ r'.2)
  end.

(** *** Vocabulary for the statements *)

Definition is_binding (c : Call) : Prop :=
  match c with CallBind _ _ | CallUnbind _ => True | _ => False end.

(** an event that [normalizeEvent] copies into [pointer] *)
Definition is_primary (c : Call) : Prop :=
  match c with
  | CallPointerEvent e | CallMoveEvent e => isPrimary e ≠ Some false
  | _ => False
  end.

(** the arrays of the pooled pointers are as they were created, and
    [pointer] is not one of them *)
Definition pristine (s : State) : Prop :=
  ∀ o, o ∈ T_POINTERS s ++ normalizedEvents s → o ≠ 0 ∧ bind s o = zeros.

(** no event is being normalized, and [pointer.bind] is the array of
    the pointer that the pool hands out first *)
Definition settled (s : State) : Prop :=
  normalizedEvents s = [] ∧ last (T_POINTERS s) = Some (pointer_bind s).

End Model.

(** *** A device to run the model on: every key code but 0 has an action *)
Module Sample.

#[export] Instance keyboard : Keyboard :=
  {| getBindingKey := λ k, negb (k =? 0)%Z; device_touchEvent := false |}.

(** a press of the left button *)
Definition mousedown : DomEvent :=
  {| type := "mousedown"; changedTouches := None; isPrimary := None; button := Some 0 |}.

End Sample.

End Bindings.

(* ===================================================================== *)
(** ** [Pointer.setEvent] and [globalToLocal] *)
(* ===================================================================== *)

Module PointerObject.
Import PointerEvent.

Local Open Scope Q_scope.

(** what the page, the renderer and the game answer when an event is
    normalized, and the accessors that [Pointer] inherits from
    [Bounds] *)
Record Page := {
  (* getElementBounds(renderer.getCanvas()) *)
  rect_left : Q;
  rect_top : Q;
  (* globalThis.pageXOffset, globalThis.pageYOffset, globalThis.devicePixelRatio *)
  pageXOffset : option Q;
  pageYOffset : option Q;
  devicePixelRatio : option Q;
  (* renderer.scaleRatio *)
  scaleRatio : Q * Q;
  (* typeof globalThis.PointerEvent !== "undefined" *)
  PointerEvent_defined : bool;
  (* game.viewport.localToWorld, when game.viewport is defined *)
  localToWorld : option (Q → Q → Q * Q);
  (* [Pointer] extends [Bounds] (physics/bounds.js), whose [x], [y],
     [width] and [height] are accessors over [min] and [max]: what
     [this.width] reads once [this.x = x] and [this.width = v] have
     run, the difference of [max.x] and [min.x] in the numbers of JS;
     the same for [this.height] with [this.y = y] *)
  Bounds_size : Q → Q → Q
}.

(** the properties of the DOM event that [setEvent] reads for the
    fields of [Pointer]; a property is [None] when it is [undefined] *)
Record NativeEvent := {
  ev_type : option string;
  ev_timeStamp : option Q;
  (* event instanceof globalThis.PointerEvent *)
  is_PointerEvent : bool;
  ev_width : option Q;
  ev_height : option Q;
  radiusX : option Q;
  radiusY : option Q
}.

(** [v || d] for a number [v] that may be [undefined] *)
Definition or_else (v : option Q) (d : Q) : Q :=
  match v with
  | Some q => if Qeq_bool q 0 then d else q
  | None => d
  end.

(** [globalToLocal(x, y, v)]: the coordinates that [v] is set to; [None]
    when a division by 0 makes them no finite numbers *)
Definition globalToLocal (pg : Page) (x y : Q) : option (Q * Q) :=
  let pixelRatio := or_else (devicePixelRatio pg) 1 in
  let x := x - (rect_left pg + or_else (pageXOffset pg) 0) in
  let y := y - (rect_top pg + or_else (pageYOffset pg) 0) in
  let scale := scaleRatio pg in
  if negb (Qeq_bool scale.1 1) || negb (Qeq_bool scale.2 1) then
    if Qeq_bool scale.1 0 || Qeq_bool scale.2 0 then None
    else Some (x / scale.1 * pixelRatio, y / scale.2 * pixelRatio)
  else Some (x * pixelRatio, y * pixelRatio).

(** [this.setEvent(event, pageX, pageY, clientX, clientY, pointerId)],
    for the fields of [Pointer] that the dispatch reads; an argument is
    [None] when it is [undefined].  [width] and [height] are what the
    dispatch will read of them. *)
Definition setEvent (pg : Page) (event : NativeEvent) (pageX pageY : option Q)
    (pointerId : option nat) (this : Pointer) : option Pointer :=
  match globalToLocal pg (default 0 pageX) (default 0 pageY) with
  | None => None
  | Some (sx, sy) =>
      let isNormalized := PointerEvent_defined pg && negb (is_PointerEvent event) in
      let world := match localToWorld pg with
                   | Some f => f sx sy
                   | None => (sx, sy)
                   end in
      let size :=
        if negb isNormalized then (or_else (ev_width event) 1, or_else (ev_height event) 1)
        else match radiusX event with
             | Some rx => (or_else (Some (rx * 2)) 1,
                           or_else ((λ ry, ry * 2) <$> radiusY event) 1)
             | None => (1, 1)
             end in
      Some {| type := ev_type event; isNormalized := isNormalized;
              timeStamp := ev_timeStamp event; pointerId := default 1%nat pointerId;
              gameScreenX := sx; gameScreenY := sy;
              gameWorldX := world.1; gameWorldY := world.2;
              width := Bounds_size pg sx size.1; height := Bounds_size pg sy size.2;
              gameX := gameX this; gameY := gameY this;
              gameLocalX := gameLocalX this; gameLocalY := gameLocalY this |}
  end.

(** *** A page to run the model on: the canvas at (8, 8) on a page
    scrolled by 100, drawn at twice its size *)
Module Sample.

Local Open Scope Q_scope.

Definition page : Page :=
  {| rect_left := 8; rect_top := 8; pageXOffset := None; pageYOffset := Some 100;
     devicePixelRatio := Some 1; scaleRatio := (2, 2);
     PointerEvent_defined := true; localToWorld := None;
     Bounds_size := λ x v, (x + v) - x |}.

(** a touch *)
Definition touch : NativeEvent :=
  {| ev_type := Some "touchstart"; ev_timeStamp := Some 50; is_PointerEvent := false;
     ev_width := None; ev_height := None; radiusX := Some 0; radiusY := None |}.

End Sample.

End PointerObject.

(** ** A device that has touch events and no [PointerEvent]

    [globalThis.PointerEvent] is not defined, so that
    [enablePointerEvent] listens to the events of the mouse and of
    touch; the game is the one of [PointerEvent.Sample] and the page
    the one of [PointerObject.Sample]. *)
Module TouchDevice.
Import PointerEvent PointerObject.

Local Open Scope Q_scope.

#[export] Instance env : Env :=
  {| device_pointerEvent := false;
     device_touch := true;
     maxTouchPoints := 1;
     array_remove := PointerEvent.Sample.remove_first;
     isKinematic := @isKinematic PointerEvent.Sample.env;
     isFloating := @isFloating PointerEvent.Sample.env;
     ancestor_bounds := @ancestor_bounds PointerEvent.Sample.env;
     bounds_contains := @bounds_contains PointerEvent.Sample.env;
     viewport := @viewport PointerEvent.Sample.env;
     sortReverseZ := @sortReverseZ PointerEvent.Sample.env;
     retrieve := @retrieve PointerEvent.Sample.env;
     returns_false := @returns_false PointerEvent.Sample.env |}.

Definition page : Page :=
  {| rect_left := 8; rect_top := 8; pageXOffset := None; pageYOffset := Some 100;
     devicePixelRatio := Some 1; scaleRatio := (2, 2);
     PointerEvent_defined := false; localToWorld := None;
     Bounds_size := λ x v, (x + v) - x |}.

(** the [touchstart] event with the time stamp [t] *)
Definition touch_at (t : Q) : NativeEvent :=
  {| ev_type := Some "touchstart"; ev_timeStamp := Some t; is_PointerEvent := false;
     ev_width := None; ev_height := None; radiusX := None; radiusY := None |}.

(** the pointer that [normalizeEvent] makes of its one changed touch,
    at the point (208, 308) of the page *)
Definition press (t : Q) : option Pointer :=
  setEvent page (touch_at t) (Some 208) (Some 308) (Some 0%nat) Pointer_new.

(** callback 7 registered on the viewport for [pointerdown] *)
Definition registered : State :=
  PointerEvent.Sample.state_of (registerPointerEvent "pointerdown" (Some 0%nat) 7%nat initial).

End TouchDevice.

(* ===================================================================== *)
(** ** [renderable/dragndrop.js] : [Draggable] and [DropTarget] *)
(* ===================================================================== *)

Module Dragndrop.
Import PointerEvent.

Local Open Scope Q_scope.

(** a [Vector2d] and the position of a renderable, by coordinates *)
Definition Vec2 : Type := Q * Q.
Definition Vec3 : Type := Q * Q * Q.

(** the methods of [math/vector2.js] and of the position that
    [Draggable] calls, and those of the bounds that [DropTarget] reads *)
Class Collaborators := {
  (* grabOffset.set(x, y) *)
  Vector2d_set : Q → Q → Vec2 → Vec2;
  (* grabOffset.sub(pos) *)
  Vector2d_sub : Vec2 → Vec3 → Vec2;
  (* pos.set(x, y, z) *)
  Vector3d_set : Q → Q → Q → Vec3 → Vec3;
  (* pos.sub(grabOffset) *)
  Vector3d_sub : Vec3 → Vec2 → Vec3;
  (* typeof this.getBounds()[name] === "function" *)
  is_function : string → bool;
  (* this.getBounds()[name](draggable.getBounds()), for a name that is a function *)
  bounds_test : string → RegionId → bool
}.

Record Draggable := {
  dragging : bool;
  pos : Vec3;
  grabOffset : Vec2
}.

Record DropTarget := {
  (* [None] is [undefined] *)
  checkMethod : option string
}.

Inductive Dropped :=
| Drop (draggable : RegionId)       (* this.drop(draggable) *)
| NoDrop
| NotAFunction.                     (* a TypeError: the check method is no function *)

Section Model.
Context {C : Collaborators}.

(** [dragStart(e)]: the value returned, [None] when it is [undefined] *)
Definition dragStart (e : Pointer) (d : Draggable) : option bool * Draggable :=
  if negb (dragging d) then
    (Some false,
     {| dragging := true; pos := pos d;
        grabOffset := Vector2d_sub (Vector2d_set (gameX e) (gameY e) (grabOffset d)) (pos d) |})
  else (None, d).

Definition dragMove (e : Pointer) (d : Draggable) : Draggable :=
  if dragging d then
    {| dragging := true;
       pos := Vector3d_sub (Vector3d_set (gameX e) (gameY e) (pos d).2 (pos d)) (grabOffset d);
       grabOffset := grabOffset d |}
  else d.

Definition dragEnd (d : Draggable) : option bool * Draggable :=
  if dragging d then
    (Some false, {| dragging := false; pos := pos d; grabOffset := grabOffset d |})
  else (None, d).

Definition CHECKMETHOD_OVERLAP : string := "overlaps".
Definition CHECKMETHOD_CONTAINS : string := "contains".

(** the fields that the constructor of [DropTarget] sets *)
Definition DropTarget_new : DropTarget := {| checkMethod := Some CHECKMETHOD_OVERLAP |}.

Definition setCheckMethod (m : option string) (t : DropTarget) : DropTarget :=
  if is_function (key (checkMethod t)) then {| checkMethod := m |} else t.

(** [checkOnMe(e, draggable)]; [draggable] is [None] when it is not
    given *)
Definition checkOnMe (draggable : option RegionId) (t : DropTarget) : Dropped :=
  match draggable with
  | None => NoDrop
  | Some d =>
      if is_function (key (checkMethod t))
      then if bounds_test (key (checkMethod t)) d then Drop d else NoDrop
      else NotAFunction
  end.

(** *** Vocabulary for the statements *)

(** [set] writes the coordinates it is given and [sub] takes the
    argument off coordinate by coordinate, leaving [z] *)
Definition componentwise : Prop :=
  (∀ x y v, Vector2d_set x y v = (x, y))
  ∧ (∀ (a : Vec2) (b : Vec3), Vector2d_sub a b = (a.1 - b.1.1, a.2 - b.1.2))
  ∧ (∀ x y z v, Vector3d_set x y z v = (x, y, z))
  ∧ (∀ (a : Vec3) (b : Vec2), Vector3d_sub a b = (a.1.1 - b.1, a.1.2 - b.2, a.2)).

(** the moves of [moves], in order *)
Definition drag (moves : list Pointer) (d : Draggable) : Draggable :=
  fold_left (λ d e, dragMove e d) moves d.

End Model.

Module Sample.

#[export] Instance collaborators : Collaborators :=
  {| Vector2d_set := λ x y _, (x, y);
     Vector2d_sub := λ a b, (a.1 - b.1.1, a.2 - b.1.2);
     Vector3d_set := λ x y z _, (x, y, z);
     Vector3d_sub := λ a b, (a.1.1 - b.1, a.1.2 - b.2, a.2);
     is_function := λ name, bool_decide (name ∈ ["overlaps"; "contains"]);
     bounds_test := λ _ _, true |}.

(** a pointer at [(px, py)] in the coordinates of the region *)
Definition at_ (px py : Q) : Pointer := set_game px py Pointer_new.

(** a renderable at (10, 20, 3), at rest *)
Definition at_rest : Draggable :=
  {| dragging := false; pos := (10, 20, 3); grabOffset := (0, 0) |}.

End Sample.

End Dragndrop.

(* ===================================================================== *)
(** ** [enablePointerEvent] : the listeners on the DOM *)
(* ===================================================================== *)

Module Listeners.
Import PointerEvent PointerEventMore.

Inductive Handler :=
| OnPointerEvent                          (* onPointerEvent *)
| OnMoveEvent                             (* onMoveEvent *)
| ThrottledMoveEvent (interval : Q)       (* throttle(onMoveEvent, throttlingInterval, false) *)
| FocusHandler.                           (* () => { focus(); } *)

(** [pointerEventTarget.addEventListener(on_type, handler, { passive })] *)
Record Listener := {
  on_type : string;
  handler : Handler;
  passive : bool
}.

(** [registerEventListener(eventList, callback)]; [preventDefault] is
    the flag of [input/input.js] *)
Definition registerEventListener (preventDefault : bool) (eventList : list string)
    (callback : Handler) : list Listener :=
  (λ t, {| on_type := t; handler := callback; passive := negb preventDefault |})
    <$> List.filter (λ t, negb (bool_decide (t ∈ POINTER_MOVE))) eventList.

(** the listener for the focus, on [activeEventList[2]] *)
Definition focus_listener (preventDefault : bool) (active : list string) : Listener :=
  {| on_type := item active 2; handler := FocusHandler; passive := negb preventDefault |}.

(** the two loops over [findAllActiveEvents(activeEventList, POINTER_MOVE)] *)
Definition move_listeners (throttlingInterval : Q) (active : list string) : list Listener :=
  (λ t, {| on_type := t;
           handler := if negb (Qle_bool 17 throttlingInterval) then OnMoveEvent
                      else ThrottledMoveEvent throttlingInterval;
           passive := true |})
    <$> List.filter (λ t, bool_decide (t ∈ active)) (findAllActiveEvents active POINTER_MOVE).

(** the listeners that [enablePointerEvent] adds, in order, once
    [activeEventList] is set *)
Definition installed (preventDefault : bool) (throttlingInterval : Q)
    (active : list string) : list Listener :=
  registerEventListener preventDefault active OnPointerEvent
  ++ [focus_listener preventDefault active]
  ++ move_listeners throttlingInterval active.

End Listeners.

(* ===================================================================== *)
(** ** Properties of the ECMAScript [Set] *)
(* ===================================================================== *)

Module JSSetFacts.
Import JSSet.

Section Facts.
Context {A : Type} `{EqDecision A}.
Implicit Types (s : t A) (x y : A).

Lemma elem_of_elements x s : x ∈ elements s ↔ Some x ∈ s.
Proof.
  unfold elements. rewrite list_elem_of_omap. split.
  - intros (o & Ho & Hx). simpl in Hx. by subst.
  - intros Hx. by exists (Some x).
Qed.

Lemma has_true x s : has x s = true ↔ x ∈ elements s.
Proof. unfold has. rewrite bool_decide_eq_true. symmetry. apply elem_of_elements. Qed.

Lemma elements_app s1 s2 : elements (s1 ++ s2) = elements s1 ++ elements s2.
Proof. apply omap_app. Qed.

Lemma elements_add_new x s :
  has x s = false → elements (add x s) = elements s ++ [x].
Proof. intros Hx. unfold add. rewrite Hx. by rewrite elements_app. Qed.

Lemma elements_add_old x s : has x s = true → add x s = s.
Proof. intros Hx. unfold add. by rewrite Hx. Qed.

Lemma has_add x s : has x (add x s) = true.
Proof.
  destruct (has x s) eqn:Hx.
  - by rewrite elements_add_old.
  - apply has_true. rewrite elements_add_new by done.
    apply elem_of_app. right. by apply list_elem_of_singleton.
Qed.

Lemma add_idempotent x s : add x (add x s) = add x s.
Proof. apply elements_add_old, has_add. Qed.

Lemma elem_of_add x y s : y ∈ elements (add x s) ↔ y = x ∨ y ∈ elements s.
Proof.
  destruct (has x s) eqn:Hx.
  - rewrite elements_add_old by done. apply has_true in Hx.
    split; [by right | by intros [-> |]].
  - rewrite elements_add_new by done.
    rewrite elem_of_app, list_elem_of_singleton. tauto.
Qed.

Lemma NoDup_add x s : NoDup (elements s) → NoDup (elements (add x s)).
Proof.
  intros Hs. destruct (has x s) eqn:Hx.
  - by rewrite elements_add_old.
  - rewrite elements_add_new by done.
    apply NoDup_app. split_and!; [done | | apply NoDup_singleton].
    intros y Hy ->%list_elem_of_singleton.
    apply has_true in Hy. congruence.
Qed.

Lemma elem_of_delete x y s : y ∈ elements (delete x s) ↔ y ≠ x ∧ y ∈ elements s.
Proof.
  rewrite !elem_of_elements. unfold delete. rewrite list_elem_of_fmap. split.
  - intros (e & He & Hin). destruct (decide (e = Some x)); [done |].
    subst e. split; [congruence | done].
  - intros [Hne Hin]. exists (Some y). split; [| done].
    destruct (decide (Some y = Some x)); [congruence | done].
Qed.

Lemma not_elem_of_delete x s : x ∉ elements (delete x s).
Proof. rewrite elem_of_delete. tauto. Qed.

Lemma elements_clear s : elements (clear s) = [].
Proof. unfold elements, clear. induction s as [| e s IH]; [done | by simpl]. Qed.

Lemma elements_cons e s :
  elements (e :: s) = match e with Some x => x :: elements s | None => elements s end.
Proof. by destruct e. Qed.

(** A callback that leaves the set alone is called once on every live
    element, in insertion order, and then the loop is over. *)
Lemma forEach_fold {S : Type} (get : S → t A) (callback : A → S → S) :
  (∀ x st, get (callback x st) = get st) →
  ∀ fuel index st,
    length (get st) - index ≤ fuel →
    forEach fuel get callback index st
    = Some (fold_left (λ st x, callback x st) (elements (drop index (get st))) st).
Proof.
  intros Hkeep. induction fuel as [| fuel IH]; intros index st Hfuel.
  - simpl. destruct (get st !! index) as [e |] eqn:He.
    + apply lookup_lt_Some in He. lia.
    + apply lookup_ge_None in He. by rewrite drop_ge.
  - simpl. destruct (get st !! index) as [e |] eqn:He.
    + rewrite (drop_S _ _ _ He), elements_cons. destruct e as [x |].
      * rewrite IH by (rewrite Hkeep; lia). by rewrite Hkeep.
      * rewrite IH by lia. done.
    + apply lookup_ge_None in He. by rewrite drop_ge.
Qed.

(** Whatever the callback does, a finished loop has walked the whole
    entry list as it stands at the end. *)
Lemma forEach_invariant {S : Type} (get : S → t A) (callback : A → S → S)
    (P : S → Prop) :
  (∀ x st, P st → P (callback x st)) →
  ∀ fuel index st st', P st → forEach fuel get callback index st = Some st' → P st'.
Proof.
  intros Hstep. induction fuel as [| fuel IH]; intros index st st' HP; simpl.
  - destruct (get st !! index); [done | congruence].
  - destruct (get st !! index) as [[x |] |]; [| | congruence].
    + apply IH. by apply Hstep.
    + by apply IH.
Qed.


(** A callback that does nothing on the elements at hand never gets
    anything else to see. *)
Lemma forEach_idle {S : Type} (get : S → t A) (callback : A → S → S) st :
  (∀ x, x ∈ elements (get st) → callback x st = st) →
  ∀ fuel index, length (get st) - index ≤ fuel →
    forEach fuel get callback index st = Some st.
Proof.
  intros Hidle. induction fuel as [| fuel IH]; intros index Hfuel; simpl.
  - destruct (get st !! index) as [e |] eqn:He; [| done].
    apply lookup_lt_Some in He. lia.
  - destruct (get st !! index) as [[x |] |] eqn:He; [| | done].
    + rewrite Hidle.
      * apply IH. lia.
      * apply elem_of_elements. by eapply list_elem_of_lookup_2.
    + apply IH. lia.
Qed.

End Facts.

(** the loop sees what its callback appends and passes over what it
    deletes: on 1 the callback deletes 2 and adds 4 *)
Example forEach_sees_mutation :
  forEach 10 (λ st : t nat * list nat, st.1)
    (λ x st, (if Nat.eqb x 1 then add 4 (delete 2 st.1) else st.1, st.2 ++ [x]))
    0 ([Some 1; Some 2; Some 3], [])
  = Some ([Some 1; None; Some 3; Some 4], [1; 3; 4]).
Proof. reflexivity. Qed.

(** a callback that adds a new element at every call keeps the loop going *)
Example forEach_out_of_fuel :
  forEach 10 (λ st : t nat * list nat, st.1)
    (λ x st, (add (S x) st.1, st.2 ++ [x])) 0 ([Some 0], [])
  = None.
Proof. reflexivity. Qed.

End JSSetFacts.

(* ===================================================================== *)
(** ** Properties of the world *)
(* ===================================================================== *)

Module WorldFacts.
Import World.

Section Facts.
Context {T : Types} {C : Collaborators}.
Implicit Types (w : World) (sc : Scene) (r : Run) (b : BodyId) (a : EntityId).

(** *** Frame lemmas for the world's own writes *)

Lemma bodies_bodyApplyGravity b sc : bodies (bodyApplyGravity b sc) = bodies sc.
Proof. unfold bodyApplyGravity. by destruct (_ && _). Qed.

Lemma upd_eq {A} (f : nat → A) k v : upd f k v k = v.
Proof. unfold upd. by destruct (decide (k = k)). Qed.

Lemma upd_ne {A} (f : nat → A) k v i : i ≠ k → upd f k v i = f i.
Proof. intros Hne. unfold upd. by destruct (decide (i = k)). Qed.

Lemma kind_force_set b f sc b' :
  isStatic (body_of (force_set b f sc) b') = isStatic (body_of sc b')
  ∧ ancestor (body_of (force_set b f sc) b') = ancestor (body_of sc b').
Proof.
  simpl. destruct (decide (b' = b)) as [-> |].
  - by rewrite upd_eq.
  - by rewrite upd_ne.
Qed.

Lemma kind_bodyApplyGravity b sc b' :
  isStatic (body_of (bodyApplyGravity b sc) b') = isStatic (body_of sc b')
  ∧ ancestor (body_of (bodyApplyGravity b sc) b') = ancestor (body_of sc b').
Proof.
  unfold bodyApplyGravity. destruct (_ && _); [apply kind_force_set | done].
Qed.

Lemma fold_left_pointwise {S A} (f g : S → A → S) (l : list A) :
  (∀ s x, f s x = g s x) → ∀ s, fold_left f l s = fold_left g l s.
Proof.
  intros Hfg. induction l as [| x l IH]; intros s; simpl; [done |].
  by rewrite Hfg, IH.
Qed.

(** *** The callback of the loop is the step of the specification *)

Lemma skipped_spec isPaused anc :
  negb (isPaused && negb (updateWhenPaused anc)) && (inViewport anc || alwaysUpdate anc)
  = negb (skipped isPaused anc).
Proof.
  unfold skipped.
  by destruct isPaused, (updateWhenPaused anc), (inViewport anc), (alwaysUpdate anc).
Qed.

Lemma update_body_spec isPaused dt b r :
  update_body isPaused dt b r = spec_body_step isPaused dt r b.
Proof.
  unfold update_body, spec_body_step. rewrite skipped_spec.
  destruct r as [w tr]. simpl.
  destruct (isStatic (body_of (scene w) b)); simpl; [done |].
  destruct (skipped isPaused _); simpl; [done |].
  destruct (Body_update b dt (bodyApplyGravity b (scene w))) as [[|] sc2]; simpl;
    unfold emit, set_scene; simpl; by rewrite <- !app_assoc.
Qed.

(** one step appends one segment, and leaves the quadtree alone *)
Lemma spec_body_step_segment isPaused dt r b :
  ∃ seg, (spec_body_step isPaused dt r b).2 = r.2 ++ seg ∧ segment dt b seg
         ∧ broadphase (spec_body_step isPaused dt r b).1 = broadphase r.1.
Proof.
  unfold spec_body_step.
  destruct (isStatic _).
  { exists []. rewrite app_nil_r. split_and!; [done | by left | done]. }
  destruct (skipped _ _).
  { exists []. rewrite app_nil_r. split_and!; [done | by left | done]. }
  simpl. eexists. split_and!; [reflexivity | | done].
  right. exists (ancestor (body_of (scene r.1) b)).
  destruct (Body_update _ _ _) as [[|] ?]; simpl; [by right | by left].
Qed.

Lemma spec_fold_segments isPaused dt l :
  ∀ r, ∃ segs,
    (fold_left (spec_body_step isPaused dt) l r).2 = r.2 ++ concat segs
    ∧ Forall2 (segment dt) l segs
    ∧ broadphase (fold_left (spec_body_step isPaused dt) l r).1 = broadphase r.1.
Proof.
  induction l as [| b l IH]; intros r; simpl.
  - exists []. simpl. rewrite app_nil_r. by split_and!.
  - destruct (spec_body_step_segment isPaused dt r b) as (seg & Hseg & Hshape & Hq).
    destruct (IH (spec_body_step isPaused dt r b)) as (segs & Hsegs & Hall & Hq').
    exists (seg :: segs). split_and!.
    + rewrite Hsegs, Hseg. simpl. by rewrite app_assoc.
    + by constructor.
    + congruence.
Qed.

(** collaborators that keep the set of bodies make the step keep it *)
Lemma bodies_spec_body_step isPaused dt r b :
  (∀ b, keeps_bodies (λ sc, (Body_update b dt sc).2)) →
  (∀ a q, keeps_bodies (Detector_collisions a q)) →
  bodies (scene (spec_body_step isPaused dt r b).1) = bodies (scene r.1).
Proof.
  intros Hupd Hcol. unfold spec_body_step.
  destruct (isStatic _); [done |]. destruct (skipped _ _); [done |].
  simpl. rewrite Hcol.
  destruct (Body_update b dt _) as [moved sc2] eqn:Hres. simpl.
  assert (bodies sc2 = bodies (scene r.1)) as Hsc2.
  { specialize (Hupd b (bodyApplyGravity b (scene r.1))). simpl in Hupd.
    rewrite Hres in Hupd. simpl in Hupd. by rewrite Hupd, bodies_bodyApplyGravity. }
  by destruct moved.
Qed.

Lemma update_refines_spec_tick fuel isPaused dt w :
  (∀ b, keeps_bodies (λ sc, (Body_update b dt sc).2)) →
  (∀ a q, keeps_bodies (Detector_collisions a q)) →
  length (bodies (scene w)) ≤ fuel →
  update fuel isPaused dt w = Some (spec_tick isPaused dt w).
Proof.
  intros Hupd Hcol Hfuel. unfold update, spec_tick.
  rewrite (JSSetFacts.forEach_fold (λ r : Run, bodies (scene r.1))).
  - simpl. rewrite drop_0.
    rewrite (fold_left_pointwise _ (spec_body_step isPaused dt)); [done |].
    intros r b. apply update_body_spec.
  - intros b r. rewrite update_body_spec. by apply bodies_spec_body_step.
  - simpl. lia.
Qed.

(** *** The set of active bodies *)

(** C5: the active set holds every body once.  Adding a body twice
    leaves the world as adding it once does; adding keeps the entries
    free of duplicates; and a body that is added and then removed is
    not in the set. *)
Theorem addBody_unique w b :
  addBody b (addBody b w) = addBody b w
  ∧ (NoDup (JSSet.elements (bodies (scene w)))
     → NoDup (JSSet.elements (bodies (scene (addBody b w)))))
  ∧ b ∈ JSSet.elements (bodies (scene (addBody b w)))
  ∧ b ∉ JSSet.elements (bodies (scene (removeBody b (addBody b w)))).
Proof.
  split_and!.
  - unfold addBody. simpl. by rewrite JSSetFacts.add_idempotent.
  - simpl. apply JSSetFacts.NoDup_add.
  - simpl. apply JSSetFacts.elem_of_add. by left.
  - simpl. apply JSSetFacts.not_elem_of_delete.
Qed.

(** C4: [reset] clears the quadtree, then empties the set of bodies
    (after the inherited reset), and the [LEVEL_LOADED] handler clears
    the quadtree to the current bounds of the world and touches
    nothing else: the set of bodies is the one from before. *)
Theorem reset_and_level_load w :
  (reset_run (w, [])).2 = [EvQuadTreeClear; EvAnchorReset; EvContainerReset; EvBodiesClear]
  ∧ broadphase (reset w) = QuadTree_clear None (broadphase w)
  ∧ JSSet.elements (bodies (scene (reset w))) = []
  ∧ broadphase (onLevelLoaded w)
    = QuadTree_clear (Some (Container_getBounds (container (scene w)))) (broadphase w)
  ∧ scene (onLevelLoaded w) = scene w
  ∧ bodies (scene (onLevelLoaded w)) = bodies (scene w).
Proof.
  split_and!; try done.
  unfold reset, reset_run. simpl. apply JSSetFacts.elements_clear.
Qed.

(** C6, as the code has it: [bodies] is an ordinary property that
    holds the live set.  A call of [add] or [delete] on its value does
    to the world what [addBody] and [removeBody] do, and a call of
    [clear] empties the active set as [reset] does. *)
Theorem bodies_is_the_live_set w b :
  via_bodies (CallAdd b) w = addBody b w
  ∧ via_bodies (CallDelete b) w = removeBody b w
  ∧ JSSet.elements (bodies (scene (via_bodies CallClear w))) = []
  ∧ b ∈ JSSet.elements (bodies (scene (via_bodies (CallAdd b) w)))
  ∧ b ∉ JSSet.elements (bodies (scene (via_bodies (CallDelete b) w))).
Proof.
  split_and!; try done.
  - simpl. apply JSSetFacts.elements_clear.
  - simpl. apply JSSetFacts.elem_of_add. by left.
  - simpl. apply JSSetFacts.not_elem_of_delete.
Qed.

(** C7, as the code has it: the constructor checks nothing.  It hands
    its arguments, with [Infinity] for an omitted width or height, to
    the constructor of [Container], and [collision.maxChildren] and
    [collision.maxDepth] as they are to the constructor of [QuadTree];
    it fails exactly when one of these two does, and otherwise returns
    a world with an empty set of bodies and gravity (0, 0.98). *)
Theorem World_new_checks_nothing store_b store_e col ax ay awidth aheight :
  let made := Container_new (default (Finite 0) ax) (default (Finite 0) ay)
                (default Infinity awidth) (default Infinity aheight) true in
  match World_new store_b store_e col ax ay awidth aheight with
  | None =>
      made = None
      ∨ ∃ c, made = Some c
             ∧ QuadTree_new (Container_getBounds c) (maxChildren col) (maxDepth col) = None
  | Some w =>
      made = Some (container (scene w))
      ∧ QuadTree_new (Container_getBounds (container (scene w)))
          (maxChildren col) (maxDepth col) = Some (broadphase w)
      ∧ bodies (scene w) = JSSet.empty
      ∧ gravity (scene w) = mkVec 0 (98 # 100)
  end.
Proof.
  unfold World_new. simpl.
  destruct (Container_new _ _ _ _ _) as [c |]; [| by left].
  destruct (QuadTree_new _ _ _) as [q |] eqn:Hq; simpl.
  - by split_and!.
  - right. by exists c.
Qed.

(** *** Gravity *)

Lemma bodyApplyGravity_skip b sc :
  ignoreGravity (body_of sc b) = true ∨ gravityScale (body_of sc b) == 0 →
  bodyApplyGravity b sc = sc.
Proof.
  intros Hskip. unfold bodyApplyGravity.
  destruct Hskip as [-> | Hz]; [done |].
  apply Qeq_bool_iff in Hz. rewrite Hz. by rewrite andb_false_r.
Qed.

Lemma bodyApplyGravity_apply b sc :
  ignoreGravity (body_of sc b) = false → ¬ gravityScale (body_of sc b) == 0 →
  bodyApplyGravity b sc
  = force_set b
      (mkVec (x (force (body_of sc b))
              + mass (body_of sc b) * x (gravity sc) * gravityScale (body_of sc b))
             (y (force (body_of sc b))
              + mass (body_of sc b) * y (gravity sc) * gravityScale (body_of sc b))) sc.
Proof.
  intros Hi Hz. unfold bodyApplyGravity. rewrite Hi.
  destruct (Qeq_bool (gravityScale (body_of sc b)) 0) eqn:Hb; [| done].
  apply Qeq_bool_iff in Hb. contradiction.
Qed.

(** C2, as the code has it: gravity leaves the scene as it is
    whenever [ignoreGravity] is set or [gravityScale] is 0; otherwise
    it adds [mass * gravity * gravityScale] to the force on each axis
    and touches no other body.  With scale 1, mass 1 and gravity
    (0, 0.98) the body gains 0.98 of downward force, and 0.98 of
    vertical velocity once the integrator of the specification has run
    with dt = 1 on a body without other forces. *)
Theorem bodyApplyGravity_effect b sc :
  let body := body_of sc b in
  let after := body_of (bodyApplyGravity b sc) b in
  let gx := (mass body * x (gravity sc) * gravityScale body)%Q in
  let gy := (mass body * y (gravity sc) * gravityScale body)%Q in
  (ignoreGravity body = true ∨ gravityScale body == 0 → bodyApplyGravity b sc = sc)
  ∧ (ignoreGravity body = false → ¬ gravityScale body == 0 →
       Vec_eq (force after) (mkVec (x (force body) + gx) (y (force body) + gy))
       ∧ ∀ b', b' ≠ b → body_of (bodyApplyGravity b sc) b' = body_of sc b')
  ∧ (ignoreGravity body = false → gravityScale body == 1 → mass body == 1 →
     Vec_eq (gravity sc) (mkVec 0 (98 # 100)) →
       Vec_eq (force after) (mkVec (x (force body)) (y (force body) + (98 # 100)))
       ∧ (Vec_eq (force body) (mkVec 0 0) →
          y (vel (body_of (Body_update_spec b 1 (bodyApplyGravity b sc)).2 b))
          == y (vel body) + (98 # 100))).
Proof.
  intros body after gx gy. split_and!.
  - apply bodyApplyGravity_skip.
  - intros Hi Hz. subst after. rewrite (bodyApplyGravity_apply b sc Hi Hz). split.
    + simpl. rewrite upd_eq. simpl. by split.
    + intros b' Hne. simpl. by rewrite upd_ne.
  - intros Hi Hs Hm [Hgx Hgy]. simpl in Hgx, Hgy.
    assert (¬ gravityScale body == 0) as Hz.
    { rewrite Hs. discriminate. }
    subst after. rewrite (bodyApplyGravity_apply b sc Hi Hz).
    simpl. rewrite !upd_eq. unfold Vec_eq. simpl. fold body.
    split_and!.
    + rewrite Hs, Hm, Hgx. ring.
    + rewrite Hs, Hm, Hgy. ring.
    + intros [Hfx Hfy]. simpl in Hfx, Hfy. rewrite Hs, Hm, Hgy, Hfy. field.
Qed.

(** *** The tick *)






(** *** Who initiates a collision test *)

Lemma spec_body_step_cases isPaused dt r b :
  spec_body_step isPaused dt r b = r
  ∨ (isStatic (body_of (scene r.1) b) = false
     ∧ ∃ seg, (spec_body_step isPaused dt r b).2
              = r.2 ++ [EvApplyGravity b; EvBodyUpdate b dt] ++ seg
         ∧ (seg = [EvCollisions (ancestor (body_of (scene r.1) b)); EvForceReset b]
            ∨ seg = [EvMarkDirty (ancestor (body_of (scene r.1) b));
                     EvCollisions (ancestor (body_of (scene r.1) b)); EvForceReset b])).
Proof.
  unfold spec_body_step.
  destruct (isStatic _) eqn:Hs; [by left |].
  destruct (skipped _ _); [by left |].
  right. split; [done |]. simpl.
  destruct (Body_update _ _ _) as [[|] ?]; simpl; eexists; (split; [reflexivity |]).
  - by right.
  - by left.
Qed.

Lemma kind_spec_body_step isPaused dt r b :
  (∀ b, keeps_kind (λ sc, (Body_update b dt sc).2)) →
  (∀ a q, keeps_kind (Detector_collisions a q)) →
  ∀ b', isStatic (body_of (scene (spec_body_step isPaused dt r b).1) b')
        = isStatic (body_of (scene r.1) b')
        ∧ ancestor (body_of (scene (spec_body_step isPaused dt r b).1) b')
          = ancestor (body_of (scene r.1) b').
Proof.
  intros Hupd Hcol b'. unfold spec_body_step.
  destruct (isStatic (body_of (scene r.1) b)); [done |].
  destruct (skipped _ _); [done |].
  simpl.
  destruct (kind_force_set b (mkVec 0 0)
              (Detector_collisions (ancestor (body_of (scene r.1) b)) (broadphase r.1)
                 (if (Body_update b dt (bodyApplyGravity b (scene r.1))).1
                  then mark_dirty (ancestor (body_of (scene r.1) b))
                         (Body_update b dt (bodyApplyGravity b (scene r.1))).2
                  else (Body_update b dt (bodyApplyGravity b (scene r.1))).2)) b')
    as [Hs1 Ha1].
  simpl in Hs1, Ha1. rewrite Hs1, Ha1. clear Hs1 Ha1.
  destruct (Hcol (ancestor (body_of (scene r.1) b)) (broadphase r.1)
              (if (Body_update b dt (bodyApplyGravity b (scene r.1))).1
               then mark_dirty (ancestor (body_of (scene r.1) b))
                      (Body_update b dt (bodyApplyGravity b (scene r.1))).2
               else (Body_update b dt (bodyApplyGravity b (scene r.1))).2) b')
    as [Hs2 Ha2].
  rewrite Hs2, Ha2. clear Hs2 Ha2.
  destruct (Hupd b (bodyApplyGravity b (scene r.1)) b') as [Hs3 Ha3].
  simpl in Hs3, Ha3.
  destruct (kind_bodyApplyGravity b (scene r.1) b') as [Hs4 Ha4].
  destruct (Body_update b dt (bodyApplyGravity b (scene r.1))) as [[|] sc2];
    simpl in *; split; congruence.
Qed.

(** every collision test made by the loop was started from a body
    that is not static, whose owner is the entity tested, and that
    was integrated before *)
Lemma fold_collisions isPaused dt sc0 l :
  (∀ b, keeps_kind (λ sc, (Body_update b dt sc).2)) →
  (∀ a q, keeps_kind (Detector_collisions a q)) →
  ∀ r,
    (∀ b, isStatic (body_of (scene r.1) b) = isStatic (body_of sc0 b)
          ∧ ancestor (body_of (scene r.1) b) = ancestor (body_of sc0 b)) →
    ∀ a, EvCollisions a ∈ (fold_left (spec_body_step isPaused dt) l r).2 →
      EvCollisions a ∈ r.2
      ∨ ∃ b, b ∈ l ∧ isStatic (body_of sc0 b) = false ∧ ancestor (body_of sc0 b) = a
             ∧ EvBodyUpdate b dt ∈ (fold_left (spec_body_step isPaused dt) l r).2.
Proof.
  intros Hupd Hcol. induction l as [| b l IH]; intros r Hkind a Hin; simpl in *.
  { by left. }
  assert (∀ b', isStatic (body_of (scene (spec_body_step isPaused dt r b).1) b')
                = isStatic (body_of sc0 b')
                ∧ ancestor (body_of (scene (spec_body_step isPaused dt r b).1) b')
                  = ancestor (body_of sc0 b')) as Hkind'.
  { intros b'. destruct (kind_spec_body_step isPaused dt r b Hupd Hcol b') as [Hs Ha].
    destruct (Hkind b') as [Hs' Ha']. split; congruence. }
  destruct (IH _ Hkind' a Hin) as [Hhere | (b' & Hb' & Hs & Ha & Hu)].
  - destruct (spec_body_step_cases isPaused dt r b) as [Heq | (Hs & seg & Htr & Hseg)].
    { left. by rewrite Heq in Hhere. }
    rewrite Htr in Hhere. apply elem_of_app in Hhere as [Hold | Hnew]; [by left |].
    right. exists b. destruct (Hkind b) as [Hs' Ha'].
    split_and!.
    + by left.
    + congruence.
    + rewrite <- Ha'.
      apply elem_of_app in Hnew as [Hnew | Hnew].
      { apply list_elem_of_In in Hnew. simpl in Hnew.
        destruct Hnew as [? | [? | []]]; discriminate. }
      destruct Hseg as [-> | ->]; apply list_elem_of_In in Hnew; simpl in Hnew.
      * destruct Hnew as [[= <-] | [? | []]]; [done | discriminate].
      * destruct Hnew as [? | [[= <-] | [? | []]]]; [discriminate | done | discriminate].
    + destruct (spec_fold_segments isPaused dt l (spec_body_step isPaused dt r b))
        as (segs & Hall & _).
      rewrite Hall, Htr. apply elem_of_app. left. apply elem_of_app. right.
      apply elem_of_app. left. apply list_elem_of_In. simpl. tauto.
  - right. exists b'. split_and!; [by right | done | done | done].
Qed.

(** C3: a tick on a world whose active bodies are all static calls
    the detector not once: its calls are [clear], [insertContainer]
    and [super.update].  And in the tick of any world, when the
    collaborators leave the set of bodies, the static flags and the
    owners alone, every call of [Detector.collisions] is made for the
    owner of an active body that is not static and that was integrated
    in this tick; with one body for every owner, no static active body
    has that owner.  (The detector tests the entity it is called for
    against its candidates, so that body is one side of every pair.) *)
Theorem static_bodies_never_initiate fuel isPaused dt w :
  length (bodies (scene w)) ≤ fuel →
  ((∀ b, b ∈ JSSet.elements (bodies (scene w)) → isStatic (body_of (scene w) b) = true) →
   ∃ res w',
     update fuel isPaused dt w
     = Some (res, w', [EvQuadTreeClear; EvInsertContainer; EvContainerUpdate dt]))
  ∧ ((∀ b, keeps_bodies (λ sc, (Body_update b dt sc).2)) →
     (∀ a q, keeps_bodies (Detector_collisions a q)) →
     (∀ b, keeps_kind (λ sc, (Body_update b dt sc).2)) →
     (∀ a q, keeps_kind (Detector_collisions a q)) →
     ∃ res w' tr,
       update fuel isPaused dt w = Some (res, w', tr)
       ∧ ∀ a, EvCollisions a ∈ tr →
           (∃ b, b ∈ JSSet.elements (bodies (scene w))
                 ∧ isStatic (body_of (scene w) b) = false
                 ∧ ancestor (body_of (scene w) b) = a
                 ∧ EvBodyUpdate b dt ∈ tr)
           ∧ (one_body_per_owner (scene w) →
              ∀ b', b' ∈ JSSet.elements (bodies (scene w)) →
                    ancestor (body_of (scene w) b') = a →
                    isStatic (body_of (scene w) b') = false)).
Proof.
  intros Hfuel. split.
  - intros Hstatic. unfold update.
    rewrite JSSetFacts.forEach_idle.
    + simpl. by eexists _, _.
    + intros b Hb. simpl in Hb. unfold update_body. simpl.
      by rewrite (Hstatic b Hb).
    + simpl. lia.
  - intros Hupd Hcol Hkupd Hkcol.
    rewrite (update_refines_spec_tick fuel isPaused dt w Hupd Hcol Hfuel).
    destruct (spec_tick isPaused dt w) as [[res w'] tr] eqn:Htick.
    exists res, w', tr. split; [done |].
    intros a Hin.
    assert (∃ b, b ∈ JSSet.elements (bodies (scene w))
                 ∧ isStatic (body_of (scene w) b) = false
                 ∧ ancestor (body_of (scene w) b) = a
                 ∧ EvBodyUpdate b dt ∈ tr) as (b & Hb & Hs & Ha & Hu).
    { unfold spec_tick in Htick. injection Htick as _ _ <-.
      apply elem_of_app in Hin as [Hin | Hin].
      2:{ apply list_elem_of_singleton in Hin. discriminate. }
      apply (fold_collisions isPaused dt (scene w)) in Hin; [| done | done | done].
      destruct Hin as [Hin | (b & Hb & Hs & Ha & Hu)].
      - simpl in Hin. apply list_elem_of_In in Hin. simpl in Hin.
        destruct Hin as [? | [? | []]]; discriminate.
      - exists b. split_and!; try done. apply elem_of_app. by left. }
    split.
    + by exists b.
    + intros Hone b' Hb' Ha'. by rewrite <- (Hone b b' Hb Hb' (eq_trans Ha (eq_sym Ha'))).
Qed.

(** the integrator of the specification writes the velocity of the
    body and the position of its owner, nothing else *)
Lemma Body_update_spec_keeps_bodies b dt : keeps_bodies (λ sc, (Body_update_spec b dt sc).2).
Proof. by intros sc. Qed.


Lemma Body_update_spec_keeps_kind b dt : keeps_kind (λ sc, (Body_update_spec b dt sc).2).
Proof.
  intros sc b'. simpl. destruct (decide (b' = b)) as [-> |].
  - by rewrite upd_eq.
  - by rewrite upd_ne.
Qed.

End Facts.

(** *** The theorems at work on the sample world *)

Section Runs.
Import Sample.

Lemma addBody_unique_witness :
  NoDup (JSSet.elements (bodies (scene world0)))
  ∧ NoDup (JSSet.elements (bodies (scene (addBody 0 world0)))).
Proof.
  split; [apply NoDup_nil_2 |].
  apply (proj1 (proj2 (addBody_unique world0 0))). apply NoDup_nil_2.
Defined.

(** C6 as stated fails: a caller that adds body 7 to the value of
    [world.bodies] has changed the active set of the world. *)
Lemma bodies_accessor_alters_membership :
  ¬ (∀ c : SetCall,
       JSSet.elements (bodies (scene (via_bodies c world0)))
       = JSSet.elements (bodies (scene world0))).
Proof. intros H. specialize (H (CallAdd 7)). discriminate H. Qed.

(** C7 as stated fails: [new World()] has a width and a height of
    [Infinity], and a world made with a [maxChildren] of 0 and a
    [maxDepth] of [NaN] is not refused either; with constructors of
    [Container] and [QuadTree] that do not refuse them, both
    constructions succeed. *)
Lemma World_new_accepts_invalid_configuration :
  valid_configuration default_collision None None None None = false
  ∧ is_Some (World_new store_b store_e default_collision None None None None)
  ∧ valid_configuration {| maxChildren := Finite 0; maxDepth := NotANumber |}
      None None (Some (Finite 800)) (Some (Finite 600)) = false
  ∧ is_Some (World_new store_b store_e {| maxChildren := Finite 0; maxDepth := NotANumber |}
               None None (Some (Finite 800)) (Some (Finite 600))).
Proof. split_and!; [reflexivity | by eexists | reflexivity | by eexists]. Qed.

(** C2 as stated fails: in a world without gravity the force of body
    0, whose scale is 1 and which does not ignore gravity, is
    unchanged. *)
Lemma gravity_noop_without_flag :
  ¬ (gravity_is_noop 0 scene_no_gravity
     ↔ ignoreGravity (body_of scene_no_gravity 0) = true
       ∨ gravityScale (body_of scene_no_gravity 0) == 0).
Proof.
  intros [Hiff _].
  assert (gravity_is_noop 0 scene_no_gravity) as Hnoop by (split; reflexivity).
  destruct (Hiff Hnoop) as [Hi | Hz]; discriminate.
Qed.

Lemma bodyApplyGravity_effect_witness :
  Vec_eq (force (body_of (bodyApplyGravity 0 scene0) 0)) (mkVec 0 (0 + (98 # 100)))
  ∧ y (vel (body_of (Body_update_spec 0 1 (bodyApplyGravity 0 scene0)).2 0))
    == 0 + (98 # 100)
  ∧ bodyApplyGravity 2 scene0 = scene0.
Proof.
  pose proof (bodyApplyGravity_effect 0 scene0) as (_ & _ & Hex).
  pose proof (bodyApplyGravity_effect 2 scene0) as (Hskip & _).
  destruct Hex as [Hf Hv]; [reflexivity | reflexivity | reflexivity | by split |].
  split_and!.
  - exact Hf.
  - apply Hv. by split.
  - apply Hskip. right. reflexivity.
Defined.


Lemma static_bodies_never_initiate_witness :
  (∃ res w', update 2 true 1 two_walls
             = Some (res, w', [EvQuadTreeClear; EvInsertContainer; EvContainerUpdate 1]))
  ∧ (∃ res w' tr,
      update 3 false 1 three_bodies = Some (res, w', tr)
      ∧ ∀ a, EvCollisions a ∈ tr →
          (∃ b, b ∈ JSSet.elements (bodies (scene three_bodies))
                ∧ isStatic (body_of (scene three_bodies) b) = false
                ∧ ancestor (body_of (scene three_bodies) b) = a
                ∧ EvBodyUpdate b 1 ∈ tr)
          ∧ (one_body_per_owner (scene three_bodies) →
             ∀ b', b' ∈ JSSet.elements (bodies (scene three_bodies)) →
                   ancestor (body_of (scene three_bodies) b') = a →
                   isStatic (body_of (scene three_bodies) b') = false))
  ∧ one_body_per_owner (scene three_bodies).
Proof.
  split; [| split].
  - apply (proj1 (static_bodies_never_initiate 2 true 1 two_walls ltac:(simpl; lia))).
    intros b Hb. apply list_elem_of_In in Hb. simpl in Hb.
    destruct Hb as [<- | [<- | []]]; reflexivity.
  - apply (proj2 (static_bodies_never_initiate 3 false 1 three_bodies ltac:(simpl; lia))).
    + intros b sc. reflexivity.
    + intros a q sc. reflexivity.
    + intros b. apply Body_update_spec_keeps_kind.
    + intros a q sc b. split; reflexivity.
  - intros b1 b2 H1 H2 Ha.
    apply list_elem_of_In in H1. apply list_elem_of_In in H2. simpl in H1, H2.
    destruct H1 as [<- | [<- | [<- | []]]]; destruct H2 as [<- | [<- | [<- | []]]];
      try reflexivity; vm_compute in Ha; discriminate Ha.
Defined.

End Runs.
End WorldFacts.

(* ===================================================================== *)
(** ** Properties of the pointer events *)
(* ===================================================================== *)

Module PointerEventFacts.
Import PointerEvent.

Section Facts.
Context {E : Env}.
Implicit Types (s : State) (p : Pointer) (c r : RegionId) (tr evs : list Event)
  (m : gmap RegionId Handlers).

(** *** Traces *)

Lemma quiet_app evs1 evs2 : quiet (evs1 ++ evs2) ↔ quiet evs1 ∧ quiet evs2.
Proof. apply Forall_app. Qed.

Lemma closed_by_false_app evs1 evs2 :
  quiet evs1 → closed_by_false evs2 → closed_by_false (evs1 ++ evs2).
Proof.
  intros H1 [H2 | (pre & e & -> & Hpre & He)].
  - left. by apply quiet_app.
  - right. exists (evs1 ++ pre), e. rewrite app_assoc. split_and!; [done | | done].
    by apply quiet_app.
Qed.

Lemma quiet_no_loud evs pre e post :
  quiet evs → evs = pre ++ e :: post → loud e = true → False.
Proof.
  intros Hq -> He. apply Forall_app in Hq as [_ Hq].
  apply Forall_cons in Hq as [Hq _]. congruence.
Qed.

Lemma closed_by_false_stops evs : closed_by_false evs → stops_at_false evs.
Proof.
  intros [Hq | (pre0 & e0 & -> & Hpre & He0)] pre e post Heq He.
  - exfalso. eapply quiet_no_loud; eauto.
  - destruct post as [| e' post] using rev_ind; [done |]. exfalso.
    clear IHpost.
    assert (pre0 = pre ++ e :: post) as ->.
    { change (pre ++ e :: post ++ [e']) with (pre ++ (e :: post) ++ [e']) in Heq.
      rewrite app_assoc in Heq. by apply app_inj_tail in Heq as [-> _]. }
    eapply quiet_no_loud; eauto.
Qed.

(** *** [triggerEvent] *)

Lemma call_each_spec c t p cbs tr :
  ∃ new,
    (call_each c t p cbs tr).2 = tr ++ new
    ∧ Forall (λ e, ∃ cb, e = EvCallback c t cb p ∧ cb ∈ cbs) new
    ∧ ((call_each c t p cbs tr).1 = false → quiet new)
    ∧ ((call_each c t p cbs tr).1 = true
       → ∃ pre e, new = pre ++ [e] ∧ quiet pre ∧ loud e = true).
Proof.
  revert tr. induction cbs as [| cb cbs IH]; intros tr; simpl.
  - exists []. rewrite app_nil_r. split_and!; [done | done | by intros _; constructor | done].
  - destruct (returns_false cb p) eqn:Hcb; simpl.
    + exists [EvCallback c t cb p]. split_and!; [done | | done |].
      * constructor; [| done]. exists cb. split; [done | by left].
      * intros _. exists [], (EvCallback c t cb p). split_and!; [done | constructor | done].
    + destruct (IH (tr ++ [EvCallback c t cb p])) as (new & Htr & Hall & Hq & Hl).
      exists (EvCallback c t cb p :: new). split_and!.
      * rewrite Htr. by rewrite <- app_assoc.
      * constructor.
        -- exists cb. split; [done | by left].
        -- eapply Forall_impl; [exact Hall |]. intros e (cb' & -> & Hin).
           exists cb'. split; [done | by right].
      * intros Hstop. constructor; [done | by apply Hq].
      * intros Hstop. destruct (Hl Hstop) as (pre & e & -> & Hpre & He).
        exists (EvCallback c t cb p :: pre), e. split_and!; [done | | done].
        by constructor.
Qed.

Lemma same_handlers_refl m : same_handlers m m.
Proof. by intros c. Qed.

Lemma same_handlers_trans m1 m2 m3 :
  same_handlers m1 m2 → same_handlers m2 m3 → same_handlers m1 m3.
Proof. intros H12 H23 c. by rewrite H12. Qed.

Lemma same_handlers_insert m c h i :
  m !! c = Some h → same_handlers m (<[c := set_handlers_pointerId i h]> m).
Proof.
  intros Hc c'. destruct (decide (c' = c)) as [-> |].
  - by rewrite lookup_insert_eq, Hc.
  - by rewrite lookup_insert_ne.
Qed.

Lemma same_handlers_lookup m m' c h :
  same_handlers m m' → m' !! c = Some h →
  ∃ h0, m !! c = Some h0 ∧ region h0 = region h ∧ callbacks h0 = callbacks h.
Proof.
  intros Hsame Hc. specialize (Hsame c). rewrite Hc in Hsame.
  destruct (m !! c) as [h0 |]; [| done].
  exists h0. simpl in Hsame. injection Hsame as Hr Hcb. by split_and!.
Qed.

Lemma same_handlers_None m m' c : same_handlers m m' → m !! c = None → m' !! c = None.
Proof.
  intros Hsame Hc. specialize (Hsame c). rewrite Hc in Hsame.
  by destruct (m' !! c).
Qed.

(** what one call of [triggerEvent] does *)
Lemma triggerEvent_spec c t p i (st : State * list Event) :
  ∃ new,
    (triggerEvent c t p i st).2.2 = st.2 ++ new
    ∧ Forall (λ e, ∃ cb h cbs, e = EvCallback c (key t) cb p
                    ∧ eventHandlers st.1 !! c = Some h
                    ∧ callbacks h !! key t = Some cbs ∧ cb ∈ cbs) new
    ∧ ((triggerEvent c t p i st).1 = false → quiet new)
    ∧ ((triggerEvent c t p i st).1 = true
       → ∃ pre e, new = pre ++ [e] ∧ quiet pre ∧ loud e = true)
    ∧ same_handlers (eventHandlers st.1) (eventHandlers (triggerEvent c t p i st).2.1)
    ∧ lastTimeStamp (triggerEvent c t p i st).2.1 = lastTimeStamp st.1
    ∧ activeEventList (triggerEvent c t p i st).2.1 = activeEventList st.1.
Proof.
  unfold triggerEvent.
  destruct (eventHandlers st.1 !! c) as [h |] eqn:Hc.
  2:{ exists []. rewrite app_nil_r.
      split_and!; try done; try apply same_handlers_refl; intros _; constructor. }
  destruct (callbacks h !! key t) as [cbs |] eqn:Hcbs.
  2:{ exists []. rewrite app_nil_r.
      split_and!; try done; try apply same_handlers_refl; intros _; constructor. }
  destruct (call_each_spec c (key t) p (rev cbs) st.2) as (new & Htr & Hall & Hq & Hl).
  exists new. simpl. split_and!; try done.
  - eapply Forall_impl; [exact Hall |]. intros e (cb & -> & Hin).
    exists cb, h, cbs. split_and!; try done.
    apply list_elem_of_In, in_rev, list_elem_of_In. exact Hin.
  - by apply same_handlers_insert.
Qed.


(** *** What every visit of a candidate keeps *)

Lemma extends_refl st : extends st st.
Proof.
  exists []. rewrite app_nil_r. split_and!; done || apply same_handlers_refl.
Qed.

Lemma same_handlers_is_Some m m' c :
  same_handlers m m' → is_Some (m' !! c) → is_Some (m !! c).
Proof.
  intros Hsame [h Hc]. destruct (same_handlers_lookup m m' c h Hsame Hc) as (h0 & ? & _).
  by exists h0.
Qed.

Lemma extends_trans st1 st2 st3 : extends st1 st2 → extends st2 st3 → extends st1 st3.
Proof.
  intros (new1 & Htr1 & Hall1 & Hs1 & Ht1 & Ha1) (new2 & Htr2 & Hall2 & Hs2 & Ht2 & Ha2).
  exists (new1 ++ new2). split_and!.
  - rewrite Htr2, Htr1. by rewrite app_assoc.
  - apply Forall_app. split; [done |].
    eapply Forall_impl; [exact Hall2 |]. intros e He c Hc.
    eapply same_handlers_is_Some; eauto.
  - by eapply same_handlers_trans.
  - congruence.
  - congruence.
Qed.

Lemma triggerEvent_extends c t p i st : extends st (triggerEvent c t p i st).2.
Proof.
  destruct (triggerEvent_spec c t p i st) as (new & Htr & Hall & _ & _ & Hs & Ht & Ha).
  exists new. split_and!; try done.
  eapply Forall_impl; [exact Hall |].
  intros e (cb & h & cbs & -> & Hc & _) c' [= <-]. by exists h.
Qed.

Lemma visit_candidate_extends c (v : Visit) :
  extends (visit_state v, visit_trace v)
          (visit_state (visit_candidate c v), visit_trace (visit_candidate c v)).
Proof.
  destruct v as [[[p s] tr] handled]. unfold visit_candidate.
  destruct (eventHandlers s !! c) as [h |]; [| apply extends_refl].
  destruct (negb (isKinematic c)); [| apply extends_refl].
  set (p1 := if isFloating (region h) then _ else _).
  set (p2 := match ancestor_bounds (region h) with Some _ => _ | None => _ end).
  destruct (switch (type p2)).
  - set (first := if same_id _ _ && _ then _ else _).
    assert (extends (s, tr) first.2) as Hfirst.
    { subst first. destruct (same_id _ _ && _); [apply triggerEvent_extends |].
      destruct (bool_decide _ && _); [apply triggerEvent_extends | apply extends_refl]. }
    destruct first.1; [by destruct first as [? [? ?]] |].
    destruct (bounds_contains _ _ _).
    + eapply extends_trans; [exact Hfirst |].
      pose proof (triggerEvent_extends c (type p2) p2 (Some (pointerId p2)) first.2) as H.
      by destruct (triggerEvent _ _ _ _ _) as [? [? ?]].
    + by destruct first as [? [? ?]].
  - destruct (same_id _ _ && _); [| apply extends_refl].
    pose proof (triggerEvent_extends c (type p2) p2 None (s, tr)) as H.
    by destruct (triggerEvent _ _ _ _ _) as [? [? ?]].
  - destruct (same_id _ _); [| apply extends_refl].
    pose proof (triggerEvent_extends c (type p2) p2 None (s, tr)) as H.
    by destruct (triggerEvent _ _ _ _ _) as [? [? ?]].
  - destruct (bounds_contains _ _ _); [| apply extends_refl].
    pose proof (triggerEvent_extends c (type p2) p2 (Some (pointerId p2)) (s, tr)) as H.
    by destruct (triggerEvent _ _ _ _ _) as [? [? ?]].
Qed.

Lemma visit_extends candidates : ∀ v : Visit,
  extends (visit_state v, visit_trace v)
          (visit_state (visit candidates v), visit_trace (visit candidates v)).
Proof.
  induction candidates as [| c rest IH]; intros v; simpl; [apply extends_refl |].
  destruct (visit_handled (visit_candidate c v)).
  - apply visit_candidate_extends.
  - eapply extends_trans; [apply visit_candidate_extends | apply IH].
Qed.

(** *** A [pointerdown] or a [wheel] *)

Lemma down_or_wheel_default t :
  t ∈ POINTER_DOWN ++ WHEEL → switch (Some t) = DefaultCase ∧ is_in POINTER_MOVE (Some t) = false.
Proof.
  intros Ht. apply list_elem_of_In in Ht. simpl in Ht.
  destruct Ht as [<- | [<- | [<- | [<- | []]]]]; by vm_compute.
Qed.

Lemma in_bounds_call_mono m (l l' : list RegionId) p t e :
  (∀ c, c ∈ l → c ∈ l') → in_bounds_call m l p t e → in_bounds_call m l' p t e.
Proof.
  intros Hsub (c & cb & p' & h & cbs & He & Hc & Hrest).
  exists c, cb, p', h, cbs. split; [done |]. split; [by apply Hsub | exact Hrest].
Qed.

Lemma same_event_set_game p p0 gx gy : same_event p p0 → same_event (set_game gx gy p) p0.
Proof. by intros (? & ? & ? & ? & ?). Qed.

Lemma same_event_set_gameLocal p p0 lx ly :
  same_event p p0 → same_event (set_gameLocal lx ly p) p0.
Proof. by intros (? & ? & ? & ? & ?). Qed.

(** the candidate is passed over *)
Ltac nothing_called :=
  exists []; rewrite app_nil_r;
  split_and!; [done | constructor | constructor | left; split; [done | constructor]
              | done | done].

Lemma visit_candidate_default c p s tr handled p0 t m0 :
  same_event p p0 → type p0 = Some t → switch (Some t) = DefaultCase →
  same_handlers m0 (eventHandlers s) →
  ∃ new,
    visit_trace (visit_candidate c (p, s, tr, handled)) = tr ++ new
    ∧ Forall (in_bounds_call m0 [c] p0 t) new
    ∧ Forall (λ e, candidate_of e = Some c) new
    ∧ ((visit_handled (visit_candidate c (p, s, tr, handled)) = handled ∧ quiet new)
       ∨ (visit_handled (visit_candidate c (p, s, tr, handled)) = true
          ∧ ∃ pre e, new = pre ++ [e] ∧ quiet pre ∧ loud e = true))
    ∧ same_event (visit_candidate c (p, s, tr, handled)).1.1.1 p0
    ∧ same_handlers m0 (eventHandlers (visit_state (visit_candidate c (p, s, tr, handled)))).
Proof.
  intros Hp Ht Hsw Hm0.
  unfold visit_candidate.
  destruct (eventHandlers s !! c) as [h |] eqn:Hc.
  2:{ nothing_called. }
  destruct (isKinematic c) eqn:Hkin; simpl.
  { nothing_called. }
  set (p1 := if isFloating (region h) then _ else _).
  set (p2 := match ancestor_bounds (region h) with Some _ => _ | None => _ end).
  assert (same_event p1 p0) as Hp1.
  { subst p1. destruct (isFloating _); by apply same_event_set_game. }
  assert (gameX p1 = (if isFloating (region h) then gameScreenX p0 else gameWorldX p0)
          ∧ gameY p1 = (if isFloating (region h) then gameScreenY p0 else gameWorldY p0))
    as [Hx1 Hy1].
  { destruct Hp as (_ & ? & ? & ? & ?). subst p1.
    destruct (isFloating _); simpl; by split. }
  assert (same_event p2 p0 ∧ gameX p2 = gameX p1 ∧ gameY p2 = gameY p1) as (Hp2 & Hx2 & Hy2).
  { subst p2. destruct (ancestor_bounds _) as [[bx by_] |]; [| done].
    split; [by apply same_event_set_gameLocal | done]. }
  assert (type p2 = Some t) as Ht2.
  { destruct Hp2 as [-> _]. done. }
  rewrite Ht2, Hsw.
  destruct (bounds_contains (region h) (gameX p2) (gameY p2)) eqn:Hin.
  2:{ nothing_called. }
  destruct (triggerEvent_spec c (Some t) p2 (Some (pointerId p2)) (s, tr))
    as (new & Htr & Hall & Hq & Hl & Hs & _).
  destruct (same_handlers_lookup m0 (eventHandlers s) c h Hm0 Hc) as (h0 & Hc0 & Hr0 & Hcb0).
  exists new. simpl in *. split_and!.
  - exact Htr.
  - eapply Forall_impl; [exact Hall |].
    intros e (cb & h' & cbs & -> & Hc' & Hcbs & Hcb).
    assert (h' = h) as -> by congruence.
    exists c, cb, p2, h0, cbs. rewrite Hr0, Hcb0, Hx2, Hy2, Hx1, Hy1.
    split_and!; try done.
    + by apply list_elem_of_singleton.
    + by rewrite <- Hx1, <- Hy1, <- Hx2, <- Hy2.
  - eapply Forall_impl; [exact Hall |]. by intros e (cb & h' & cbs & -> & _).
  - destruct (triggerEvent c (Some t) p2 (Some (pointerId p2)) (s, tr)).1 eqn:Hstop.
    + right. split; [by rewrite orb_true_r | by apply Hl].
    + left. split; [by rewrite orb_false_r | by apply Hq].
  - exact Hp2.
  - by eapply same_handlers_trans.
Qed.

Lemma visit_default candidates : ∀ p s tr handled p0 t m0,
  same_event p p0 → type p0 = Some t → switch (Some t) = DefaultCase →
  same_handlers m0 (eventHandlers s) →
  ∃ new visited,
    visit_trace (visit candidates (p, s, tr, handled)) = tr ++ new
    ∧ Forall (in_bounds_call m0 candidates p0 t) new
    ∧ visited `prefix_of` candidates
    ∧ in_order visited new
    ∧ closed_by_false new
    ∧ (handled = false → visit_handled (visit candidates (p, s, tr, handled)) = false
       → quiet new).
Proof.
  induction candidates as [| c rest IH]; intros p s tr handled p0 t m0 Hp Ht Hsw Hm0.
  { exists [], []. simpl. rewrite app_nil_r.
    split_and!; try done.
    - by exists [].
    - left. constructor.
    - intros _ _. constructor. }
  cbn [visit].
  destruct (visit_candidate_default c p s tr handled p0 t m0 Hp Ht Hsw Hm0)
    as (new1 & Htr1 & Hall1 & Hcand1 & Hstop1 & Hp1 & Hm1).
  destruct (visit_candidate c (p, s, tr, handled)) as [[[p1 s1] tr1] h1] eqn:Hv1.
  unfold visit_trace, visit_handled, visit_state in Htr1, Hstop1, Hp1, Hm1.
  cbn [fst snd] in Htr1, Hstop1, Hp1, Hm1. subst tr1.
  unfold visit_handled at 1. cbn [snd].
  destruct h1.
  - exists new1, [c]. split_and!.
    + done.
    + eapply Forall_impl; [exact Hall1 |]. intros e.
      apply in_bounds_call_mono. intros c' ->%list_elem_of_singleton. by left.
    + by exists rest.
    + exists [new1]. cbn [concat]. rewrite app_nil_r. split; [done |]. by repeat constructor.
    + destruct Hstop1 as [[_ Hq] | (_ & pre & e & Hrest)]; [by left | right; eauto].
    + done.
  - destruct Hstop1 as [[<- Hq1] | [? _]]; [| done].
    destruct (IH p1 s1 (tr ++ new1) false p0 t m0 Hp1 Ht Hsw Hm1)
      as (new2 & visited2 & Htr2 & Hall2 & Hpre2 & Hord2 & Hcl2 & Hq2).
    exists (new1 ++ new2), (c :: visited2). split_and!.
    + rewrite Htr2. by rewrite app_assoc.
    + apply Forall_app. split.
      * eapply Forall_impl; [exact Hall1 |]. intros e.
        apply in_bounds_call_mono. intros c' ->%list_elem_of_singleton. by left.
      * eapply Forall_impl; [exact Hall2 |]. intros e.
        apply in_bounds_call_mono. intros c' Hc'. by right.
    + destruct Hpre2 as [k ->]. by exists k.
    + destruct Hord2 as (segs & -> & Hsegs). exists (new1 :: segs). split; [done |].
      by constructor.
    + by apply closed_by_false_app.
    + intros _ Hh. apply quiet_app. split; [done |]. by apply Hq2.
Qed.

Lemma eventHandlers_before_visit p s :
  eventHandlers
    (set_currentPointer (pointer_rect p)
       match isNormalized p, timeStamp p with
       | true, Some t => set_lastTimeStamp t (push_T_POINTERS p s)
       | _, _ => push_T_POINTERS p s
       end)
  = eventHandlers s.
Proof. by destruct (isNormalized p), (timeStamp p). Qed.

(** C8, as the code has it: when a [pointerdown] or a [wheel] is
    dispatched, every callback that is called was registered for that
    type on a candidate with handlers that is not kinematic, and is
    handed a pointer whose game coordinates lie within the bounds of
    the region; the candidates are the regions that the quadtree
    retrieves for the rectangle of the pointer with the comparator
    [_sortReverseZ], and the viewport of the game, which is added at
    the end of that array; the array is walked from its end, so the
    viewport comes first; and once a callback has returned [false]
    nothing more is called for that event. *)
Theorem dispatch_calls_regions_in_bounds p s tr handled t :
  type p = Some t → t ∈ POINTER_DOWN ++ WHEEL →
  ∃ new visited,
    (dispatch_pointer p (s, tr, handled)).1.2 = tr ++ new
    ∧ Forall (in_bounds_call (eventHandlers s) (candidates_of p) p t) new
    ∧ visited `prefix_of` (viewport :: rev (retrieve (pointer_rect p) sortReverseZ))
    ∧ in_order visited new
    ∧ stops_at_false new.
Proof.
  intros Ht Hin. destruct (down_or_wheel_default t Hin) as [Hsw Hmove].
  unfold dispatch_pointer.
  destruct (stale p (push_T_POINTERS p s)).
  { exists [], []. rewrite app_nil_r. split_and!; try done.
    - apply prefix_nil.
    - by exists [].
    - intros pre e post Heq. by destruct pre. }
  rewrite Ht, Hmove.
  destruct (visit_default (rev (candidates_of p)) p
              (set_currentPointer (pointer_rect p)
                 match isNormalized p, timeStamp p with
                 | true, Some t => set_lastTimeStamp t (push_T_POINTERS p s)
                 | _, _ => push_T_POINTERS p s
                 end)
              tr handled p t (eventHandlers s))
    as (new & visited & Htr & Hall & Hpre & Hord & Hcl & _).
  - done.
  - done.
  - done.
  - rewrite eventHandlers_before_visit. apply same_handlers_refl.
  - exists new, visited. split_and!.
    + exact Htr.
    + eapply Forall_impl; [exact Hall |]. intros e.
      apply in_bounds_call_mono. intros c Hc.
      apply list_elem_of_In, in_rev, list_elem_of_In. exact Hc.
    + unfold candidates_of in Hpre. by rewrite rev_unit in Hpre.
    + done.
    + by apply closed_by_false_stops.
Qed.

(** *** Stale events *)

Lemma older_spec t last : older t last = true ↔ (t < last)%Q.
Proof.
  unfold older. rewrite negb_true_iff. split.
  - intros Hle. apply Qnot_le_lt. intros H%Qle_bool_iff. congruence.
  - intros Hlt. destruct (Qle_bool last t) eqn:Hle; [| done].
    apply Qle_bool_iff in Hle. by apply Qlt_not_le in Hlt.
Qed.

(** an event that carries the flag [isNormalized] and whose time stamp
    is below [lastTimeStamp] is put back into the pool and nothing
    else happens: no callback, no [POINTERMOVE], no change of
    [handled] or of the handlers; a batch that ends with it is the
    batch without it.  A flagged event that is not below becomes the
    last one dispatched. *)
Lemma flagged_stale_event_is_skipped p s tr handled t :
  isNormalized p = true → timeStamp p = Some t →
  ((t < lastTimeStamp s)%Q →
     dispatch_pointer p (s, tr, handled) = (push_T_POINTERS p s, tr, handled)
     ∧ ∀ batch : list Pointer,
         dispatchEvent (batch ++ [p]) s = dispatchEvent batch (push_T_POINTERS p s))
  ∧ (¬ (t < lastTimeStamp s)%Q →
     lastTimeStamp (dispatch_pointer p (s, tr, handled)).1.1 = t).
Proof.
  intros Hn Ht. split.
  - intros Hlt.
    assert (stale p (push_T_POINTERS p s) = true) as Hstale.
    { unfold stale. rewrite Hn, Ht. simpl. by apply older_spec. }
    assert (∀ tr handled,
              dispatch_pointer p (s, tr, handled) = (push_T_POINTERS p s, tr, handled))
      as Hskip.
    { intros tr' handled'. unfold dispatch_pointer. by rewrite Hstale. }
    split; [apply Hskip |].
    intros batch. unfold dispatchEvent. rewrite rev_unit. cbn [fold_left].
    by rewrite Hskip.
  - intros Hnlt.
    assert (stale p (push_T_POINTERS p s) = false) as Hstale.
    { unfold stale. rewrite Hn, Ht. simpl.
      destruct (older t (lastTimeStamp s)) eqn:Ho; [| done].
      by apply older_spec in Ho. }
    unfold dispatch_pointer. rewrite Hstale, Hn, Ht.
    destruct (is_in POINTER_MOVE (type p)).
    all: match goal with
         | |- context [visit ?l ?v] =>
             destruct (visit_extends l v) as (_ & _ & _ & _ & Hts & _)
         end; cbn [fst snd] in *; unfold visit_state in *; cbn [fst snd] in *;
         by rewrite Hts.
Qed.

(** *** Only candidates with handlers are called *)

Lemma dispatch_pointer_calls p (d : Dispatch) :
  ∃ new,
    (dispatch_pointer p d).1.2 = d.1.2 ++ new
    ∧ Forall (λ e, ∀ c, candidate_of e = Some c → is_Some (eventHandlers d.1.1 !! c)) new
    ∧ same_handlers (eventHandlers d.1.1) (eventHandlers (dispatch_pointer p d).1.1).
Proof.
  destruct d as [[s tr] handled]. unfold dispatch_pointer. cbn [fst snd].
  destruct (stale p (push_T_POINTERS p s)).
  { exists []. rewrite app_nil_r. split_and!; [done | constructor | apply same_handlers_refl]. }
  destruct (is_in POINTER_MOVE (type p)).
  - match goal with
    | |- context [visit ?l ?v] =>
        destruct (visit_extends l v) as (new & Htr & Hall & Hs & _)
    end.
    unfold visit_state, visit_trace in *. cbn [fst snd] in *.
    rewrite eventHandlers_before_visit in Hall, Hs.
    exists (EvPointerMove (set_game (gameScreenX p) (gameScreenY p) p) :: new).
    split_and!.
    + rewrite Htr. by rewrite <- app_assoc.
    + constructor; [by intros c | done].
    + done.
  - match goal with
    | |- context [visit ?l ?v] =>
        destruct (visit_extends l v) as (new & Htr & Hall & Hs & _)
    end.
    unfold visit_state, visit_trace in *. cbn [fst snd] in *.
    rewrite eventHandlers_before_visit in Hall, Hs.
    by exists new.
Qed.

Lemma dispatch_fold_calls (l : list Pointer) : ∀ d : Dispatch,
  ∃ new,
    (fold_left (λ d p, dispatch_pointer p d) l d).1.2 = d.1.2 ++ new
    ∧ Forall (λ e, ∀ c, candidate_of e = Some c → is_Some (eventHandlers d.1.1 !! c)) new.
Proof.
  induction l as [| p l IH]; intros d; cbn [fold_left].
  { exists []. rewrite app_nil_r. split; [done | constructor]. }
  destruct (dispatch_pointer_calls p d) as (new1 & Htr1 & Hall1 & Hs1).
  destruct (IH (dispatch_pointer p d)) as (new2 & Htr2 & Hall2).
  exists (new1 ++ new2). split.
  - rewrite Htr2, Htr1. by rewrite app_assoc.
  - apply Forall_app. split; [done |].
    eapply Forall_impl; [exact Hall2 |]. intros e He c Hc.
    eapply same_handlers_is_Some; eauto.
Qed.

Lemma dispatchEvent_calls (batch : list Pointer) s :
  Forall (λ e, ∀ c, candidate_of e = Some c → is_Some (eventHandlers s !! c))
         (dispatchEvent batch s).2.
Proof.
  unfold dispatchEvent. cbn [snd].
  destruct (dispatch_fold_calls (rev batch) (s, [], false)) as (new & Htr & Hall).
  cbn [fst snd] in Htr. rewrite Htr. done.
Qed.

(** *** Registration *)

Lemma release_type_all (cbs : gmap string (list Callback)) t :
  release_type None cbs t = delete t cbs.
Proof.
  unfold release_type. destruct (cbs !! t) eqn:Ht; [done |].
  by rewrite delete_id.
Qed.

Lemma dom_register_fold cb (ts : list string) : ∀ cbs : gmap string (list Callback),
  dom (fold_left (register_type cb) ts cbs) = dom cbs ∪ list_to_set ts.
Proof.
  induction ts as [| t ts IH]; intros cbs; cbn [fold_left list_to_set].
  { by rewrite union_empty_r_L. }
  rewrite IH. unfold register_type.
  destruct (cbs !! t); rewrite dom_insert_L; apply set_eq; intros k;
    rewrite !elem_of_union; tauto.
Qed.

Lemma dom_release_fold (ts : list string) : ∀ cbs : gmap string (list Callback),
  dom (fold_left (release_type None) ts cbs) = dom cbs ∖ list_to_set ts.
Proof.
  induction ts as [| t ts IH]; intros cbs; cbn [fold_left list_to_set].
  { by rewrite difference_empty_L. }
  rewrite IH, release_type_all, dom_delete_L. apply set_eq. intros k.
  rewrite !elem_of_difference, elem_of_union. tauto.
Qed.

Lemma release_after_register cb (ts : list string) :
  fold_left (release_type None) ts (fold_left (register_type cb) ts ∅) = ∅.
Proof.
  apply (dom_empty_iff_L (D := gset string)).
  rewrite dom_release_fold, dom_register_fold. apply set_eq. intros k.
  rewrite elem_of_difference, elem_of_union, dom_empty_L, !elem_of_empty. tauto.
Qed.

Lemma eventHandlers_enable s : eventHandlers (enablePointerEvent s) = eventHandlers s.
Proof. unfold enablePointerEvent. by destruct (pointerInitialized s). Qed.

Lemma set_eventHandlers_id s : set_eventHandlers (eventHandlers s) s = s.
Proof. by destruct s. Qed.

(** C10: registering a callback on a region that has no handlers and
    then releasing the same type of event on that region leaves no
    entry for the region in [eventHandlers]; the state is the one from
    before, but for the initialisation of the module; no later
    dispatch calls anything on that region; and registering throws for
    a type that is not in [pointerEventList] and for an undefined
    region. *)
Theorem register_release_round_trip s eventType region cb :
  (eventType ∈ pointerEventList → eventHandlers s !! region = None →
     (∃ s1, registerPointerEvent eventType (Some region) cb s = Ok s1
            ∧ is_Some (eventHandlers s1 !! region))
     ∧ register_then_release eventType region cb s = Ok (enablePointerEvent s)
     ∧ eventHandlers (enablePointerEvent s) !! region = None
     ∧ ∀ batch : list Pointer,
         Forall (λ e, candidate_of e ≠ Some region)
                (dispatchEvent batch (enablePointerEvent s)).2)
  ∧ (eventType ∉ pointerEventList →
     ∀ target, registerPointerEvent eventType target cb s
               = Throw ("invalid event type : " +:+ eventType) (enablePointerEvent s))
  ∧ (eventType ∈ pointerEventList →
     registerPointerEvent eventType None cb s
     = Throw "registerPointerEvent: region for [object Undefined] event is undefined "
         (enablePointerEvent s)).
Proof.
  split_and!.
  - intros Htype Hfree.
    assert (eventHandlers (enablePointerEvent s) !! region = None) as Hfree'.
    { by rewrite eventHandlers_enable. }
    assert (bool_decide (eventType ∈ pointerEventList) = true) as Hvalid.
    { by apply bool_decide_eq_true. }
    unfold register_then_release, registerPointerEvent.
    rewrite Hvalid, Hfree'. cbn [negb]. rewrite lookup_insert_eq.
    split_and!.
    + eexists. split; [reflexivity |]. cbn [eventHandlers set_eventHandlers].
      rewrite lookup_insert_eq. by eexists.
    + unfold releasePointerEvent. rewrite Hvalid. cbn [negb].
      cbn [eventHandlers set_eventHandlers activeEventList callbacks set_callbacks].
      rewrite lookup_insert_eq. cbn [callbacks set_callbacks].
      rewrite release_after_register, map_size_empty.
      rewrite bool_decide_eq_true_2 by done.
      rewrite insert_insert_eq, delete_insert_eq, (delete_id _ _ Hfree').
      f_equal. destruct (enablePointerEvent s). done.
    + done.
    + intros batch. eapply Forall_impl; [apply dispatchEvent_calls |].
      intros e He Hc. specialize (He region Hc). rewrite Hfree' in He.
      by destruct He.
  - intros Htype target. unfold registerPointerEvent.
    by rewrite bool_decide_eq_false_2.
  - intros Htype. unfold registerPointerEvent.
    by rewrite bool_decide_eq_true_2.
Qed.
End Facts.

(** *** The theorems at work on the sample game *)

Section Runs.
Import Sample.

(** C8 as stated fails: the quadtree retrieves nothing at (5, 5), and
    yet the callback registered on the viewport is called. *)
Lemma viewport_is_called_without_retrieve :
  ¬ Forall (λ e, ∀ c, candidate_of e = Some c
                      → c ∈ retrieve (pointer_rect (pointerdown 5 5)) sortReverseZ)
           (dispatchEvent [pointerdown 5 5] viewport_registered).2.
Proof.
  intros Hall.
  assert (∃ p', (dispatchEvent [pointerdown 5 5] viewport_registered).2
                = [EvCallback 0 "pointerdown" 7 p']) as [p' Htr].
  { eexists. vm_compute. reflexivity. }
  rewrite Htr in Hall. apply Forall_cons in Hall as [Hc _].
  specialize (Hc 0 eq_refl). vm_compute in Hc. by apply elem_of_nil in Hc.
Qed.

Lemma dispatch_calls_regions_in_bounds_witness :
  ∃ new visited,
    (dispatch_pointer (pointerdown 25 5) (three_regions, [], false)).1.2 = [] ++ new
    ∧ Forall (in_bounds_call (eventHandlers three_regions)
                (candidates_of (pointerdown 25 5)) (pointerdown 25 5) "pointerdown") new
    ∧ visited `prefix_of`
        (viewport :: rev (retrieve (pointer_rect (pointerdown 25 5)) sortReverseZ))
    ∧ in_order visited new
    ∧ stops_at_false new.
Proof.
  apply (dispatch_calls_regions_in_bounds (pointerdown 25 5) three_regions [] false
           "pointerdown").
  - reflexivity.
  - by left.
Defined.

Lemma flagged_stale_event_is_skipped_run :
  (dispatch_pointer (touchstart 5 5 50) (after_touch, [], false)
   = (push_T_POINTERS (touchstart 5 5 50) after_touch, [], false)
   ∧ ∀ batch : list Pointer,
       dispatchEvent (batch ++ [touchstart 5 5 50]) after_touch
       = dispatchEvent batch (push_T_POINTERS (touchstart 5 5 50) after_touch))
  ∧ lastTimeStamp (dispatch_pointer (touchstart 5 5 150) (after_touch, [], false)).1.1
    = 150%Q.
Proof.
  split.
  - apply (proj1 (flagged_stale_event_is_skipped (touchstart 5 5 50) after_touch [] false 50
                    eq_refl eq_refl)).
    vm_compute. reflexivity.
  - apply (proj2 (flagged_stale_event_is_skipped (touchstart 5 5 150) after_touch [] false 150
                    eq_refl eq_refl)).
    intros Hlt. vm_compute in Hlt. discriminate Hlt.
Defined.

Lemma register_release_round_trip_witness :
  ((∃ s1, registerPointerEvent "pointerdown" (Some 4) 7 three_regions = Ok s1
          ∧ is_Some (eventHandlers s1 !! 4))
   ∧ register_then_release "pointerdown" 4 7 three_regions
     = Ok (enablePointerEvent three_regions)
   ∧ eventHandlers (enablePointerEvent three_regions) !! 4 = None
   ∧ ∀ batch : list Pointer,
       Forall (λ e, candidate_of e ≠ Some 4)
              (dispatchEvent batch (enablePointerEvent three_regions)).2)
  ∧ (∀ target, registerPointerEvent "click" target 7 three_regions
               = Throw ("invalid event type : " +:+ "click")
                   (enablePointerEvent three_regions))
  ∧ registerPointerEvent "pointerdown" None 7 three_regions
    = Throw "registerPointerEvent: region for [object Undefined] event is undefined "
        (enablePointerEvent three_regions).
Proof.
  pose proof (register_release_round_trip three_regions "pointerdown" 4 7)
    as (Hround & _ & Hundef).
  pose proof (register_release_round_trip three_regions "click" 4 7)
    as (_ & Hinvalid & _).
  split; [| split].
  - apply Hround.
    + apply (bool_decide_unpack _). vm_compute. exact I.
    + vm_compute. reflexivity.
  - apply Hinvalid. intros Hin. apply (bool_decide_pack _) in Hin.
    vm_compute in Hin. exact Hin.
  - apply Hundef. apply (bool_decide_unpack _). vm_compute. exact I.
Defined.

(** at (25, 5) the viewport is asked first, then region 2, whose last
    callback registered is called first; callback 5 returns [false] *)
Example dispatch_order :
  (let '(handled, _, tr) := dispatchEvent [pointerdown 25 5] three_regions in
   (handled, omap (λ e, match e with EvCallback c _ cb _ => Some (c, cb) | _ => None end) tr))
  = (true, [(0, 9); (2, 8); (2, 5)]).
Proof. vm_compute. reflexivity. Qed.

(** [handled] is declared once for the whole batch: after the event at
    (25, 5), popped first, the event at (15, 5) reaches the viewport and
    not region 1, which it would reach when dispatched alone *)
Example handled_is_kept_across_a_batch :
  (let '(_, _, tr) := dispatchEvent [pointerdown 15 5; pointerdown 25 5] three_regions in
   omap (λ e, match e with EvCallback c _ cb _ => Some (c, cb) | _ => None end) tr)
  = [(0, 9); (2, 8); (2, 5); (0, 9)]
  ∧ (let '(_, _, tr) := dispatchEvent [pointerdown 15 5] three_regions in
     omap (λ e, match e with EvCallback c _ cb _ => Some (c, cb) | _ => None end) tr)
    = [(0, 9); (1, 7)].
Proof. split; vm_compute; reflexivity. Qed.

End Runs.

(** *** Touch events on a device without [PointerEvent] *)

Section TouchRuns.
Import PointerObject TouchDevice.

(** C9: on a device that has touch events and no [PointerEvent], the
    only one on which touch events are listened to, a stale touch is
    dispatched.  [setEvent] leaves [isNormalized] false for a touch
    there, although a touch is no pointer event: with callback 7
    registered on the viewport for [pointerdown], a [touchstart]
    stamped 100 and then one stamped 50 are both dispatched, each
    calls callback 7, and [lastTimeStamp] is 0 before and after. *)
Theorem stale_touch_is_dispatched :
  ∃ first second,
    press 100 = Some first ∧ press 50 = Some second
    ∧ is_PointerEvent (touch_at 50) = false ∧ isNormalized second = false
    ∧ timeStamp first = Some 100%Q ∧ timeStamp second = Some 50%Q
    ∧ let s1 := (dispatchEvent [first] registered).1.2 in
      "touchstart" ∈ activeEventList registered
      ∧ (∃ p, (dispatchEvent [first] registered).2 = [EvCallback 0 "touchstart" 7 p]
              ∧ timeStamp p = Some 100%Q)
      ∧ (∃ p, (dispatchEvent [second] s1).2 = [EvCallback 0 "touchstart" 7 p]
              ∧ timeStamp p = Some 50%Q)
      ∧ lastTimeStamp s1 = 0%Q
      ∧ lastTimeStamp (dispatchEvent [second] s1).1.2 = 0%Q.
Proof.
  eexists _, _. do 6 (split; [reflexivity |]). intros s1. split_and!.
  - apply (bool_decide_unpack _). vm_compute. exact I.
  - eexists. split; [vm_compute; reflexivity | reflexivity].
  - eexists. split; [vm_compute; reflexivity | reflexivity].
  - reflexivity.
  - vm_compute. reflexivity.
Qed.

End TouchRuns.
End PointerEventFacts.

(* ===================================================================== *)
(** ** More on the set of bodies and on the tick *)
(* ===================================================================== *)

Module JSSetMore.
Import JSSet.

Section Facts.
Context {A : Type} `{EqDecision A}.
Implicit Types (s : t A) (x y : A).

Lemma elements_delete x s :
  elements (delete x s) = filter (λ y, y ≠ x) (elements s).
Proof.
  unfold elements, delete. induction s as [| e s IH]; [done |].
  cbn [fmap list_fmap omap list_omap]. destruct (decide (e = Some x)) as [-> | Hne].
  - simpl. rewrite filter_cons_False by (intros H'; by apply H'). exact IH.
  - destruct e as [y |]; simpl; [| exact IH].
    rewrite filter_cons_True by congruence. f_equal. exact IH.
Qed.

Lemma has_delete x s : has x (delete x s) = false.
Proof.
  destruct (has x (delete x s)) eqn:Hx; [| done].
  apply JSSetFacts.has_true in Hx. by apply JSSetFacts.not_elem_of_delete in Hx.
Qed.

Lemma delete_idempotent x s : delete x (delete x s) = delete x s.
Proof.
  unfold delete. rewrite <- list_fmap_compose. apply list_fmap_ext.
  intros i e _. simpl. destruct (decide (e = Some x)) as [-> | Hne].
  - by destruct (decide (None = Some x)).
  - by destruct (decide (e = Some x)).
Qed.

Lemma filter_absent x (l : list A) : x ∉ l → filter (λ y, y ≠ x) l = l.
Proof.
  induction l as [| y l IH]; intros Hx; [done |].
  apply not_elem_of_cons in Hx as [Hne Hx].
  rewrite filter_cons_True by congruence. f_equal. by apply IH.
Qed.

End Facts.
End JSSetMore.

Module WorldMoreFacts.
Import World WorldMore.

Section Facts.
Context {T : Types} {C : Collaborators}.
Implicit Types (w : World) (sc : Scene) (r : Run) (b : BodyId) (a : EntityId).

(** X1: a body that is removed and then added again is iterated last:
    the other bodies keep their places in the order of [update]. *)
Theorem readd_goes_last w b :
  JSSet.elements (bodies (scene (addBody b (removeBody b w))))
  = filter (λ x, x ≠ b) (JSSet.elements (bodies (scene w))) ++ [b].
Proof.
  simpl. rewrite JSSetFacts.elements_add_new by apply JSSetMore.has_delete.
  by rewrite JSSetMore.elements_delete.
Qed.

Lemma has_delete_other (s : JSSet.t BodyId) (x y : BodyId) :
  x ≠ y → JSSet.has x (JSSet.delete y s) = JSSet.has x s.
Proof.
  intros Hne. destruct (JSSet.has x s) eqn:Hx.
  - apply JSSetFacts.has_true. apply JSSetFacts.elem_of_delete.
    split; [done | by apply JSSetFacts.has_true].
  - destruct (JSSet.has x (JSSet.delete y s)) eqn:Hx'; [| done].
    apply JSSetFacts.has_true, JSSetFacts.elem_of_delete in Hx' as [_ Hx'].
    apply JSSetFacts.has_true in Hx'. congruence.
Qed.

(** X2: [removeBody] takes out that body and nothing else, keeps the
    order of the others, does nothing to a world that does not hold the
    body, is idempotent, and commutes with the addition of another
    body. *)
Theorem removeBody_removes_that_body_only w b :
  JSSet.elements (bodies (scene (removeBody b w)))
  = filter (λ x, x ≠ b) (JSSet.elements (bodies (scene w)))
  ∧ (b ∉ JSSet.elements (bodies (scene w)) →
     JSSet.elements (bodies (scene (removeBody b w))) = JSSet.elements (bodies (scene w)))
  ∧ removeBody b (removeBody b w) = removeBody b w
  ∧ ∀ b', b' ≠ b →
      JSSet.elements (bodies (scene (removeBody b (addBody b' w))))
      = JSSet.elements (bodies (scene (addBody b' (removeBody b w)))).
Proof.
  split_and!.
  - simpl. apply JSSetMore.elements_delete.
  - intros Hb. simpl. rewrite JSSetMore.elements_delete. by apply JSSetMore.filter_absent.
  - unfold removeBody. simpl. by rewrite JSSetMore.delete_idempotent.
  - intros b' Hne. simpl. rewrite JSSetMore.elements_delete.
    destruct (JSSet.has b' (bodies (scene w))) eqn:Hb'.
    + rewrite !JSSetFacts.elements_add_old; [| by rewrite has_delete_other | done].
      by rewrite JSSetMore.elements_delete.
    + rewrite !JSSetFacts.elements_add_new; [| by rewrite has_delete_other | done].
      rewrite filter_app, JSSetMore.elements_delete. f_equal.
      by rewrite filter_cons_True, filter_nil.
Qed.

Lemma passed_over_step isPaused dt r b :
  passed_over isPaused (scene r.1) b = true → update_body isPaused dt b r = r.
Proof.
  intros Hp. rewrite WorldFacts.update_body_spec. unfold spec_body_step.
  unfold passed_over in Hp.
  destruct (isStatic (body_of (scene r.1) b)); [done |].
  simpl in Hp. by rewrite Hp.
Qed.

(** X3: when the loop passes over every active body (each is static, or
    the game is paused and its owner is not exempt, or its owner is out
    of the viewport and not always updated) the tick rebuilds the
    quadtree, calls [super.update] on the scene as it was, and does
    nothing else: no gravity, no integration, no collision test, no
    reset of a force. *)
Theorem idle_tick fuel isPaused dt w :
  length (bodies (scene w)) ≤ fuel →
  (∀ b, b ∈ JSSet.elements (bodies (scene w)) → passed_over isPaused (scene w) b = true) →
  update fuel isPaused dt w
  = Some ((Container_update dt (scene w)).1,
          {| scene := (Container_update dt (scene w)).2;
             broadphase := QuadTree_insertContainer (scene w)
                             (QuadTree_clear None (broadphase w)) |},
          [EvQuadTreeClear; EvInsertContainer; EvContainerUpdate dt]).
Proof.
  intros Hfuel Hidle. unfold update.
  rewrite JSSetFacts.forEach_idle; [done | | simpl; lia].
  intros b Hb. apply passed_over_step. by apply Hidle.
Qed.

Lemma force_force_set b f sc b' :
  force (body_of (force_set b f sc) b') = if decide (b' = b) then f else force (body_of sc b').
Proof.
  unfold force_set, upd. cbn [body_of set_body_of].
  by destruct (decide _).
Qed.

Lemma force_bodyApplyGravity_other b sc b' :
  b' ≠ b → force (body_of (bodyApplyGravity b sc) b') = force (body_of sc b').
Proof.
  intros Hne. unfold bodyApplyGravity. destruct (_ && _); [| done].
  rewrite force_force_set. by destruct (decide (b' = b)).
Qed.

Lemma force_spec_body_step isPaused dt r b' :
  (∀ b, keeps_force (λ sc, (Body_update b dt sc).2)) →
  (∀ a q, keeps_force (Detector_collisions a q)) →
  spec_body_step isPaused dt r b' = r
  ∨ ∃ seg, (spec_body_step isPaused dt r b').2 = r.2 ++ seg
           ∧ (∀ b, EvForceReset b ∈ seg ↔ b = b')
           ∧ ∀ b, force (body_of (scene (spec_body_step isPaused dt r b').1) b)
                  = if decide (b = b') then mkVec 0 0 else force (body_of (scene r.1) b).
Proof.
  intros Hupd Hcol. unfold spec_body_step.
  destruct (isStatic (body_of (scene r.1) b')); [by left |].
  destruct (skipped isPaused _); [by left |].
  right. eexists. split; [reflexivity |]. split.
  - intros b. rewrite !elem_of_app.
    destruct (Body_update b' dt (bodyApplyGravity b' (scene r.1))) as [[|] sc2];
      cbn [fst snd]; rewrite !list_elem_of_In; simpl; split.
    + intros [[? | [? | []]] | [[? | []] | [? | [[= ->] | []]]]]; try discriminate; done.
    + intros ->. tauto.
    + intros [[? | [? | []]] | [[] | [? | [[= ->] | []]]]]; try discriminate; done.
    + intros ->. tauto.
  - intros b. cbn [fst snd scene set_scene]. rewrite force_force_set.
    destruct (decide _) as [| Hne]; [done |].
    rewrite Hcol.
    pose proof (Hupd b' (bodyApplyGravity b' (scene r.1)) b) as H1. simpl in H1.
    destruct (Body_update b' dt (bodyApplyGravity b' (scene r.1))) as [[|] sc2];
      cbn [fst snd] in *.
    + change (force (body_of (mark_dirty (ancestor (body_of (scene r.1) b')) sc2) b))
        with (force (body_of sc2 b)).
      rewrite H1. by apply force_bodyApplyGravity_other.
    + rewrite H1. by apply force_bodyApplyGravity_other.
Qed.

(** X4: a tick consumes the accumulated forces.  When [body.update],
    [Detector.collisions] and [super.update] write no force, a body
    whose force was reset in the tick ends it with the force (0, 0),
    gravity included, and every other body ends it with the force it
    had. *)
Theorem tick_consumes_force fuel isPaused dt w res w' tr :
  (∀ b, keeps_force (λ sc, (Body_update b dt sc).2)) →
  (∀ a q, keeps_force (Detector_collisions a q)) →
  keeps_force (λ sc, (Container_update dt sc).2) →
  update fuel isPaused dt w = Some (res, w', tr) →
  ∀ b, (EvForceReset b ∈ tr → force (body_of (scene w') b) = mkVec 0 0)
       ∧ (EvForceReset b ∉ tr → force (body_of (scene w') b) = force (body_of (scene w) b)).
Proof.
  intros Hupd Hcol Hsup. unfold update.
  destruct (JSSet.forEach _ _ _ _ _) as [r |] eqn:Hloop; [| done].
  intros [= _ <- <-] b.
  assert ((EvForceReset b ∈ r.2 → force (body_of (scene r.1) b) = mkVec 0 0)
          ∧ (EvForceReset b ∉ r.2 → force (body_of (scene r.1) b) = force (body_of (scene w) b)))
    as [Hin Hout].
  { revert Hloop.
    apply (JSSetFacts.forEach_invariant _ _
             (λ r, (EvForceReset b ∈ r.2 → force (body_of (scene r.1) b) = mkVec 0 0)
                   ∧ (EvForceReset b ∉ r.2
                      → force (body_of (scene r.1) b) = force (body_of (scene w) b)))).
    - intros b' r1 [Hin Hout]. rewrite WorldFacts.update_body_spec.
      destruct (force_spec_body_step isPaused dt r1 b' Hupd Hcol)
        as [-> | (seg & Htr & Hseg & Hf)]; [done |].
      rewrite Hf, Htr. split.
      + intros Hb. destruct (decide _) as [| Hne]; [done |].
        apply Hin. apply elem_of_app in Hb as [Hb | Hb]; [done |].
        by apply Hseg in Hb.
      + intros Hb. destruct (decide _) as [-> | Hne].
        * exfalso. apply Hb. apply elem_of_app. right. by apply Hseg.
        * apply Hout. intros Hb'. apply Hb. apply elem_of_app. by left.
    - split; [| done]. intros Hb. simpl in Hb. apply list_elem_of_In in Hb. simpl in Hb.
      destruct Hb as [? | [? | []]]; discriminate. }
  cbn [fst snd scene set_scene emit].
  pose proof (Hsup (scene r.1) b) as Hs. simpl in Hs. rewrite Hs. split.
  - intros Hb. apply Hin. apply elem_of_app in Hb as [Hb | Hb]; [done |].
    apply list_elem_of_singleton in Hb. discriminate.
  - intros Hb. apply Hout. intros Hb'. apply Hb. apply elem_of_app. by left.
Qed.

(** X5: the tick itself never adds or removes a body: when
    [body.update], [Detector.collisions] and [super.update] leave the set
    of bodies alone, it is after the tick what it was before, slot for
    slot. *)
Theorem tick_keeps_bodies fuel isPaused dt w res w' tr :
  (∀ b, keeps_bodies (λ sc, (Body_update b dt sc).2)) →
  (∀ a q, keeps_bodies (Detector_collisions a q)) →
  keeps_bodies (λ sc, (Container_update dt sc).2) →
  update fuel isPaused dt w = Some (res, w', tr) →
  bodies (scene w') = bodies (scene w).
Proof.
  intros Hupd Hcol Hsup. unfold update.
  destruct (JSSet.forEach _ _ _ _ _) as [r |] eqn:Hloop; [| done].
  intros [= _ <- _]. cbn [fst snd scene set_scene emit].
  rewrite (Hsup (scene r.1)). revert Hloop.
  apply (JSSetFacts.forEach_invariant _ _ (λ r, bodies (scene r.1) = bodies (scene w))).
  - intros b r1 Hr1. rewrite WorldFacts.update_body_spec.
    by rewrite WorldFacts.bodies_spec_body_step.
  - done.
Qed.

(** X6: after [reset] the world holds no body, whatever the inherited
    reset did: a body added next is the only one, and a tick that comes
    next passes over the emptied slots and touches no body. *)
Theorem reset_then_add_or_tick w b fuel isPaused dt :
  JSSet.elements (bodies (scene (addBody b (reset w)))) = [b]
  ∧ (length (bodies (scene (reset w))) ≤ fuel →
     ∃ res w',
       update fuel isPaused dt (reset w)
       = Some (res, w', [EvQuadTreeClear; EvInsertContainer; EvContainerUpdate dt])).
Proof.
  assert (JSSet.elements (bodies (scene (reset w))) = []) as Hempty.
  { unfold reset, reset_run. simpl. apply JSSetFacts.elements_clear. }
  split.
  - cbn [addBody scene set_scene bodies set_bodies].
    rewrite JSSetFacts.elements_add_new.
    + by rewrite Hempty.
    + destruct (JSSet.has b (bodies (scene (reset w)))) eqn:Hb; [| done].
      apply JSSetFacts.has_true in Hb. rewrite Hempty in Hb. by apply elem_of_nil in Hb.
  - intros Hfuel. generalize dependent (reset w). intros w0 Hempty Hfuel.
    eexists _, _. unfold update.
    rewrite JSSetFacts.forEach_idle; [done | | simpl; lia].
    intros b' Hb'. simpl in Hb'. rewrite Hempty in Hb'. by apply elem_of_nil in Hb'.
Qed.

Lemma Body_update_spec_keeps_force b dt : keeps_force (λ sc, (Body_update_spec b dt sc).2).
Proof.
  intros sc b'. simpl. unfold upd. by destruct (decide _) as [-> |].
Qed.

End Facts.

Section Runs.
Import Sample.

Lemma removeBody_removes_that_body_only_witness :
  JSSet.elements (bodies (scene (removeBody 5 three_bodies)))
  = JSSet.elements (bodies (scene three_bodies))
  ∧ JSSet.elements (bodies (scene (removeBody 1 (addBody 5 three_bodies))))
    = JSSet.elements (bodies (scene (addBody 5 (removeBody 1 three_bodies)))).
Proof.
  split.
  - apply (proj1 (proj2 (removeBody_removes_that_body_only three_bodies 5))).
    intros Hin. apply list_elem_of_In in Hin. simpl in Hin.
    destruct Hin as [? | [? | [? | []]]]; discriminate.
  - apply (proj2 (proj2 (proj2 (removeBody_removes_that_body_only three_bodies 1)))).
    discriminate.
Defined.

(** a paused game: nothing moves *)
Lemma idle_tick_witness :
  update 3 true 1 three_bodies
  = Some ((Container_update 1 (scene three_bodies)).1,
          {| scene := (Container_update 1 (scene three_bodies)).2;
             broadphase := QuadTree_insertContainer (scene three_bodies)
                             (QuadTree_clear None (broadphase three_bodies)) |},
          [EvQuadTreeClear; EvInsertContainer; EvContainerUpdate 1]).
Proof.
  apply (idle_tick 3 true 1 three_bodies).
  - simpl. lia.
  - intros b Hb. apply list_elem_of_In in Hb. simpl in Hb.
    destruct Hb as [<- | [<- | [<- | []]]]; reflexivity.
Defined.

Lemma tick_consumes_force_witness :
  (EvForceReset 0 ∈ (spec_tick false 1 three_bodies).2
   → force (body_of (scene (spec_tick false 1 three_bodies).1.2) 0) = mkVec 0 0)
  ∧ (EvForceReset 0 ∉ (spec_tick false 1 three_bodies).2
     → force (body_of (scene (spec_tick false 1 three_bodies).1.2) 0)
       = force (body_of (scene three_bodies) 0)).
Proof.
  refine (tick_consumes_force 3 false 1 three_bodies
            (spec_tick false 1 three_bodies).1.1 (spec_tick false 1 three_bodies).1.2
            (spec_tick false 1 three_bodies).2 _ _ _ _ 0).
  - intros b. apply Body_update_spec_keeps_force.
  - intros a q sc b. reflexivity.
  - intros sc b. reflexivity.
  - rewrite (WorldFacts.update_refines_spec_tick 3 false 1 three_bodies).
    + by destruct (spec_tick false 1 three_bodies) as [[? ?] ?].
    + intros b sc. reflexivity.
    + intros a q sc. reflexivity.
    + simpl. lia.
Defined.

Lemma tick_keeps_bodies_witness :
  bodies (scene (spec_tick false 1 three_bodies).1.2) = bodies (scene three_bodies).
Proof.
  apply (tick_keeps_bodies 3 false 1 three_bodies
           (spec_tick false 1 three_bodies).1.1 (spec_tick false 1 three_bodies).1.2
           (spec_tick false 1 three_bodies).2).
  - intros b sc. reflexivity.
  - intros a q sc. reflexivity.
  - intros sc. reflexivity.
  - rewrite (WorldFacts.update_refines_spec_tick 3 false 1 three_bodies).
    + by destruct (spec_tick false 1 three_bodies) as [[? ?] ?].
    + intros b sc. reflexivity.
    + intros a q sc. reflexivity.
    + simpl. lia.
Defined.

Lemma reset_then_add_or_tick_witness :
  ∃ res w',
    update 3 false 1 (reset three_bodies)
    = Some (res, w', [EvQuadTreeClear; EvInsertContainer; EvContainerUpdate 1]).
Proof.
  apply (proj2 (reset_then_add_or_tick three_bodies 0 3 false 1)). simpl. lia.
Defined.

End Runs.
End WorldMoreFacts.

(* ===================================================================== *)
(** ** More on the registration of pointer events *)
(* ===================================================================== *)

Module RegistrationFacts.
Import PointerEvent PointerEventMore.

Section Facts.
Context {E : Env}.
Implicit Types (s : State) (r c : RegionId) (cb : Callback) (t k : string)
  (cbs : gmap string (list Callback)) (m : gmap RegionId Handlers).

(** *** The active list *)

Lemma pointerEventMap_get_NoDup t : NoDup (pointerEventMap_get t).
Proof.
  unfold pointerEventMap_get, pointerEventMap. cbn [List.find fst snd].
  repeat (destruct (String.eqb _ t); [apply (bool_decide_unpack _); by vm_compute |]).
  apply NoDup_nil_2.
Qed.

Lemma elem_of_variants s t k :
  k ∈ variants s t ↔ k ∈ pointerEventMap_get t ∧ k ∈ activeEventList s.
Proof.
  unfold variants, findAllActiveEvents.
  rewrite !list_elem_of_In, filter_In, bool_decide_eq_true, list_elem_of_In. tauto.
Qed.

Lemma variants_NoDup s t : NoDup (variants s t).
Proof.
  unfold variants, findAllActiveEvents.
  apply NoDup_ListNoDup, List.NoDup_filter, NoDup_ListNoDup, pointerEventMap_get_NoDup.
Qed.

Lemma enable_twice s : enablePointerEvent (enablePointerEvent s) = enablePointerEvent s.
Proof.
  unfold enablePointerEvent at 1.
  destruct (pointerInitialized (enablePointerEvent s)) eqn:Hi; [done |].
  unfold enablePointerEvent in Hi.
  destruct (pointerInitialized s) eqn:Hs; simpl in Hi; congruence.
Qed.

Lemma activeEventList_enable s :
  activeEventList (enablePointerEvent s)
  = if pointerInitialized s then activeEventList s else active_events.
Proof.
  unfold enablePointerEvent, active_events.
  destruct (pointerInitialized s); [done |]. cbn [activeEventList].
  destruct device_pointerEvent, device_touch; cbn [andb negb]; by rewrite ?app_nil_r.
Qed.

Lemma active_events_NoDup : NoDup active_events.
Proof.
  unfold active_events. destruct device_pointerEvent, device_touch; cbn [andb negb].
  all: apply (bool_decide_unpack _); by vm_compute.
Qed.

Lemma active_has_variant t :
  t ∈ pointerEventList → ∃ k, k ∈ pointerEventMap_get t ∧ k ∈ active_events.
Proof.
  intros Ht. apply list_elem_of_In in Ht. cbn in Ht.
  unfold active_events.
  destruct Ht as [<- | [<- | [<- | [<- | [<- | [<- | [<- | [<- | []]]]]]]]];
    destruct device_pointerEvent, device_touch; cbn [andb negb].
  all: match goal with
       | |- ∃ k, k ∈ pointerEventMap_get ?t ∧ _ =>
           first [ exists (item (pointerEventMap_get t) 0);
                   split; apply (bool_decide_unpack _); vm_compute; exact I
                 | exists (item (pointerEventMap_get t) 1);
                   split; apply (bool_decide_unpack _); vm_compute; exact I ]
       end.
Qed.

(** X7: [enablePointerEvent] initialises the module once and is without
    effect afterwards.  On every device the list it activates has the
    event for a button press at index 2, which is the entry that it
    listens to for the focus, has no event twice, and has at least one
    variant of every supported type, so that a registration for a
    supported type always stores its callback somewhere. *)
Theorem enablePointerEvent_once s :
  enablePointerEvent (enablePointerEvent s) = enablePointerEvent s
  ∧ pointerInitialized (enablePointerEvent s) = true
  ∧ eventHandlers (enablePointerEvent s) = eventHandlers s
  ∧ (pointerInitialized s = true → enablePointerEvent s = s)
  ∧ (pointerInitialized s = false →
     activeEventList (enablePointerEvent s) = active_events
     ∧ length (T_POINTERS (enablePointerEvent s)) = length (T_POINTERS s) + maxTouchPoints)
  ∧ (∃ down, active_events !! 2 = Some down ∧ down ∈ POINTER_DOWN)
  ∧ NoDup active_events
  ∧ ∀ t, t ∈ pointerEventList →
      ∃ k, k ∈ pointerEventMap_get t ∧ k ∈ active_events.
Proof.
  split_and!.
  - apply enable_twice.
  - unfold enablePointerEvent. by destruct (pointerInitialized s) eqn:Hs.
  - unfold enablePointerEvent. by destruct (pointerInitialized s).
  - intros Hi. unfold enablePointerEvent. by rewrite Hi.
  - intros Hi. split.
    + by rewrite activeEventList_enable, Hi.
    + unfold enablePointerEvent. rewrite Hi. cbn [T_POINTERS].
      by rewrite length_app, length_replicate.
  - unfold active_events. destruct device_pointerEvent, device_touch; cbn [andb negb].
    all: eexists; split; [reflexivity |]; apply (bool_decide_unpack _); by vm_compute.
  - apply active_events_NoDup.
  - apply active_has_variant.
Qed.

(** *** Registering and releasing, entry by entry *)

Lemma register_type_insert cb cbs t :
  register_type cb cbs t = <[t := default [] (cbs !! t) ++ [cb]]> cbs.
Proof. unfold register_type. by destruct (cbs !! t). Qed.

Lemma fold_register_lookup cb (ts : list string) :
  NoDup ts → ∀ cbs k,
    fold_left (register_type cb) ts cbs !! k
    = if bool_decide (k ∈ ts) then Some (default [] (cbs !! k) ++ [cb]) else cbs !! k.
Proof.
  induction ts as [| t ts IH]; intros Hnd cbs k; cbn [fold_left].
  { by rewrite bool_decide_eq_false_2 by apply not_elem_of_nil. }
  apply NoDup_cons in Hnd as [Ht Hnd].
  rewrite (IH Hnd), register_type_insert.
  destruct (decide (k = t)) as [-> | Hne].
  - rewrite (bool_decide_eq_false_2 (t ∈ ts)) by done.
    rewrite (bool_decide_eq_true_2 (t ∈ t :: ts)) by (by left).
    by rewrite lookup_insert_eq.
  - rewrite lookup_insert_ne by done.
    destruct (decide (k ∈ ts)) as [Hin | Hnin].
    + rewrite !bool_decide_eq_true_2; [done | by right | done].
    + rewrite !bool_decide_eq_false_2; [done | | done].
      by intros [? | ?]%elem_of_cons.
Qed.

Lemma fold_release_lookup (ts : list string) : ∀ cbs k,
  fold_left (release_type None) ts cbs !! k
  = if bool_decide (k ∈ ts) then None else cbs !! k.
Proof.
  induction ts as [| t ts IH]; intros cbs k; cbn [fold_left].
  { by rewrite bool_decide_eq_false_2 by apply not_elem_of_nil. }
  rewrite IH, PointerEventFacts.release_type_all.
  destruct (decide (k = t)) as [-> | Hne].
  - rewrite (bool_decide_eq_true_2 (t ∈ t :: ts)) by (by left).
    rewrite lookup_delete_eq. by destruct (bool_decide _).
  - rewrite lookup_delete_ne by done.
    destruct (decide (k ∈ ts)) as [Hin | Hnin].
    + rewrite !bool_decide_eq_true_2; [done | by right | done].
    + rewrite !bool_decide_eq_false_2; [done | | done].
      by intros [? | ?]%elem_of_cons.
Qed.

Lemma registerPointerEvent_Ok t r cb s :
  t ∈ pointerEventList →
  registerPointerEvent t (Some r) cb s
  = Ok (set_eventHandlers
          (<[r := set_callbacks
                    (fold_left (register_type cb) (variants (enablePointerEvent s) t)
                       (callbacks_at s r))
                    (default {| region := r; callbacks := ∅; handlers_pointerId := None |}
                       (eventHandlers s !! r))]> (eventHandlers s))
          (enablePointerEvent s)).
Proof.
  intros Ht. unfold registerPointerEvent, callbacks_at.
  rewrite bool_decide_eq_true_2 by done. cbn [negb].
  rewrite PointerEventFacts.eventHandlers_enable.
  destruct (eventHandlers s !! r) as [h |] eqn:Hr.
  - by rewrite Hr.
  - rewrite lookup_insert_eq. by rewrite insert_insert_eq.
Qed.

Lemma releasePointerEvent_Ok t r s h :
  t ∈ pointerEventList → eventHandlers s !! r = Some h →
  releasePointerEvent t r None s
  = Ok (set_eventHandlers
          (if bool_decide (size (fold_left (release_type None) (variants s t) (callbacks h)) = 0)
           then delete r (eventHandlers s)
           else <[r := set_callbacks
                         (fold_left (release_type None) (variants s t) (callbacks h)) h]>
                  (eventHandlers s)) s).
Proof.
  intros Ht Hr. unfold releasePointerEvent.
  rewrite bool_decide_eq_true_2 by done. cbn [negb]. rewrite Hr.
  fold (variants s t). by destruct (bool_decide _).
Qed.

Lemma callbacks_at_insert s r h m' :
  callbacks_at (set_eventHandlers (<[r := h]> m') s) r = callbacks h.
Proof. unfold callbacks_at. cbn [eventHandlers set_eventHandlers]. by rewrite lookup_insert_eq. Qed.

Lemma register_step t r cb s :
  t ∈ pointerEventList →
  ∃ s1,
    registerPointerEvent t (Some r) cb s = Ok s1
    ∧ is_Some (eventHandlers s1 !! r)
    ∧ (∀ k, callbacks_at s1 r !! k
            = if bool_decide (k ∈ variants (enablePointerEvent s) t)
              then Some (default [] (callbacks_at s r !! k) ++ [cb])
              else callbacks_at s r !! k)
    ∧ (∀ r', r' ≠ r → eventHandlers s1 !! r' = eventHandlers s !! r')
    ∧ set_eventHandlers (eventHandlers s) s1 = enablePointerEvent s.
Proof.
  intros Ht. rewrite (registerPointerEvent_Ok t r cb s Ht).
  eexists. split; [reflexivity |].
  cbn [eventHandlers set_eventHandlers]. rewrite lookup_insert_eq. split_and!.
  - by eexists.
  - intros k. rewrite callbacks_at_insert. cbn [callbacks set_callbacks].
    apply fold_register_lookup, variants_NoDup.
  - intros r' Hne. by rewrite lookup_insert_ne.
  - rewrite <- (PointerEventFacts.eventHandlers_enable s).
    by destruct (enablePointerEvent s).
Qed.

(** X8: a registration for a supported type appends the callback to the
    array of every active variant of the type, and creates the array
    where there is none; arrays under other names, the other regions and
    the pointer that the region holds are left as they are, so that a
    callback registered twice is stored twice. *)
Theorem register_appends t r cb s :
  t ∈ pointerEventList →
  ∃ s1 h1,
    registerPointerEvent t (Some r) cb s = Ok s1
    ∧ eventHandlers s1 !! r = Some h1
    ∧ region h1 = default r (region <$> eventHandlers s !! r)
    ∧ handlers_pointerId h1 = (eventHandlers s !! r) ≫= handlers_pointerId
    ∧ (∀ k, callbacks_at s1 r !! k
            = if bool_decide (k ∈ variants (enablePointerEvent s) t)
              then Some (default [] (callbacks_at s r !! k) ++ [cb])
              else callbacks_at s r !! k)
    ∧ (∀ r', r' ≠ r → eventHandlers s1 !! r' = eventHandlers s !! r')
    ∧ set_eventHandlers (eventHandlers s) s1 = enablePointerEvent s.
Proof.
  intros Ht. rewrite (registerPointerEvent_Ok t r cb s Ht).
  eexists _, _. split; [reflexivity |].
  cbn [eventHandlers set_eventHandlers]. rewrite lookup_insert_eq.
  split; [reflexivity |]. split_and!.
  - by destruct (eventHandlers s !! r).
  - by destruct (eventHandlers s !! r).
  - intros k. rewrite callbacks_at_insert. cbn [callbacks set_callbacks].
    apply fold_register_lookup, variants_NoDup.
  - intros r' Hne. by rewrite lookup_insert_ne.
  - rewrite <- (PointerEventFacts.eventHandlers_enable s).
    by destruct (enablePointerEvent s).
Qed.

Lemma release_step t r s :
  t ∈ pointerEventList →
  ∃ s1,
    releasePointerEvent t r None s = Ok s1
    ∧ (∀ k, callbacks_at s1 r !! k
            = if bool_decide (k ∈ variants s t) then None else callbacks_at s r !! k)
    ∧ (is_Some (eventHandlers s1 !! r)
       ↔ is_Some (eventHandlers s !! r) ∧ callbacks_at s1 r ≠ ∅)
    ∧ (∀ r', r' ≠ r → eventHandlers s1 !! r' = eventHandlers s !! r')
    ∧ set_eventHandlers (eventHandlers s) s1 = s.
Proof.
  intros Ht.
  destruct (eventHandlers s !! r) as [h |] eqn:Hr.
  2:{ assert (releasePointerEvent t r None s = Ok s) as Hrel.
      { unfold releasePointerEvent. rewrite bool_decide_eq_true_2 by done. by rewrite Hr. }
      exists s. rewrite Hrel. split_and!; try done.
      - intros k. unfold callbacks_at. rewrite Hr. cbn. rewrite lookup_empty.
        by destruct (bool_decide _).
      - rewrite Hr. split; [by intros [? ?] | by intros [[? ?] _]].
      - by destruct s. }
  rewrite (releasePointerEvent_Ok t r s h Ht Hr).
  set (cbs' := fold_left (release_type None) (variants s t) (callbacks h)).
  assert (callbacks_at s r = callbacks h) as Hat by (unfold callbacks_at; by rewrite Hr).
  eexists. split; [reflexivity |].
  destruct (bool_decide (size cbs' = 0)) eqn:Hsize; cbn [eventHandlers set_eventHandlers].
  - apply bool_decide_eq_true_1, map_size_empty_iff in Hsize.
    assert (callbacks_at (set_eventHandlers (delete r (eventHandlers s)) s) r = ∅) as Hat'.
    { unfold callbacks_at. cbn [eventHandlers set_eventHandlers]. by rewrite lookup_delete_eq. }
    split_and!.
    + intros k. rewrite Hat', Hat, <- (fold_release_lookup (variants s t) (callbacks h) k).
      fold cbs'. by rewrite Hsize.
    + rewrite lookup_delete_eq, Hat'. split; [by intros [? ?] | by intros [_ ?]].
    + intros r' Hne. by rewrite lookup_delete_ne.
    + by destruct s.
  - apply bool_decide_eq_false_1 in Hsize. split_and!.
    + intros k. rewrite callbacks_at_insert, Hat. apply fold_release_lookup.
    + rewrite lookup_insert_eq, callbacks_at_insert. cbn [callbacks set_callbacks].
      assert (cbs' ≠ ∅) by (by rewrite <- map_size_empty_iff).
      split; [by intros _; split; [eexists |] | by intros _; eexists].
    + intros r' Hne. by rewrite lookup_insert_ne.
    + by destruct s.
Qed.

(** X9: releasing a type of event on a region, without naming a callback,
    removes the arrays of the active variants of that type and no other;
    the entry of the region goes exactly when no array is left; the
    other regions and the rest of the state are untouched; a region
    without an entry is left alone; and releasing a second time changes
    nothing. *)
Theorem release_removes_that_type_only t r s :
  t ∈ pointerEventList →
  ∃ s1,
    releasePointerEvent t r None s = Ok s1
    ∧ (∀ k, callbacks_at s1 r !! k
            = if bool_decide (k ∈ variants s t) then None else callbacks_at s r !! k)
    ∧ (is_Some (eventHandlers s1 !! r)
       ↔ is_Some (eventHandlers s !! r) ∧ callbacks_at s1 r ≠ ∅)
    ∧ (∀ r', r' ≠ r → eventHandlers s1 !! r' = eventHandlers s !! r')
    ∧ set_eventHandlers (eventHandlers s) s1 = s
    ∧ (eventHandlers s !! r = None → s1 = s)
    ∧ releasePointerEvent t r None s1 = Ok s1.
Proof.
  intros Ht.
  destruct (eventHandlers s !! r) as [h |] eqn:Hr.
  2:{ assert (releasePointerEvent t r None s = Ok s) as Hrel.
      { unfold releasePointerEvent. rewrite bool_decide_eq_true_2 by done. by rewrite Hr. }
      exists s. rewrite Hrel. split_and!; try done.
      - intros k. unfold callbacks_at. rewrite Hr. cbn. rewrite lookup_empty.
        by destruct (bool_decide _).
      - rewrite Hr. split; [by intros [? ?] | by intros [[? ?] _]].
      - by destruct s. }
  rewrite (releasePointerEvent_Ok t r s h Ht Hr).
  set (cbs' := fold_left (release_type None) (variants s t) (callbacks h)).
  assert (∀ k, cbs' !! k = if bool_decide (k ∈ variants s t) then None else callbacks h !! k)
    as Hlook by (intros k; apply fold_release_lookup).
  assert (callbacks_at s r = callbacks h) as Hat by (unfold callbacks_at; by rewrite Hr).
  destruct (bool_decide (size cbs' = 0)) eqn:Hsize.
  - apply bool_decide_eq_true_1, map_size_empty_iff in Hsize.
    eexists. split; [reflexivity |]. cbn [eventHandlers set_eventHandlers].
    assert (callbacks_at (set_eventHandlers (delete r (eventHandlers s)) s) r = ∅) as Hat'.
    { unfold callbacks_at. cbn [eventHandlers set_eventHandlers]. by rewrite lookup_delete_eq. }
    split_and!.
    + intros k. rewrite Hat', Hat, <- Hlook, Hsize. done.
    + rewrite lookup_delete_eq, Hat'. split; [by intros [? ?] | by intros [_ ?]].
    + intros r' Hne. by rewrite lookup_delete_ne.
    + by destruct s.
    + done.
    + unfold releasePointerEvent. rewrite bool_decide_eq_true_2 by done.
      cbn [negb eventHandlers set_eventHandlers]. by rewrite lookup_delete_eq.
  - apply bool_decide_eq_false_1 in Hsize.
    assert (cbs' ≠ ∅) as Hne' by (by rewrite <- map_size_empty_iff).
    eexists. split; [reflexivity |]. cbn [eventHandlers set_eventHandlers].
    split_and!.
    + intros k. rewrite callbacks_at_insert, Hat. apply Hlook.
    + rewrite lookup_insert_eq, callbacks_at_insert. cbn [callbacks set_callbacks].
      split; [by intros _; split; [eexists |] | by intros _; eexists].
    + intros r' Hne. by rewrite lookup_insert_ne.
    + by destruct s.
    + done.
    + rewrite (releasePointerEvent_Ok t r _ (set_callbacks cbs' h) Ht)
        by (cbn [eventHandlers set_eventHandlers]; by rewrite lookup_insert_eq).
      cbn [callbacks set_callbacks].
      assert (fold_left (release_type None)
                (variants (set_eventHandlers (<[r := set_callbacks cbs' h]> (eventHandlers s)) s) t)
                cbs' = cbs') as ->.
      { apply map_eq. intros k. rewrite fold_release_lookup.
        change (variants (set_eventHandlers _ s) t) with (variants s t).
        rewrite Hlook. by destruct (bool_decide _). }
      rewrite bool_decide_eq_false_2 by (by rewrite map_size_empty_iff).
      cbn [eventHandlers set_eventHandlers]. by rewrite insert_insert_eq.
Qed.

End Facts.

Section Runs.
Import Sample MoreSample.

Lemma register_appends_witness :
  ∃ s1 h1,
    registerPointerEvent "pointerdown" (Some 2%nat) 4%nat three_regions = Ok s1
    ∧ eventHandlers s1 !! 2%nat = Some h1
    ∧ region h1 = default 2%nat (region <$> eventHandlers three_regions !! 2%nat)
    ∧ handlers_pointerId h1 = (eventHandlers three_regions !! 2%nat) ≫= handlers_pointerId
    ∧ (∀ k, callbacks_at s1 2%nat !! k
            = if bool_decide (k ∈ variants (enablePointerEvent three_regions) "pointerdown")
              then Some (default [] (callbacks_at three_regions 2%nat !! k) ++ [4%nat])
              else callbacks_at three_regions 2%nat !! k)
    ∧ (∀ r', r' ≠ 2%nat → eventHandlers s1 !! r' = eventHandlers three_regions !! r')
    ∧ set_eventHandlers (eventHandlers three_regions) s1 = enablePointerEvent three_regions.
Proof.
  apply (register_appends "pointerdown" 2%nat 4%nat three_regions).
  apply (bool_decide_unpack _). vm_compute. exact I.
Defined.

(** the callbacks of region 2 are 5 and 8; registering 4 puts it last *)
Example register_appends_run :
  callbacks_at (state_of (registerPointerEvent "pointerdown" (Some 2%nat) 4%nat three_regions))
    2%nat !! "pointerdown"
  = Some [5%nat; 8%nat; 4%nat].
Proof. vm_compute. reflexivity. Qed.

Lemma release_removes_that_type_only_witness :
  ∃ s1,
    releasePointerEvent "pointerdown" 2%nat None press_release = Ok s1
    ∧ (∀ k, callbacks_at s1 2%nat !! k
            = if bool_decide (k ∈ variants press_release "pointerdown") then None
              else callbacks_at press_release 2%nat !! k)
    ∧ (is_Some (eventHandlers s1 !! 2%nat)
       ↔ is_Some (eventHandlers press_release !! 2%nat) ∧ callbacks_at s1 2%nat ≠ ∅)
    ∧ (∀ r', r' ≠ 2%nat → eventHandlers s1 !! r' = eventHandlers press_release !! r')
    ∧ set_eventHandlers (eventHandlers press_release) s1 = press_release
    ∧ (eventHandlers press_release !! 2%nat = None → s1 = press_release)
    ∧ releasePointerEvent "pointerdown" 2%nat None s1 = Ok s1.
Proof.
  apply (release_removes_that_type_only "pointerdown" 2%nat press_release).
  apply (bool_decide_unpack _). vm_compute. exact I.
Defined.

(** region 2 keeps its callback for the release *)
Example release_removes_that_type_only_run :
  map_to_list (callbacks_at
    (state_of (releasePointerEvent "pointerdown" 2%nat None press_release)) 2%nat)
  = [("pointerup", [6%nat])].
Proof. vm_compute. reflexivity. Qed.

End Runs.
End RegistrationFacts.

(* ===================================================================== *)
(** ** More on the dispatch of pointer events *)
(* ===================================================================== *)

Module DispatchFacts.
Import PointerEvent PointerEventMore.

Section Facts.
Context {E : Env}.
Implicit Types (s : State) (p : Pointer) (c r : RegionId) (tr evs : list Event)
  (m : gmap RegionId Handlers).

(** *** [triggerEvent] *)

Lemma call_each_exact c t p (cbs : list Callback) : ∀ tr,
  call_each c t p cbs tr
  = (existsb (λ cb, returns_false cb p) cbs,
     tr ++ ((λ cb, EvCallback c t cb p) <$> until_false p cbs)).
Proof.
  induction cbs as [| cb cbs IH]; intros tr; cbn [call_each existsb until_false].
  { by rewrite app_nil_r. }
  destruct (returns_false cb p) eqn:Hcb; cbn [orb].
  - done.
  - rewrite IH. cbn [fmap list_fmap]. by rewrite <- app_assoc.
Qed.

Lemma existsb_true_iff (f : Callback → bool) (l : list Callback) :
  existsb f l = true ↔ ∃ cb, cb ∈ l ∧ f cb = true.
Proof.
  rewrite existsb_exists. split; intros (cb & Hin & Hf); exists cb;
    (split; [by apply list_elem_of_In | done]).
Qed.

(** X10: [triggerEvent] calls the callbacks registered under the type
    from the last registered to the first and stops with the first that
    returns [false]; it answers [true] exactly when one of them returns
    [false]; it writes the pointer id into the handlers of the region, and
    nothing else; and when no array is registered under the type it calls
    nothing, answers [false] and does not write the pointer id either. *)
Theorem triggerEvent_calls_last_registered_first c t p i s tr h :
  eventHandlers s !! c = Some h →
  (∀ cbs, callbacks h !! key t = Some cbs →
     (triggerEvent c t p i (s, tr)).2.2
     = tr ++ ((λ cb, EvCallback c (key t) cb p) <$> until_false p (rev cbs))
     ∧ ((triggerEvent c t p i (s, tr)).1 = true ↔ ∃ cb, cb ∈ cbs ∧ returns_false cb p = true)
     ∧ (triggerEvent c t p i (s, tr)).2.1
       = set_eventHandlers (<[c := set_handlers_pointerId i h]> (eventHandlers s)) s)
  ∧ (callbacks h !! key t = None → triggerEvent c t p i (s, tr) = (false, (s, tr))).
Proof.
  intros Hc. unfold triggerEvent. cbn [fst snd]. rewrite Hc. split.
  - intros cbs Hcbs. rewrite Hcbs, call_each_exact. cbn [fst snd]. split_and!; [done | | done].
    rewrite existsb_true_iff. split; intros (cb & Hin & Hf); exists cb; (split; [| done]).
    + apply list_elem_of_In, in_rev, list_elem_of_In. exact Hin.
    + apply list_elem_of_In. rewrite <- in_rev. by apply list_elem_of_In.
  - by intros ->.
Qed.

(** *** One candidate *)

Lemma same_rest_refl s : same_rest s s.
Proof. by split_and!. Qed.

Lemma same_rest_trans s1 s2 s3 : same_rest s1 s2 → same_rest s2 s3 → same_rest s1 s3.
Proof.
  intros (? & ? & ? & ? & ?) (? & ? & ? & ? & ?). split_and!; congruence.
Qed.

Lemma registered_call_back m m' c e :
  same_handlers m m' → registered_call m' c e → registered_call m c e.
Proof.
  intros Hsame (t & cb & p & h & cbs & -> & Hc & Hcbs & Hin).
  destruct (PointerEventFacts.same_handlers_lookup m m' c h Hsame Hc) as (h0 & Hc0 & _ & Hcb0).
  exists t, cb, p, h0, cbs. split_and!; try done. by rewrite Hcb0.
Qed.

Lemma advance_refl c st : advance c false st st.
Proof.
  exists []. rewrite app_nil_r.
  split_and!;
    first [ done | apply PointerEventFacts.same_handlers_refl | apply same_rest_refl
          | constructor ].
Qed.

Lemma ends_loud_app evs1 evs2 : quiet evs1 → ends_loud evs2 → ends_loud (evs1 ++ evs2).
Proof.
  intros H1 (pre & e & -> & Hpre & He). exists (evs1 ++ pre), e.
  rewrite app_assoc. split_and!; [done | | done]. by apply PointerEventFacts.quiet_app.
Qed.

Lemma advance_trans c flag st1 st2 st3 :
  advance c false st1 st2 → advance c flag st2 st3 → advance c flag st1 st3.
Proof.
  intros (new1 & Htr1 & Hall1 & Hq1 & Hs1 & Ho1 & Hr1)
         (new2 & Htr2 & Hall2 & Hq2 & Hs2 & Ho2 & Hr2).
  exists (new1 ++ new2). split_and!.
  - rewrite Htr2, Htr1. by rewrite app_assoc.
  - apply Forall_app. split; [done |].
    eapply Forall_impl; [exact Hall2 |]. intros e. by apply registered_call_back.
  - destruct flag.
    + by apply ends_loud_app.
    + by apply PointerEventFacts.quiet_app.
  - by eapply PointerEventFacts.same_handlers_trans.
  - intros c' Hne. by rewrite Ho2, Ho1.
  - by eapply same_rest_trans.
Qed.

Lemma triggerEvent_advance c t p i st :
  advance c (triggerEvent c t p i st).1 st (triggerEvent c t p i st).2.
Proof.
  unfold triggerEvent.
  destruct (eventHandlers st.1 !! c) as [h |] eqn:Hc; [| apply advance_refl].
  destruct (callbacks h !! key t) as [cbs |] eqn:Hcbs; [| apply advance_refl].
  destruct (PointerEventFacts.call_each_spec c (key t) p (rev cbs) st.2)
    as (new & Htr & Hall & Hq & Hl).
  exists new. cbn [fst snd eventHandlers set_eventHandlers]. split_and!.
  - exact Htr.
  - eapply Forall_impl; [exact Hall |]. intros e (cb & -> & Hin).
    exists (key t), cb, p, h, cbs. split_and!; try done.
    apply list_elem_of_In, in_rev, list_elem_of_In. exact Hin.
  - destruct (call_each c (key t) p (rev cbs) st.2).1; [by apply Hl | by apply Hq].
  - by apply PointerEventFacts.same_handlers_insert.
  - intros c' Hne. by rewrite lookup_insert_ne.
  - by split_and!.
Qed.

(** a visit of the candidate [c] advances the state for some flag, which
    is added to [handled]; a kinematic candidate and one without
    handlers are passed over *)
Lemma visit_candidate_advance c (v : Visit) :
  ∃ flag,
    advance c flag (visit_state v, visit_trace v)
      (visit_state (visit_candidate c v), visit_trace (visit_candidate c v))
    ∧ visit_handled (visit_candidate c v) = visit_handled v || flag
    ∧ (isKinematic c = true → visit_candidate c v = v)
    ∧ same_event (visit_candidate c v).1.1.1 v.1.1.1.
Proof.
  destruct v as [[[p s] tr] handled]. unfold visit_candidate.
  unfold visit_state, visit_trace, visit_handled. cbn [fst snd].
  assert (same_event p p) as Hpp by (by split_and!).
  destruct (eventHandlers s !! c) as [h |].
  2:{ exists false. rewrite orb_false_r. split_and!; [apply advance_refl | done | done | done]. }
  destruct (isKinematic c) eqn:Hkin; cbn [negb].
  { exists false. rewrite orb_false_r. split_and!; [apply advance_refl | done | done | done]. }
  set (p1 := if isFloating (region h) then _ else _).
  set (p2 := match ancestor_bounds (region h) with Some _ => _ | None => _ end).
  assert (same_event p2 p) as Hp2.
  { subst p2 p1. destruct (ancestor_bounds _) as [[bx by_] |].
    - apply PointerEventFacts.same_event_set_gameLocal.
      destruct (isFloating _); by apply PointerEventFacts.same_event_set_game.
    - destruct (isFloating _); by apply PointerEventFacts.same_event_set_game. }
  destruct (switch (type p2)).
  - set (first := if same_id _ _ && _ then _ else _).
    assert (advance c first.1 (s, tr) first.2) as Hfirst.
    { subst first. destruct (same_id _ _ && _); [apply triggerEvent_advance |].
      destruct (bool_decide _ && _); [apply triggerEvent_advance | apply advance_refl]. }
    destruct first.1 eqn:Hf1.
    { exists true. rewrite orb_true_r. cbn [fst snd].
      split_and!; try done; by destruct first as [? [? ?]]. }
    destruct (bounds_contains _ _ _).
    + exists (triggerEvent c (type p2) p2 (Some (pointerId p2)) first.2).1.
      cbn [fst snd]. split_and!; try done.
      all: eapply advance_trans; [exact Hfirst |].
      all: pose proof (triggerEvent_advance c (type p2) p2 (Some (pointerId p2)) first.2) as H.
      all: by destruct (triggerEvent _ _ _ _ _) as [? [? ?]].
    + exists false. rewrite orb_false_r. cbn [fst snd].
      split_and!; try done; by destruct first as [? [? ?]].
  - destruct (same_id _ _ && _).
    + exists (triggerEvent c (type p2) p2 None (s, tr)).1. cbn [fst snd].
      split_and!; try done.
      all: pose proof (triggerEvent_advance c (type p2) p2 None (s, tr)) as H.
      all: by destruct (triggerEvent _ _ _ _ _) as [? [? ?]].
    + exists false. rewrite orb_false_r. split_and!; [apply advance_refl | done | done | done].
  - destruct (same_id _ _).
    + exists (triggerEvent c (type p2) p2 None (s, tr)).1. cbn [fst snd].
      split_and!; try done.
      all: pose proof (triggerEvent_advance c (type p2) p2 None (s, tr)) as H.
      all: by destruct (triggerEvent _ _ _ _ _) as [? [? ?]].
    + exists false. rewrite orb_false_r. split_and!; [apply advance_refl | done | done | done].
  - destruct (bounds_contains _ _ _).
    + exists (triggerEvent c (type p2) p2 (Some (pointerId p2)) (s, tr)).1. cbn [fst snd].
      split_and!; try done.
      all: pose proof (triggerEvent_advance c (type p2) p2 (Some (pointerId p2)) (s, tr)) as H.
      all: by destruct (triggerEvent _ _ _ _ _) as [? [? ?]].
    + exists false. rewrite orb_false_r. split_and!; [apply advance_refl | done | done | done].
Qed.

(** *** The loop over the candidates *)

Lemma registered_call_candidate m c e : registered_call m c e → candidate_of e = Some c.
Proof. by intros (t & cb & p & h & cbs & -> & _). Qed.

Lemma candidate_call_mono m (l l' : list RegionId) e :
  (∀ c, c ∈ l → c ∈ l') → candidate_call m l e → candidate_call m l' e.
Proof. intros Hsub (c & Hc & Hrest). exists c. split; [by apply Hsub | done]. Qed.

Lemma candidate_call_back m m' (l : list RegionId) e :
  same_handlers m m' → candidate_call m' l e → candidate_call m l e.
Proof.
  intros Hsame (c & Hc & Hreg & Hkin). exists c. split_and!; [done | | done].
  by eapply registered_call_back.
Qed.

Lemma visit_general candidates : ∀ v : Visit,
  ∃ new,
    visit_trace (visit candidates v) = visit_trace v ++ new
    ∧ Forall (candidate_call (eventHandlers (visit_state v)) candidates) new
    ∧ ((visit_handled (visit candidates v) = visit_handled v ∧ quiet new)
       ∨ (visit_handled (visit candidates v) = true ∧ ends_loud new))
    ∧ (visit_handled v = true → Forall (λ e, candidate_of e = head candidates) new)
    ∧ same_handlers (eventHandlers (visit_state v))
        (eventHandlers (visit_state (visit candidates v)))
    ∧ same_rest (visit_state v) (visit_state (visit candidates v)).
Proof.
  induction candidates as [| c rest IH]; intros v.
  { exists []. cbn [visit]. rewrite app_nil_r. split_and!.
    - done.
    - constructor.
    - left. split; [done | constructor].
    - intros _. constructor.
    - apply PointerEventFacts.same_handlers_refl.
    - apply same_rest_refl. }
  cbn [visit].
  destruct (visit_candidate_advance c v)
    as (flag & (new1 & Htr1 & Hall1 & Hq1 & Hs1 & _ & Hr1) & Hh1 & Hkin & _).
  cbn [fst snd] in Htr1, Hall1, Hs1, Hr1.
  assert (Forall (candidate_call (eventHandlers (visit_state v)) (c :: rest)) new1) as Hcall1.
  { destruct (isKinematic c) eqn:Hk.
    - rewrite (Hkin eq_refl) in Htr1.
      rewrite <- (app_nil_r (visit_trace v)) in Htr1 at 1.
      apply app_inv_head in Htr1. subst new1. constructor.
    - eapply Forall_impl; [exact Hall1 |]. intros e He. exists c.
      split_and!; [by left | done | done]. }
  assert (Forall (λ e, candidate_of e = Some c) new1) as Hcand1.
  { eapply Forall_impl; [exact Hall1 |]. intros e. apply registered_call_candidate. }
  destruct (visit_handled (visit_candidate c v)) eqn:Hv1.
  - exists new1. split_and!; try done.
    destruct flag.
    + right. by split.
    + left. rewrite orb_false_r in Hh1. split; [congruence | done].
  - symmetry in Hh1. apply orb_false_iff in Hh1 as [Hh0 ->].
    destruct (IH (visit_candidate c v))
      as (new2 & Htr2 & Hall2 & Hq2 & _ & Hs2 & Hr2).
    exists (new1 ++ new2). split_and!.
    + rewrite Htr2, Htr1. by rewrite app_assoc.
    + apply Forall_app. split; [done |].
      eapply Forall_impl; [exact Hall2 |]. intros e He.
      eapply candidate_call_back; [exact Hs1 |].
      eapply candidate_call_mono; [| exact He]. intros c' Hc'. by right.
    + destruct Hq2 as [[Hh2 Hq2] | [Hh2 Hl2]].
      * left. split; [congruence | by apply PointerEventFacts.quiet_app].
      * right. split; [done | by apply ends_loud_app].
    + intros Hh. congruence.
    + by eapply PointerEventFacts.same_handlers_trans.
    + by eapply same_rest_trans.
Qed.

(** *** One event *)

Lemma quiet_cons_move p evs : quiet evs → quiet (EvPointerMove p :: evs).
Proof. intros Hq. by constructor. Qed.

Lemma ends_loud_cons e evs : loud e = false → ends_loud evs → ends_loud (e :: evs).
Proof.
  intros He (pre & e' & -> & Hpre & He'). exists (e :: pre), e'.
  split_and!; [done | by constructor | done].
Qed.

Lemma dispatch_pointer_general p s tr handled :
  ∃ new,
    (dispatch_pointer p (s, tr, handled)).1.2 = tr ++ new
    ∧ Forall (λ e, (e = EvPointerMove (set_game (gameScreenX p) (gameScreenY p) p)
                    ∧ is_in POINTER_MOVE (type p) = true)
                   ∨ candidate_call (eventHandlers s) (candidates_of p) e) new
    ∧ (((dispatch_pointer p (s, tr, handled)).2 = handled ∧ quiet new)
       ∨ ((dispatch_pointer p (s, tr, handled)).2 = true ∧ ends_loud new))
    ∧ (handled = true → Forall on_viewport_only new)
    ∧ same_handlers (eventHandlers s) (eventHandlers (dispatch_pointer p (s, tr, handled)).1.1)
    ∧ activeEventList (dispatch_pointer p (s, tr, handled)).1.1 = activeEventList s
    ∧ pointerInitialized (dispatch_pointer p (s, tr, handled)).1.1 = pointerInitialized s
    ∧ T_POINTERS (dispatch_pointer p (s, tr, handled)).1.1 = T_POINTERS s ++ [p]
    ∧ (lastTimeStamp (dispatch_pointer p (s, tr, handled)).1.1 = lastTimeStamp s
       ∨ (isNormalized p = true
          ∧ timeStamp p = Some (lastTimeStamp (dispatch_pointer p (s, tr, handled)).1.1)
          ∧ (lastTimeStamp s <= lastTimeStamp (dispatch_pointer p (s, tr, handled)).1.1)%Q)).
Proof.
  unfold dispatch_pointer.
  destruct (stale p (push_T_POINTERS p s)) eqn:Hstale.
  { exists []. rewrite app_nil_r. cbn [fst snd].
    split_and!.
    - done.
    - constructor.
    - left. split; [done | constructor].
    - intros _. constructor.
    - apply PointerEventFacts.same_handlers_refl.
    - done.
    - done.
    - done.
    - by left. }
  set (s1 := set_currentPointer (pointer_rect p) _).
  assert (eventHandlers s1 = eventHandlers s ∧ activeEventList s1 = activeEventList s
          ∧ pointerInitialized s1 = pointerInitialized s ∧ T_POINTERS s1 = T_POINTERS s ++ [p])
    as (Hm1 & Ha1 & Hi1 & Hp1).
  { subst s1. by destruct (isNormalized p), (timeStamp p). }
  assert (lastTimeStamp s1 = lastTimeStamp s
          ∨ (isNormalized p = true ∧ timeStamp p = Some (lastTimeStamp s1)
             ∧ (lastTimeStamp s <= lastTimeStamp s1)%Q)) as Hl1.
  { subst s1. unfold stale in Hstale.
    destruct (isNormalized p) eqn:Hn, (timeStamp p) as [t |] eqn:Ht; cbn in *;
      try (by left).
    right. split_and!; [done | done |].
    apply Qnot_lt_le. intros Hlt. apply PointerEventFacts.older_spec in Hlt. congruence. }
  assert (head (rev (candidates_of p)) = Some viewport) as Hhead.
  { unfold candidates_of. by rewrite rev_unit. }
  assert (∀ c, c ∈ rev (candidates_of p) → c ∈ candidates_of p) as Hrev.
  { intros c Hc. apply list_elem_of_In, in_rev, list_elem_of_In. exact Hc. }
  destruct (is_in POINTER_MOVE (type p)) eqn:Hmove.
  - match goal with
    | |- context [visit ?l ?v] =>
        destruct (visit_general l v) as (new & Htr & Hall & Hq & Hv & Hs & Hr)
    end.
    unfold visit_state, visit_trace, visit_handled in *. cbn [fst snd] in *.
    destruct Hr as (Hr1 & Hr2 & Hr3 & Hr4 & _).
    exists (EvPointerMove (set_game (gameScreenX p) (gameScreenY p) p) :: new).
    split_and!.
    + rewrite Htr. by rewrite <- app_assoc.
    + constructor; [by left |].
      eapply Forall_impl; [exact Hall |]. intros e He. right.
      rewrite Hm1 in He. eapply candidate_call_mono; [| exact He]. exact Hrev.
    + destruct Hq as [[Hh Hq] | [Hh Hl]].
      * left. split; [done | by apply quiet_cons_move].
      * right. split; [done | by apply ends_loud_cons].
    + intros Hh. constructor; [by intros c |].
      eapply Forall_impl; [exact (Hv Hh) |]. intros e He c Hc.
      change (candidates_of (set_game (gameScreenX p) (gameScreenY p) p))
        with (candidates_of p) in He.
      rewrite Hhead in He. congruence.
    + by rewrite <- Hm1.
    + congruence.
    + congruence.
    + congruence.
    + rewrite Hr1. exact Hl1.
  - match goal with
    | |- context [visit ?l ?v] =>
        destruct (visit_general l v) as (new & Htr & Hall & Hq & Hv & Hs & Hr)
    end.
    unfold visit_state, visit_trace, visit_handled in *. cbn [fst snd] in *.
    destruct Hr as (Hr1 & Hr2 & Hr3 & Hr4 & _).
    exists new. split_and!.
    + exact Htr.
    + eapply Forall_impl; [exact Hall |]. intros e He. right.
      rewrite Hm1 in He. eapply candidate_call_mono; [| exact He]. exact Hrev.
    + exact Hq.
    + intros Hh. eapply Forall_impl; [exact (Hv Hh) |]. intros e He c Hc.
      rewrite Hhead in He. congruence.
    + by rewrite <- Hm1.
    + congruence.
    + congruence.
    + congruence.
    + rewrite Hr1. exact Hl1.
Qed.

(** *** A batch of events *)

Lemma handled_once_step handled tr handled' new :
  handled_once handled tr →
  (handled' = handled ∧ quiet new) ∨ (handled' = true ∧ ends_loud new) →
  (handled = true → Forall on_viewport_only new) →
  handled_once handled' (tr ++ new).
Proof.
  intros [[-> Hq] | [-> (pre & e & post & -> & Hpre & He & Hpost)]] Hstep Hview.
  - destruct Hstep as [[-> Hn] | [-> (pre & e & -> & Hpre & He)]].
    + left. split; [done |]. by apply PointerEventFacts.quiet_app.
    + right. split; [done |]. exists (tr ++ pre), e, [].
      split_and!; [by rewrite app_assoc | by apply PointerEventFacts.quiet_app | done | constructor].
  - right. split; [by destruct Hstep as [[-> _] | [-> _]] |].
    exists pre, e, (post ++ new).
    split_and!; [by rewrite <- app_assoc | done | done |].
    apply Forall_app. split; [done | by apply Hview].
Qed.

Lemma dispatch_fold_general (l : list Pointer) : ∀ s tr handled,
  ∃ new,
    (fold_left (λ d p, dispatch_pointer p d) l (s, tr, handled)).1.2 = tr ++ new
    ∧ Forall (λ e, ∃ p, p ∈ l
                ∧ ((e = EvPointerMove (set_game (gameScreenX p) (gameScreenY p) p)
                    ∧ is_in POINTER_MOVE (type p) = true)
                   ∨ candidate_call (eventHandlers s) (candidates_of p) e)) new
    ∧ (handled_once handled tr →
       handled_once (fold_left (λ d p, dispatch_pointer p d) l (s, tr, handled)).2
         (tr ++ new))
    ∧ same_handlers (eventHandlers s)
        (eventHandlers (fold_left (λ d p, dispatch_pointer p d) l (s, tr, handled)).1.1)
    ∧ activeEventList (fold_left (λ d p, dispatch_pointer p d) l (s, tr, handled)).1.1
      = activeEventList s
    ∧ pointerInitialized (fold_left (λ d p, dispatch_pointer p d) l (s, tr, handled)).1.1
      = pointerInitialized s
    ∧ T_POINTERS (fold_left (λ d p, dispatch_pointer p d) l (s, tr, handled)).1.1
      = T_POINTERS s ++ l
    ∧ (lastTimeStamp s
       <= lastTimeStamp (fold_left (λ d p, dispatch_pointer p d) l (s, tr, handled)).1.1)%Q
    ∧ (lastTimeStamp (fold_left (λ d p, dispatch_pointer p d) l (s, tr, handled)).1.1
       = lastTimeStamp s
       ∨ ∃ p, p ∈ l ∧ isNormalized p = true
              ∧ timeStamp p
                = Some (lastTimeStamp
                          (fold_left (λ d p, dispatch_pointer p d) l (s, tr, handled)).1.1)).
Proof.
  induction l as [| p l IH]; intros s tr handled; cbn [fold_left].
  { exists []. rewrite app_nil_r. cbn [fst snd]. split_and!.
    - done.
    - constructor.
    - done.
    - apply PointerEventFacts.same_handlers_refl.
    - done.
    - done.
    - by rewrite app_nil_r.
    - apply Qle_refl.
    - by left. }
  destruct (dispatch_pointer_general p s tr handled)
    as (new1 & Htr1 & Hall1 & Hq1 & Hv1 & Hs1 & Ha1 & Hi1 & Hp1 & Hl1).
  destruct (dispatch_pointer p (s, tr, handled)) as [[s1 tr1] handled1] eqn:Hd.
  cbn [fst snd] in *. subst tr1.
  destruct (IH s1 (tr ++ new1) handled1)
    as (new2 & Htr2 & Hall2 & Hh2 & Hs2 & Ha2 & Hi2 & Hp2 & Hle2 & Hl2).
  exists (new1 ++ new2). split_and!.
  - rewrite Htr2. by rewrite app_assoc.
  - apply Forall_app. split.
    + eapply Forall_impl; [exact Hall1 |]. intros e He. exists p. split; [by left | done].
    + eapply Forall_impl; [exact Hall2 |]. intros e (p' & Hp' & [Hmove | Hcall]).
      * exists p'. split; [by right | by left].
      * exists p'. split; [by right |]. right. by eapply candidate_call_back.
  - intros Hh. rewrite app_assoc. apply Hh2. by eapply handled_once_step.
  - by eapply PointerEventFacts.same_handlers_trans.
  - congruence.
  - congruence.
  - rewrite Hp2, Hp1. by rewrite <- app_assoc.
  - eapply Qle_trans; [| exact Hle2].
    destruct Hl1 as [-> | (_ & _ & Hle)]; [apply Qle_refl | done].
  - destruct Hl2 as [Heq | (p' & Hp' & Hn & Ht)].
    + rewrite Heq. destruct Hl1 as [-> | (Hn & Ht & _)]; [by left |].
      right. exists p. split_and!; [by left | done | done].
    + right. exists p'. split_and!; [by right | done | done].
Qed.

Lemma elem_of_rev {A} (x : A) (l : list A) : x ∈ rev l ↔ x ∈ l.
Proof. rewrite !list_elem_of_In. symmetry. apply in_rev. Qed.

Lemma quiet_existsb evs : quiet evs → existsb loud evs = false.
Proof.
  induction 1 as [| e evs He _ IH]; [done |]. cbn [existsb]. by rewrite He, IH.
Qed.

Lemma quiet_split pre e post pre' e' post' :
  pre ++ e :: post = pre' ++ e' :: post' →
  quiet pre → loud e = true → quiet pre' → loud e' = true →
  pre = pre' ∧ e = e' ∧ post = post'.
Proof.
  revert pre'. induction pre as [| x pre IH]; intros [| x' pre'] Heq Hq He Hq' He';
    cbn in Heq; simplify_eq.
  - done.
  - apply Forall_cons in Hq' as [Hx _]. congruence.
  - apply Forall_cons in Hq as [Hx _]. congruence.
  - apply Forall_cons in Hq as [_ Hq]. apply Forall_cons in Hq' as [_ Hq'].
    destruct (IH pre' H0 Hq He Hq' He') as (-> & -> & ->). done.
Qed.

(** X11: whatever the types of the events of a batch, [dispatchEvent]
    publishes [POINTERMOVE] only for an event of the batch whose type is
    one of [POINTER_MOVE], and calls only callbacks that were registered,
    under the type they are called with, on a candidate of an event of
    the batch that is not kinematic. *)
Theorem dispatchEvent_calls_registered_callbacks (batch : list Pointer) s :
  Forall (λ e, ∃ p, p ∈ batch
            ∧ ((e = EvPointerMove (set_game (gameScreenX p) (gameScreenY p) p)
                ∧ is_in POINTER_MOVE (type p) = true)
               ∨ candidate_call (eventHandlers s) (candidates_of p) e))
         (dispatchEvent batch s).2.
Proof.
  unfold dispatchEvent. cbn [snd].
  destruct (dispatch_fold_general (rev batch) s [] false) as (new & Htr & Hall & _).
  rewrite Htr. cbn [app].
  eapply Forall_impl; [exact Hall |]. intros e (p & Hp & He).
  exists p. split; [by apply elem_of_rev | done].
Qed.

(** X12: for an event of any type, the calls that one turn of the loop
    of [dispatchEvent] makes end with the first callback that returns
    [false]: no candidate is visited after it. *)
Theorem dispatch_pointer_stops_at_false p s tr handled :
  ∃ new,
    (dispatch_pointer p (s, tr, handled)).1.2 = tr ++ new ∧ stops_at_false new.
Proof.
  destruct (dispatch_pointer_general p s tr handled) as (new & Htr & _ & Hq & _).
  exists new. split; [done |].
  apply PointerEventFacts.closed_by_false_stops.
  destruct Hq as [[_ Hq] | [_ Hl]]; [by left | by right].
Qed.

(** X13: [dispatchEvent] returns [true] exactly when one of the
    callbacks it called returned [false]. *)
Theorem dispatchEvent_returns_handled (batch : list Pointer) s :
  (dispatchEvent batch s).1.1 = existsb loud (dispatchEvent batch s).2.
Proof.
  unfold dispatchEvent. cbn [fst snd].
  destruct (dispatch_fold_general (rev batch) s [] false) as (new & Htr & _ & Hh & _).
  rewrite Htr. cbn [app] in *.
  destruct Hh as [[-> Hq] | [-> (pre & e & post & -> & _ & He & _)]].
  - left. split; [done | constructor].
  - symmetry. by apply quiet_existsb.
  - symmetry. apply existsb_exists. exists e. split; [| done].
    apply in_or_app. right. by left.
Qed.

(** X14: [handled] is declared once for the batch and never reset: after
    the first callback that returns [false], every callback called for
    the later events of the batch is one of the viewport, the candidate
    visited first. *)
Theorem handled_reaches_viewport_only (batch : list Pointer) s pre e post :
  (dispatchEvent batch s).2 = pre ++ e :: post →
  quiet pre → loud e = true →
  Forall on_viewport_only post.
Proof.
  unfold dispatchEvent. cbn [snd]. intros Heq Hpre He.
  destruct (dispatch_fold_general (rev batch) s [] false) as (new & Htr & _ & Hh & _).
  rewrite Htr in Heq. cbn [app] in *.
  destruct Hh as [[_ Hq] | [_ (pre' & e' & post' & Hnew & Hpre' & He' & Hpost')]].
  - left. split; [done | constructor].
  - rewrite Heq in Hq. apply PointerEventFacts.quiet_app in Hq as [_ Hq].
    apply Forall_cons in Hq as [Hq _]. congruence.
  - rewrite Heq in Hnew.
    destruct (quiet_split _ _ _ _ _ _ Hnew Hpre He Hpre' He') as (_ & _ & ->). done.
Qed.

(** X15: [lastTimeStamp] never decreases: after a batch it is what it
    was, or the time stamp of a normalized event of the batch, and not
    below what it was. *)
Theorem lastTimeStamp_never_decreases (batch : list Pointer) s :
  (lastTimeStamp s <= lastTimeStamp (dispatchEvent batch s).1.2)%Q
  ∧ (lastTimeStamp (dispatchEvent batch s).1.2 = lastTimeStamp s
     ∨ ∃ p, p ∈ batch ∧ isNormalized p = true
            ∧ timeStamp p = Some (lastTimeStamp (dispatchEvent batch s).1.2)).
Proof.
  unfold dispatchEvent. cbn [fst snd].
  destruct (dispatch_fold_general (rev batch) s [] false)
    as (new & _ & _ & _ & _ & _ & _ & _ & Hle & Hl).
  split; [done |].
  destruct Hl as [Heq | (p & Hp & Hn & Ht)]; [by left |].
  right. exists p. split_and!; [by apply elem_of_rev | done | done].
Qed.

(** X16: every event of a batch, stale or not, is pushed back on the
    pool [T_POINTERS], and nothing else is: the pool grows by the length
    of the batch. *)
Theorem dispatchEvent_refills_pool (batch : list Pointer) s :
  length (T_POINTERS (dispatchEvent batch s).1.2)
  = (length (T_POINTERS s) + length batch)%nat.
Proof.
  unfold dispatchEvent. cbn [fst snd].
  destruct (dispatch_fold_general (rev batch) s [] false)
    as (new & _ & _ & _ & _ & _ & _ & Hp & _).
  rewrite Hp, length_app. by rewrite length_rev.
Qed.

(** *** Which pointer a region holds *)

Lemma writes_refl i m : writes i m m.
Proof. intros c. by left. Qed.

Lemma writes_trans i m1 m2 m3 : writes i m1 m2 → writes i m2 m3 → writes i m1 m3.
Proof.
  intros H12 H23 c. destruct (H23 c) as [-> | ->]; [apply H12 | by right].
Qed.

Lemma writes_insert i m c h :
  m !! c = Some h → writes i m (<[c := set_handlers_pointerId i h]> m).
Proof.
  intros Hc c'. unfold holder. destruct (decide (c' = c)) as [-> | Hne].
  - right. by rewrite lookup_insert_eq.
  - left. by rewrite lookup_insert_ne.
Qed.

Lemma triggerEvent_cases c t p i st :
  triggerEvent c t p i st = (false, st)
  ∨ ∃ h, eventHandlers st.1 !! c = Some h
         ∧ eventHandlers (triggerEvent c t p i st).2.1
           = <[c := set_handlers_pointerId i h]> (eventHandlers st.1).
Proof.
  unfold triggerEvent.
  destruct (eventHandlers st.1 !! c) as [h |]; [| by left].
  destruct (callbacks h !! key t); [| by left].
  right. by exists h.
Qed.

Lemma up_or_cancel t :
  t ∈ POINTER_UP ++ POINTER_CANCEL →
  (switch (Some t) = UpCase ∨ switch (Some t) = CancelCase)
  ∧ is_in POINTER_MOVE (Some t) = false.
Proof.
  intros Ht. apply list_elem_of_In in Ht. simpl in Ht.
  destruct Ht as [<- | [<- | [<- | [<- | [<- | [<- | []]]]]]]; vm_compute; auto.
Qed.

(** a visit of [c] for an event that is no move leaves the state and the
    trace, or writes the [pointerId] of [c]; for an up and a cancel it
    writes only when [c] holds the pointer of the event *)
Lemma visit_candidate_holder c p s tr handled t :
  type p = Some t → switch (Some t) ≠ MoveCase →
  type (visit_candidate c (p, s, tr, handled)).1.1.1 = Some t
  ∧ pointerId (visit_candidate c (p, s, tr, handled)).1.1.1 = pointerId p
  ∧ ((visit_state (visit_candidate c (p, s, tr, handled)) = s
      ∧ visit_trace (visit_candidate c (p, s, tr, handled)) = tr)
     ∨ ∃ h, eventHandlers s !! c = Some h
            ∧ eventHandlers (visit_state (visit_candidate c (p, s, tr, handled)))
              = <[c := set_handlers_pointerId (written t (pointerId p)) h]> (eventHandlers s)
            ∧ (switch (Some t) = DefaultCase
               ∨ handlers_pointerId h = Some (pointerId p))).
Proof.
  intros Ht Hsw. unfold visit_candidate, visit_state, visit_trace.
  destruct (eventHandlers s !! c) as [h |] eqn:Hc; [| by split_and!; [| | left]].
  destruct (isKinematic c); cbn [negb]; [by split_and!; [| | left] |].
  set (p1 := if isFloating (region h) then _ else _).
  set (p2 := match ancestor_bounds (region h) with Some _ => _ | None => _ end).
  assert (type p2 = Some t ∧ pointerId p2 = pointerId p) as [Ht2 Hid2].
  { subst p2 p1. by destruct (ancestor_bounds _) as [[bx by_] |], (isFloating _). }
  rewrite Ht2. unfold written. rewrite <- Hid2.
  destruct (switch (Some t)) eqn:Hcase; [done | | |].
  - destruct (same_id _ _ && _) eqn:Hcond; cbn [fst snd]; [| by split_and!; [| | left]].
    apply andb_true_iff in Hcond as [Hsame _]. apply bool_decide_eq_true in Hsame.
    split_and!; [done | done |].
    destruct (triggerEvent_cases c (Some t) p2 None (s, tr)) as [-> | (h' & Hh' & Heq)].
    + by left.
    + right. exists h. cbn [fst snd] in *. rewrite Hc in Hh'. simplify_eq.
      split_and!; [done | done | by right].
  - destruct (same_id _ _) eqn:Hsame; cbn [fst snd]; [| by split_and!; [| | left]].
    apply bool_decide_eq_true in Hsame.
    split_and!; [done | done |].
    destruct (triggerEvent_cases c (Some t) p2 None (s, tr)) as [-> | (h' & Hh' & Heq)].
    + by left.
    + right. exists h. cbn [fst snd] in *. rewrite Hc in Hh'. simplify_eq.
      split_and!; [done | done | by right].
  - destruct (bounds_contains _ _ _); cbn [fst snd]; [| by split_and!; [| | left]].
    split_and!; [done | done |].
    destruct (triggerEvent_cases c (Some t) p2 (Some (pointerId p2)) (s, tr))
      as [-> | (h' & Hh' & Heq)].
    + by left.
    + right. exists h. cbn [fst snd] in *. rewrite Hc in Hh'. simplify_eq.
      split_and!; [done | done | by left].
Qed.

Lemma visit_holder candidates : ∀ p s tr handled t,
  type p = Some t → switch (Some t) ≠ MoveCase →
  ∃ new,
    visit_trace (visit candidates (p, s, tr, handled)) = tr ++ new
    ∧ writes (written t (pointerId p)) (eventHandlers s)
        (eventHandlers (visit_state (visit candidates (p, s, tr, handled))))
    ∧ Forall (λ e, ∀ c, candidate_of e = Some c →
                holder (eventHandlers (visit_state (visit candidates (p, s, tr, handled)))) c
                = Some (written t (pointerId p))
                ∧ (switch (Some t) = DefaultCase
                   ∨ holder (eventHandlers s) c = Some (Some (pointerId p)))) new.
Proof.
  induction candidates as [| c rest IH]; intros p s tr handled t Ht Hsw; cbn [visit].
  { exists []. rewrite app_nil_r. split_and!; [done | apply writes_refl | constructor]. }
  destruct (visit_candidate_advance c (p, s, tr, handled))
    as (flag & (new1 & Htr1 & Hall1 & _) & _).
  destruct (visit_candidate_holder c p s tr handled t Ht Hsw) as (Ht1 & Hid1 & Hcases).
  unfold visit_state, visit_trace, visit_handled in *. cbn [fst snd] in *.
  destruct (visit_candidate c (p, s, tr, handled)) as [[[p1 s1] tr1] handled1] eqn:Hv.
  cbn [fst snd] in *. subst tr1.
  assert (writes (written t (pointerId p)) (eventHandlers s) (eventHandlers s1)
          ∧ Forall (λ e, ∀ c', candidate_of e = Some c' →
                      holder (eventHandlers s1) c' = Some (written t (pointerId p))
                      ∧ (switch (Some t) = DefaultCase
                         ∨ holder (eventHandlers s) c' = Some (Some (pointerId p)))) new1)
    as [Hw1 Hnew1].
  { destruct Hcases as [[-> Htr] | (h & Hc & -> & Hor)].
    - split; [apply writes_refl |].
      rewrite <- (app_nil_r tr) in Htr at 2. apply app_inv_head in Htr. subst new1.
      constructor.
    - split; [by apply writes_insert |].
      eapply Forall_impl; [exact Hall1 |]. intros e He c' Hc'.
      rewrite (registered_call_candidate _ _ _ He) in Hc'. simplify_eq.
      unfold holder. rewrite lookup_insert_eq, Hc. cbn. split; [done |].
      destruct Hor as [Hd | ->]; [by left | by right]. }
  destruct handled1.
  { exists new1. by split_and!. }
  destruct (IH p1 s1 (tr ++ new1) false t Ht1 Hsw) as (new2 & Htr2 & Hw2 & Hnew2).
  rewrite Hid1 in Hw2, Hnew2.
  exists (new1 ++ new2). split_and!.
  - rewrite Htr2. by rewrite app_assoc.
  - by eapply writes_trans.
  - apply Forall_app. split.
    + eapply Forall_impl; [exact Hnew1 |]. intros e He c' Hc'.
      destruct (He c' Hc') as [Hh1 Hor]. split; [| done].
      destruct (Hw2 c') as [-> | ->]; done.
    + eapply Forall_impl; [exact Hnew2 |]. intros e He c' Hc'.
      destruct (He c' Hc') as [Hh2 Hor]. split; [done |].
      destruct Hor as [Hd | Hh1]; [by left |].
      destruct (Hw1 c') as [<- | Hset]; [by right |].
      rewrite Hh1 in Hset. unfold written in Hset.
      destruct (switch (Some t)); simplify_eq. by left.
Qed.

Lemma dispatch_pointer_holder p s tr handled t :
  type p = Some t → switch (Some t) ≠ MoveCase → is_in POINTER_MOVE (Some t) = false →
  ∃ new,
    (dispatch_pointer p (s, tr, handled)).1.2 = tr ++ new
    ∧ Forall (λ e, ∀ c, candidate_of e = Some c →
                holder (eventHandlers (dispatch_pointer p (s, tr, handled)).1.1) c
                = Some (written t (pointerId p))
                ∧ (switch (Some t) = DefaultCase
                   ∨ holder (eventHandlers s) c = Some (Some (pointerId p)))) new.
Proof.
  intros Ht Hsw Hmove. unfold dispatch_pointer.
  destruct (stale p (push_T_POINTERS p s)).
  { exists []. rewrite app_nil_r. split; [done | constructor]. }
  rewrite Ht, Hmove.
  match goal with
  | |- context [visit ?l (p, ?s1, tr, handled)] =>
      destruct (visit_holder l p s1 tr handled t Ht Hsw) as (new & Htr & _ & Hall);
      assert (eventHandlers s1 = eventHandlers s) as Hm
        by (by destruct (isNormalized p), (timeStamp p))
  end.
  exists new. cbn [fst snd]. split; [exact Htr |].
  rewrite Hm in Hall. exact Hall.
Qed.

(** X17: a [pointerup] or a [pointercancel] (or their mouse and touch
    forms) calls callbacks only on a region whose handlers hold the id
    of the pointer of the event, as a move, a down or a wheel event of
    that pointer left it, and after the event the handlers of every
    region that was called hold no pointer. *)
Theorem release_reaches_holders_only p s tr handled t :
  type p = Some t → t ∈ POINTER_UP ++ POINTER_CANCEL →
  ∃ new,
    (dispatch_pointer p (s, tr, handled)).1.2 = tr ++ new
    ∧ Forall (λ e, ∀ c, candidate_of e = Some c →
                holder (eventHandlers s) c = Some (Some (pointerId p))
                ∧ holder (eventHandlers (dispatch_pointer p (s, tr, handled)).1.1) c
                  = Some None) new.
Proof.
  intros Ht Hin. destruct (up_or_cancel t Hin) as [Hsw Hmove].
  destruct (dispatch_pointer_holder p s tr handled t Ht) as (new & Htr & Hall).
  { destruct Hsw as [-> | ->]; done. }
  { done. }
  exists new. split; [done |].
  eapply Forall_impl; [exact Hall |]. intros e He c Hc.
  destruct (He c Hc) as [Hafter Hbefore]. unfold written in Hafter. split.
  - destruct Hbefore as [Hd | Hb]; [| done]. destruct Hsw; congruence.
  - by destruct Hsw as [Hsw | Hsw]; rewrite Hsw in Hafter.
Qed.

(** X18: after a [pointerdown] or a [wheel] event (or their mouse and
    touch forms), the handlers of every region that was called hold the
    id of the pointer of the event. *)
Theorem press_records_pointer p s tr handled t :
  type p = Some t → t ∈ POINTER_DOWN ++ WHEEL →
  ∃ new,
    (dispatch_pointer p (s, tr, handled)).1.2 = tr ++ new
    ∧ Forall (λ e, ∀ c, candidate_of e = Some c →
                holder (eventHandlers (dispatch_pointer p (s, tr, handled)).1.1) c
                = Some (Some (pointerId p))) new.
Proof.
  intros Ht Hin. destruct (PointerEventFacts.down_or_wheel_default t Hin) as [Hsw Hmove].
  destruct (dispatch_pointer_holder p s tr handled t Ht) as (new & Htr & Hall).
  { by rewrite Hsw. }
  { done. }
  exists new. split; [done |].
  eapply Forall_impl; [exact Hall |]. intros e He c Hc.
  destruct (He c Hc) as [Hafter _]. unfold written in Hafter. by rewrite Hsw in Hafter.
Qed.

End Facts.

Section Runs.
Import Sample MoreSample.

Lemma triggerEvent_calls_last_registered_first_witness :
  (∀ cbs, callbacks (handlers_of three_regions 2%nat) !! key (Some "pointerdown") = Some cbs →
     (triggerEvent 2%nat (Some "pointerdown") (pointerdown 25 5) (Some 1%nat)
        (three_regions, [])).2.2
     = [] ++ ((λ cb, EvCallback 2%nat (key (Some "pointerdown")) cb (pointerdown 25 5))
                <$> until_false (pointerdown 25 5) (rev cbs))
     ∧ ((triggerEvent 2%nat (Some "pointerdown") (pointerdown 25 5) (Some 1%nat)
           (three_regions, [])).1 = true
        ↔ ∃ cb, cb ∈ cbs ∧ returns_false cb (pointerdown 25 5) = true)
     ∧ (triggerEvent 2%nat (Some "pointerdown") (pointerdown 25 5) (Some 1%nat)
          (three_regions, [])).2.1
       = set_eventHandlers
           (<[2%nat := set_handlers_pointerId (Some 1%nat) (handlers_of three_regions 2%nat)]>
              (eventHandlers three_regions)) three_regions)
  ∧ (callbacks (handlers_of three_regions 2%nat) !! key (Some "pointerdown") = None →
     triggerEvent 2%nat (Some "pointerdown") (pointerdown 25 5) (Some 1%nat)
       (three_regions, [])
     = (false, (three_regions, []))).
Proof.
  apply (triggerEvent_calls_last_registered_first 2%nat (Some "pointerdown")
           (pointerdown 25 5) (Some 1%nat) three_regions [] (handlers_of three_regions 2%nat)).
  vm_compute. reflexivity.
Defined.

Lemma handled_reaches_viewport_only_witness :
  Forall on_viewport_only
    (drop 3 (dispatchEvent [pointerdown 15 5; pointerdown 25 5] three_regions).2).
Proof.
  apply (handled_reaches_viewport_only [pointerdown 15 5; pointerdown 25 5] three_regions
           (take 2 (dispatchEvent [pointerdown 15 5; pointerdown 25 5] three_regions).2)
           (default (EvPointerMove Pointer_new)
              ((dispatchEvent [pointerdown 15 5; pointerdown 25 5] three_regions).2 !! 2%nat))).
  - vm_compute. reflexivity.
  - vm_compute. repeat constructor.
  - vm_compute. reflexivity.
Defined.

Lemma release_reaches_holders_only_witness :
  ∃ new,
    (dispatch_pointer (pointerup 25 5) (pressed, [], false)).1.2 = [] ++ new
    ∧ Forall (λ e, ∀ c, candidate_of e = Some c →
                holder (eventHandlers pressed) c = Some (Some (pointerId (pointerup 25 5)))
                ∧ holder (eventHandlers
                            (dispatch_pointer (pointerup 25 5) (pressed, [], false)).1.1) c
                  = Some None) new.
Proof.
  apply (release_reaches_holders_only (pointerup 25 5) pressed [] false "pointerup").
  - reflexivity.
  - apply (bool_decide_unpack _). vm_compute. exact I.
Defined.

(** the release reaches region 2 once it has been pressed, and only
    then; a second release reaches nothing *)
Example release_after_press :
  called (dispatchEvent [pointerup 25 5] pressed).2 = [(2%nat, 6%nat)]
  ∧ called (dispatchEvent [pointerup 25 5] press_release).2 = []
  ∧ called (dispatchEvent [pointerup 25 5]
              (dispatchEvent [pointerup 25 5] pressed).1.2).2 = [].
Proof. split_and!; vm_compute; reflexivity. Qed.

Lemma press_records_pointer_witness :
  ∃ new,
    (dispatch_pointer (pointerdown 25 5) (press_release, [], false)).1.2 = [] ++ new
    ∧ Forall (λ e, ∀ c, candidate_of e = Some c →
                holder (eventHandlers
                          (dispatch_pointer (pointerdown 25 5) (press_release, [], false)).1.1) c
                = Some (Some (pointerId (pointerdown 25 5)))) new.
Proof.
  apply (press_records_pointer (pointerdown 25 5) press_release [] false "pointerdown").
  - reflexivity.
  - apply (bool_decide_unpack _). vm_compute. exact I.
Defined.

End Runs.
End DispatchFacts.

(** ** The table of handlers: what the interface keeps true of it, and
    [releaseAllPointerEvents] and [Draggable] on top of it *)

Module TableFacts.
Import PointerEvent PointerEventMore RegistrationFacts DispatchFacts.

Section Facts.
Context {E : Env}.
Implicit Types (s : State) (r c : RegionId) (cb : Callback) (t k : string)
  (cbs : gmap string (list Callback)) (m : gmap RegionId Handlers).

Lemma set_set m m' s :
  set_eventHandlers m (set_eventHandlers m' s) = set_eventHandlers m s.
Proof. by destruct s. Qed.

Lemma same_frame m m' s s' :
  set_eventHandlers m s' = s → set_eventHandlers m' s' = set_eventHandlers m' s.
Proof. intros <-. by rewrite set_set. Qed.

Lemma frame_active m s s' :
  set_eventHandlers m s' = s →
  activeEventList s' = activeEventList s ∧ pointerInitialized s' = pointerInitialized s.
Proof. intros <-. by destruct s'. Qed.

Lemma variants_same s s' t :
  activeEventList s' = activeEventList s → variants s' t = variants s t.
Proof. unfold variants. by intros ->. Qed.

Lemma callbacks_at_Some s r h : eventHandlers s !! r = Some h → callbacks_at s r = callbacks h.
Proof. unfold callbacks_at. by intros ->. Qed.

Lemma callbacks_at_None s r : eventHandlers s !! r = None → callbacks_at s r = ∅.
Proof. unfold callbacks_at. by intros ->. Qed.

(** *** The invariant *)

Lemma well_formed_initial : well_formed initial.
Proof.
  split.
  - intros r h Hr. cbn in Hr. by rewrite lookup_empty in Hr.
  - done.
  - done.
Qed.

Lemma well_formed_enable s : well_formed s → well_formed (enablePointerEvent s).
Proof.
  intros Hwf. unfold enablePointerEvent.
  destruct (pointerInitialized s) eqn:Hi; [done |].
  pose proof (wf_fresh s Hwf Hi) as Hempty.
  split; cbn [eventHandlers activeEventList pointerInitialized].
  - intros r h Hr. rewrite Hempty in Hr. by rewrite lookup_empty in Hr.
  - done.
  - intros _. unfold active_events.
    destruct device_pointerEvent, device_touch; cbn [andb negb]; by rewrite ?app_nil_r.
Qed.

Lemma well_formed_initialized s r h :
  well_formed s → eventHandlers s !! r = Some h → pointerInitialized s = true.
Proof.
  intros Hwf Hr. destruct (pointerInitialized s) eqn:Hi; [done |].
  rewrite (wf_fresh s Hwf Hi) in Hr. by rewrite lookup_empty in Hr.
Qed.

Lemma well_formed_register t region cb s :
  well_formed s → well_formed (outcome_state (registerPointerEvent t region cb s)).
Proof.
  intros Hwf. pose proof (well_formed_enable s Hwf) as Hwe.
  destruct (decide (t ∈ pointerEventList)) as [Ht | Ht].
  2:{ unfold registerPointerEvent. by rewrite bool_decide_eq_false_2. }
  destruct region as [r |].
  2:{ unfold registerPointerEvent. by rewrite bool_decide_eq_true_2. }
  rewrite (registerPointerEvent_Ok t r cb s Ht). cbn [outcome_state].
  assert (pointerInitialized (enablePointerEvent s) = true) as Hinit.
  { unfold enablePointerEvent. by destruct (pointerInitialized s) eqn:Hs. }
  pose proof (wf_active _ Hwe Hinit) as Hactive.
  assert (callbacks_at s r = callbacks_at (enablePointerEvent s) r) as Hat.
  { unfold callbacks_at. by rewrite PointerEventFacts.eventHandlers_enable. }
  rewrite Hat. rewrite <- (PointerEventFacts.eventHandlers_enable s).
  set (se := enablePointerEvent s) in *.
  set (cbs' := fold_left (register_type cb) (variants se t) (callbacks_at se r)).
  assert (∀ k, cbs' !! k
               = if bool_decide (k ∈ variants se t)
                 then Some (default [] (callbacks_at se r !! k) ++ [cb])
                 else callbacks_at se r !! k) as Hlook
    by (intros k; apply fold_register_lookup, variants_NoDup).
  split; cbn [eventHandlers set_eventHandlers activeEventList pointerInitialized].
  - intros r' h' Hr'. destruct (decide (r' = r)) as [-> | Hne].
    2:{ rewrite lookup_insert_ne in Hr' by done. by apply (wf_tidy _ Hwe). }
    rewrite lookup_insert_eq in Hr'. simplify_eq.
    unfold tidy. cbn [region callbacks set_callbacks]. split_and!.
    + destruct (eventHandlers se !! r) as [h |] eqn:Hr; [| done].
      by destruct (wf_tidy _ Hwe r h Hr).
    + destruct (active_has_variant t Ht) as (k & Hk1 & Hk2).
      intros Hempty. pose proof (Hlook k) as Hk.
      rewrite Hempty, lookup_empty in Hk.
      rewrite bool_decide_eq_true_2 in Hk; [done |].
      apply elem_of_variants. by rewrite Hactive.
    + intros k l Hk. rewrite Hlook in Hk.
      destruct (bool_decide (k ∈ variants se t)).
      * simplify_eq. by destruct (default [] _).
      * unfold callbacks_at in Hk.
        destruct (eventHandlers se !! r) as [h |] eqn:Hr; cbn in Hk;
          [| by rewrite lookup_empty in Hk].
        destruct (wf_tidy _ Hwe r h Hr) as (_ & _ & Hfull & _). by eapply Hfull.
    + intros k Hk. rewrite Hlook in Hk.
      destruct (bool_decide (k ∈ variants se t)) eqn:Hin.
      * apply bool_decide_eq_true_1 in Hin. by exists t.
      * unfold callbacks_at in Hk.
        destruct (eventHandlers se !! r) as [h |] eqn:Hr; cbn in Hk;
          [| rewrite lookup_empty in Hk; by destruct Hk].
        destruct (wf_tidy _ Hwe r h Hr) as (_ & _ & _ & Hknown). by apply Hknown.
  - congruence.
  - done.
Qed.

Lemma fold_release_sub (callback : option Callback) (ts : list string) : ∀ cbs,
  (∀ k l, cbs !! k = Some l → l ≠ []) →
  ∀ k l, fold_left (release_type callback) ts cbs !! k = Some l →
         l ≠ [] ∧ is_Some (cbs !! k).
Proof.
  induction ts as [| t ts IH]; intros cbs Hfull k l Hk; cbn [fold_left] in Hk.
  { split; [by eapply Hfull | by eexists]. }
  assert (∀ k l, release_type callback cbs t !! k = Some l → l ≠ [] ∧ is_Some (cbs !! k))
    as Hstep.
  { intros k' l' Hk'. unfold release_type in Hk'.
    destruct (cbs !! t) as [l0 |] eqn:Ht.
    2:{ split; [by eapply Hfull | by eexists]. }
    destruct (bool_decide _) eqn:Hlen.
    - destruct (decide (k' = t)) as [-> | Hne].
      + by rewrite lookup_delete_eq in Hk'.
      + rewrite lookup_delete_ne in Hk' by done. split; [by eapply Hfull | by eexists].
    - destruct (decide (k' = t)) as [-> | Hne].
      + rewrite lookup_insert_eq in Hk'. simplify_eq.
        apply bool_decide_eq_false_1 in Hlen. split; [| by eexists].
        intros Hnil. by rewrite Hnil in Hlen.
      + rewrite lookup_insert_ne in Hk' by done. split; [by eapply Hfull | by eexists]. }
  destruct (IH (release_type callback cbs t) (λ k l H, proj1 (Hstep k l H)) k l Hk)
    as [Hl Hsome].
  split; [done |]. destruct Hsome as [l' Hl']. by apply (Hstep k l').
Qed.

Lemma well_formed_release t r (callback : option Callback) s :
  well_formed s → well_formed (outcome_state (releasePointerEvent t r callback s)).
Proof.
  intros Hwf. unfold releasePointerEvent.
  destruct (negb _); [done |].
  destruct (eventHandlers s !! r) as [h |] eqn:Hr; [| done].
  pose proof (well_formed_initialized s r h Hwf Hr) as Hinit.
  destruct (wf_tidy _ Hwf r h Hr) as (Hreg & _ & Hfull & Hknown).
  fold (variants s t).
  set (cbs' := fold_left (release_type callback) (variants s t) (callbacks h)).
  destruct (bool_decide (size cbs' = 0)) eqn:Hsize; cbn [outcome_state].
  - split; cbn [eventHandlers set_eventHandlers activeEventList pointerInitialized].
    + intros r' h' Hr'. destruct (decide (r' = r)) as [-> | Hne].
      * by rewrite lookup_delete_eq in Hr'.
      * rewrite lookup_delete_ne in Hr' by done. by apply (wf_tidy _ Hwf).
    + congruence.
    + by apply (wf_active _ Hwf).
  - apply bool_decide_eq_false_1 in Hsize.
    split; cbn [eventHandlers set_eventHandlers activeEventList pointerInitialized].
    + intros r' h' Hr'. destruct (decide (r' = r)) as [-> | Hne].
      2:{ rewrite lookup_insert_ne in Hr' by done. by apply (wf_tidy _ Hwf). }
      rewrite lookup_insert_eq in Hr'. simplify_eq.
      unfold tidy. cbn [region callbacks set_callbacks]. split_and!.
      * done.
      * by rewrite <- map_size_empty_iff.
      * intros k l Hk. by destruct (fold_release_sub callback _ _ Hfull k l Hk).
      * intros k [l Hk]. apply Hknown.
        by destruct (fold_release_sub callback _ _ Hfull k l Hk).
    + congruence.
    + by apply (wf_active _ Hwf).
Qed.

Lemma well_formed_release_types (ts : list string) r s :
  well_formed s → well_formed (outcome_state (release_types ts r s)).
Proof.
  unfold release_types. intros Hwf.
  assert (well_formed (outcome_state (Ok s))) as Ho by done.
  revert Ho. generalize (Ok s). clear Hwf.
  induction ts as [| t ts IH]; intros o Ho; cbn [fold_left]; [done |].
  apply IH. destruct o as [s' | msg s']; [| done].
  by apply well_formed_release.
Qed.

Lemma well_formed_same s s' :
  well_formed s →
  same_handlers (eventHandlers s) (eventHandlers s') →
  activeEventList s' = activeEventList s →
  pointerInitialized s' = pointerInitialized s →
  well_formed s'.
Proof.
  intros Hwf Hsame Ha Hi. split.
  - intros r h' Hr'. pose proof (Hsame r) as Hc. rewrite Hr' in Hc.
    destruct (eventHandlers s !! r) as [h |] eqn:Hr; [| done].
    cbn in Hc. unfold core in Hc. injection Hc as Hreg' Hcbs'.
    destruct (wf_tidy _ Hwf r h Hr) as (Hreg & Hne & Hfull & Hknown).
    unfold tidy. rewrite Ha. rewrite <- Hreg', <- Hcbs'. by split_and!.
  - rewrite Hi. intros Hf. apply map_empty. intros r.
    pose proof (Hsame r) as Hc. rewrite (wf_fresh _ Hwf Hf), lookup_empty in Hc.
    by destruct (eventHandlers s' !! r).
  - rewrite Hi, Ha. by apply (wf_active _ Hwf).
Qed.

(** X19: the table of handlers stays tidy.  It is tidy when the module
    is loaded, and initialising the module, registering, releasing a
    type (all callbacks or one), releasing a region, whether the call
    returns or throws, and dispatching a batch of events keep it tidy:
    every entry is stored under its own region, has at least one array
    of callbacks, no empty array, and arrays only under active variants
    of the supported types. *)
Theorem table_stays_tidy :
  well_formed initial
  ∧ ∀ s, well_formed s →
      well_formed (enablePointerEvent s)
      ∧ (∀ t region cb, well_formed (outcome_state (registerPointerEvent t region cb s)))
      ∧ (∀ t r callback, well_formed (outcome_state (releasePointerEvent t r callback s)))
      ∧ (∀ r, well_formed (outcome_state (releaseAllPointerEvents r s)))
      ∧ (∀ batch, well_formed (dispatchEvent batch s).1.2).
Proof.
  split; [apply well_formed_initial |]. intros s Hwf. split_and!.
  - by apply well_formed_enable.
  - intros t region cb. by apply well_formed_register.
  - intros t r callback. by apply well_formed_release.
  - intros r. unfold releaseAllPointerEvents.
    destruct (bool_decide _); [by apply well_formed_release_types | done].
  - intros batch. unfold dispatchEvent. cbn [fst snd].
    destruct (dispatch_fold_general (rev batch) s [] false)
      as (new & _ & _ & _ & Hsame & Ha & Hi & _).
    by eapply well_formed_same.
Qed.

(** *** Releasing several types *)

Lemma release_types_cons t (ts : list string) r s s' :
  releasePointerEvent t r None s = Ok s' →
  release_types (t :: ts) r s = release_types ts r s'.
Proof. intros Hrel. unfold release_types. cbn [fold_left]. by rewrite Hrel. Qed.

Lemma release_types_spec r (ts : list string) : ∀ s,
  Forall (λ t, t ∈ pointerEventList) ts →
  ∃ s1,
    release_types ts r s = Ok s1
    ∧ set_eventHandlers (eventHandlers s) s1 = s
    ∧ (∀ r', r' ≠ r → eventHandlers s1 !! r' = eventHandlers s !! r')
    ∧ (∀ k, Exists (λ t, k ∈ variants s t) ts → callbacks_at s1 r !! k = None)
    ∧ (∀ k, ¬ Exists (λ t, k ∈ variants s t) ts →
            callbacks_at s1 r !! k = callbacks_at s r !! k)
    ∧ (is_Some (eventHandlers s1 !! r)
       ↔ is_Some (eventHandlers s !! r) ∧ (ts = [] ∨ callbacks_at s1 r ≠ ∅)).
Proof.
  induction ts as [| t ts IH]; intros s Hts.
  { exists s. split_and!.
    - done.
    - by destruct s.
    - done.
    - intros k Hk. by apply Exists_nil in Hk.
    - done.
    - split; [by intros ?; split; [| left] | by intros [? _]]. }
  apply Forall_cons in Hts as [Ht Hts].
  destruct (release_step t r s Ht) as (s' & Hrel & Hlook & Hsome & Hother & Hframe).
  destruct (IH s' Hts) as (s1 & Hrel1 & Hframe1 & Hother1 & Hin1 & Hout1 & Hsome1).
  destruct (frame_active _ _ _ Hframe) as [Ha _].
  assert (∀ k, Exists (λ t, k ∈ variants s' t) ts ↔ Exists (λ t, k ∈ variants s t) ts) as Hex.
  { intros k. apply Exists_proper; [| done]. intros t'.
    by rewrite (variants_same s s' t' Ha). }
  exists s1. split_and!.
  - by rewrite (release_types_cons t ts r s s' Hrel).
  - rewrite (same_frame _ (eventHandlers s) _ _ Hframe1). exact Hframe.
  - intros r' Hne. by rewrite Hother1, Hother.
  - intros k Hk.
    destruct (decide (Exists (λ t, k ∈ variants s t) ts)) as [Hts' | Hts'].
    + apply Hin1. by apply Hex.
    + rewrite Hout1 by (by rewrite Hex). rewrite Hlook.
      apply Exists_cons in Hk as [Hk | Hk]; [| done].
      by rewrite bool_decide_eq_true_2.
  - intros k Hk. rewrite Hout1.
    + rewrite Hlook. rewrite bool_decide_eq_false_2; [done |].
      intros Hin. apply Hk. by left.
    + rewrite Hex. intros Hin. apply Hk. by right.
  - split.
    + intros Hs1. apply Hsome1 in Hs1 as [Hs' Hor]. apply Hsome in Hs' as [Hs Hne'].
      split; [done |]. right. destruct Hor as [-> | Hne1]; [| done].
      cbn in Hrel1. by simplify_eq.
    + intros [Hs [Hnil | Hne1]]; [done |].
      apply Hsome1. split; [| by right]. apply Hsome. split; [done |].
      apply map_choose in Hne1 as (k & l & Hk). intros Hempty.
      destruct (decide (Exists (λ t, k ∈ variants s' t) ts)) as [Hts' | Hts'].
      * by rewrite Hin1 in Hk.
      * rewrite Hout1, Hempty, lookup_empty in Hk by done. done.
Qed.

Lemma release_types_clears r (ts : list string) s :
  ts ≠ [] → Forall (λ t, t ∈ pointerEventList) ts →
  (∀ k, is_Some (callbacks_at s r !! k) → Exists (λ t, k ∈ variants s t) ts) →
  release_types ts r s = Ok (set_eventHandlers (delete r (eventHandlers s)) s).
Proof.
  intros Hne Hts Hkeys.
  destruct (release_types_spec r ts s Hts)
    as (s1 & Hrel & Hframe & Hother & Hin & Hout & Hsome).
  rewrite Hrel. f_equal.
  assert (callbacks_at s1 r = ∅) as Hempty.
  { apply map_empty. intros k.
    destruct (decide (Exists (λ t, k ∈ variants s t) ts)) as [Hk | Hk]; [by apply Hin |].
    rewrite Hout by done.
    destruct (callbacks_at s r !! k) eqn:Hl; [| done].
    exfalso. apply Hk, Hkeys. by eexists. }
  assert (eventHandlers s1 = delete r (eventHandlers s)) as Hm.
  { apply map_eq. intros r'. destruct (decide (r' = r)) as [-> | Hne'].
    - rewrite lookup_delete_eq. apply eq_None_not_Some. intros Hs.
      apply Hsome in Hs as [_ [? | ?]]; done.
    - rewrite lookup_delete_ne by done. by apply Hother. }
  rewrite <- Hm. rewrite <- (PointerEventFacts.set_eventHandlers_id s1) at 1.
  by apply (same_frame (eventHandlers s)).
Qed.

(** X20: on a tidy table [releaseAllPointerEvents] never throws and
    removes the entry of the region, with all its callbacks, and nothing
    else. *)
Theorem releaseAllPointerEvents_removes_region r s :
  well_formed s →
  releaseAllPointerEvents r s = Ok (set_eventHandlers (delete r (eventHandlers s)) s).
Proof.
  intros Hwf. unfold releaseAllPointerEvents.
  destruct (eventHandlers s !! r) as [h |] eqn:Hr.
  - rewrite bool_decide_eq_true_2 by (by eexists).
    apply release_types_clears.
    + done.
    + apply Forall_forall. by intros t Ht.
    + intros k Hk. rewrite (callbacks_at_Some s r h Hr) in Hk.
      destruct (wf_tidy _ Hwf r h Hr) as (_ & _ & _ & Hknown).
      destruct (Hknown k Hk) as (t & Ht & Hin).
      apply Exists_exists. by exists t.
  - rewrite bool_decide_eq_false_2 by (by intros [? ?]).
    rewrite delete_id by done. by rewrite PointerEventFacts.set_eventHandlers_id.
Qed.

(** *** [Draggable] *)

Lemma register_step_next t r cb s :
  t ∈ pointerEventList →
  ∃ s1,
    registerPointerEvent t (Some r) cb s = Ok s1
    ∧ is_Some (eventHandlers s1 !! r)
    ∧ (∀ k, is_Some (callbacks_at s1 r !! k) →
            k ∈ variants (enablePointerEvent s) t ∨ is_Some (callbacks_at s r !! k))
    ∧ (∀ r', r' ≠ r → eventHandlers s1 !! r' = eventHandlers s !! r')
    ∧ set_eventHandlers (eventHandlers s) s1 = enablePointerEvent s
    ∧ enablePointerEvent s1 = s1.
Proof.
  intros Ht.
  destruct (register_step t r cb s Ht) as (s1 & Hreg & Hr & Hlook & Hother & Hframe).
  exists s1. split_and!; try done.
  - intros k Hk. rewrite Hlook in Hk.
    destruct (bool_decide (k ∈ variants (enablePointerEvent s) t)) eqn:Hin; [| by right].
    left. by apply bool_decide_eq_true_1 in Hin.
  - assert (pointerInitialized s1 = true) as Hi.
    { destruct (frame_active _ _ _ Hframe) as [_ ->].
      unfold enablePointerEvent. by destruct (pointerInitialized s) eqn:Hs. }
    unfold enablePointerEvent. by rewrite Hi.
Qed.

(** X21: a [Draggable] whose region has no handlers yet registers for
    three types of events, and its [destroy] releases them all: after
    it the region has no entry, and the state is the one in which the
    module has been initialised and nothing was ever registered for the
    region. *)
Theorem Draggable_destroy_undoes_initEvents this onDown onUp onCancel s :
  eventHandlers s !! this = None →
  ∃ s1,
    Draggable_initEvents this onDown onUp onCancel s = Ok s1
    ∧ is_Some (eventHandlers s1 !! this)
    ∧ Draggable_destroy this s1 = Ok (enablePointerEvent s).
Proof.
  intros Hnone. unfold Draggable_initEvents, Draggable_destroy.
  assert ("pointerdown" ∈ pointerEventList) as Hd by (apply (bool_decide_unpack _); by vm_compute).
  assert ("pointerup" ∈ pointerEventList) as Hu by (apply (bool_decide_unpack _); by vm_compute).
  assert ("pointercancel" ∈ pointerEventList) as Hc by (apply (bool_decide_unpack _); by vm_compute).
  destruct (register_step_next "pointerdown" this onDown s Hd)
    as (s1 & -> & _ & Hk1 & Ho1 & Hf1 & He1).
  destruct (register_step_next "pointerup" this onUp s1 Hu)
    as (s2 & -> & _ & Hk2 & Ho2 & Hf2 & He2).
  destruct (register_step_next "pointercancel" this onCancel s2 Hc)
    as (s3 & -> & Hs3 & Hk3 & Ho3 & Hf3 & He3).
  rewrite He2 in Hk3, Hf3. rewrite He1 in Hk2, Hf2.
  destruct (frame_active _ _ _ Hf1) as [Ha1 _].
  destruct (frame_active _ _ _ Hf2) as [Ha2 _].
  destruct (frame_active _ _ _ Hf3) as [Ha3 _].
  exists s3. split_and!; [done | done |].
  rewrite release_types_clears.
  - f_equal.
    assert (delete this (eventHandlers s3) = eventHandlers (enablePointerEvent s)) as ->.
    { rewrite PointerEventFacts.eventHandlers_enable.
      apply map_eq. intros r'. destruct (decide (r' = this)) as [-> | Hne].
      - by rewrite lookup_delete_eq, Hnone.
      - rewrite lookup_delete_ne by done. by rewrite Ho3, Ho2, Ho1. }
    rewrite (same_frame _ _ _ _ Hf3), (same_frame _ _ _ _ Hf2), (same_frame _ _ _ _ Hf1).
    apply PointerEventFacts.set_eventHandlers_id.
  - done.
  - repeat constructor; done.
  - intros k Hk.
    assert (variants s3 "pointercancel" = variants s2 "pointercancel") as Hv3
      by (by apply variants_same).
    assert (variants s3 "pointerup" = variants s1 "pointerup") as Hv2
      by (apply variants_same; congruence).
    assert (variants s3 "pointerdown" = variants (enablePointerEvent s) "pointerdown") as Hv1
      by (apply variants_same; congruence).
    apply Hk3 in Hk as [Hk | Hk].
    { apply Exists_cons_tl, Exists_cons_tl, Exists_cons_hd. by rewrite Hv3. }
    apply Hk2 in Hk as [Hk | Hk].
    { apply Exists_cons_tl, Exists_cons_hd. by rewrite Hv2. }
    apply Hk1 in Hk as [Hk | Hk].
    { apply Exists_cons_hd. by rewrite Hv1. }
    rewrite (callbacks_at_None s this Hnone), lookup_empty in Hk. by destruct Hk.
Qed.

(** *** Where the dispatch looks *)

Lemma findActiveEvent_head (active ts : list string) :
  findActiveEvent active ts = head (findAllActiveEvents active ts).
Proof.
  unfold findActiveEvent, findAllActiveEvents.
  induction ts as [| t ts IH]; [done |]. cbn [List.find List.filter].
  by destruct (bool_decide (t ∈ active)).
Qed.

(** X22: the name under which [dispatchEvent] looks up the callbacks for
    an enter or a leave, the first active variant of the type, is the
    first of the names under which [registerPointerEvent] stores a
    callback; on a tidy table it is defined for every supported type,
    and a callback that was just registered is found there, as the last
    of the array, which is the one called first. *)
Theorem registered_is_found t r cb s :
  well_formed s → t ∈ pointerEventList →
  ∃ s1 k l,
    registerPointerEvent t (Some r) cb s = Ok s1
    ∧ findActiveEvent (activeEventList s1) (pointerEventMap_get t) = head (variants s1 t)
    ∧ findActiveEvent (activeEventList s1) (pointerEventMap_get t) = Some k
    ∧ callbacks_at s1 r !! k = Some (l ++ [cb]).
Proof.
  intros Hwf Ht.
  destruct (register_step t r cb s Ht) as (s1 & Hreg & _ & Hlook & _ & Hframe).
  destruct (frame_active _ _ _ Hframe) as [Ha _].
  pose proof (well_formed_enable s Hwf) as Hwe.
  assert (pointerInitialized (enablePointerEvent s) = true) as Hinit.
  { unfold enablePointerEvent. by destruct (pointerInitialized s) eqn:Hs. }
  pose proof (wf_active _ Hwe Hinit) as Hactive.
  destruct (active_has_variant t Ht) as (k0 & Hk1 & Hk2).
  assert (k0 ∈ variants s1 t) as Hin.
  { apply elem_of_variants. by rewrite Ha, Hactive. }
  pose proof (findActiveEvent_head (activeEventList s1) (pointerEventMap_get t)) as Hhead.
  fold (variants s1 t) in Hhead.
  destruct (variants s1 t) as [| k ks] eqn:Hv; [by apply elem_of_nil in Hin |].
  exists s1, k, (default [] (callbacks_at s r !! k)). split_and!; [done | by rewrite Hv | exact Hhead |].
  rewrite Hlook. rewrite bool_decide_eq_true_2; [done |].
  rewrite <- (variants_same _ _ t Ha), Hv. by left.
Qed.

End Facts.

Section Runs.
Import Sample MoreSample.

Lemma registered_is_found_witness :
  ∃ s1 k l,
    registerPointerEvent "pointerenter" (Some 2%nat) 4%nat press_release = Ok s1
    ∧ findActiveEvent (activeEventList s1) (pointerEventMap_get "pointerenter")
      = head (variants s1 "pointerenter")
    ∧ findActiveEvent (activeEventList s1) (pointerEventMap_get "pointerenter") = Some k
    ∧ callbacks_at s1 2%nat !! k = Some (l ++ [4%nat]).
Proof.
  apply (registered_is_found "pointerenter" 2%nat 4%nat press_release).
  - apply (well_formed_register "pointerup" (Some 2%nat) 6%nat).
    apply (well_formed_register "pointerdown" (Some 2%nat) 8%nat).
    apply well_formed_initial.
  - apply (bool_decide_unpack _). vm_compute. exact I.
Defined.

Lemma releaseAllPointerEvents_removes_region_witness :
  releaseAllPointerEvents 2%nat press_release
  = Ok (set_eventHandlers (delete 2%nat (eventHandlers press_release)) press_release).
Proof.
  apply (releaseAllPointerEvents_removes_region 2%nat press_release).
  apply (well_formed_register "pointerup" (Some 2%nat) 6%nat).
  apply (well_formed_register "pointerdown" (Some 2%nat) 8%nat).
  apply well_formed_initial.
Defined.

(** both types registered on region 2 are gone *)
Example releaseAllPointerEvents_run :
  dom (eventHandlers press_release) = {[2%nat]}
  ∧ dom (eventHandlers (outcome_state (releaseAllPointerEvents 2%nat press_release))) = ∅.
Proof. split; apply (bool_decide_unpack _); vm_compute; exact I. Qed.

Lemma Draggable_destroy_undoes_initEvents_witness :
  ∃ s1,
    Draggable_initEvents 3%nat 11%nat 12%nat 13%nat three_regions = Ok s1
    ∧ is_Some (eventHandlers s1 !! 3%nat)
    ∧ Draggable_destroy 3%nat s1 = Ok (enablePointerEvent three_regions).
Proof.
  apply (Draggable_destroy_undoes_initEvents 3%nat 11%nat 12%nat 13%nat three_regions).
  vm_compute. reflexivity.
Defined.

End Runs.
End TableFacts.

(** ** The pool of pointers and the key bindings *)

Module BindingsFacts.
Import Bindings.

Section Facts.
Context {E : PointerEvent.Env} {K : Keyboard}.
Implicit Types (s : State) (e : DomEvent) (o : ObjId) (l q : list ObjId).

(** *** Taking pointers from the pool *)

Lemma take_pointer_snoc e s l o :
  T_POINTERS s = l ++ [o] →
  ∃ s', take_pointer e s = Some s'
        ∧ T_POINTERS s' = l
        ∧ normalizedEvents s' = normalizedEvents s ++ [o]
        ∧ button_of s' = World.upd (button_of s) o (default 0 (button e))
        ∧ bind s' = bind s ∧ pointer_bind s' = pointer_bind s
        ∧ created s' = created s ∧ pointerInitialized s' = pointerInitialized s.
Proof.
  intros Hp. unfold take_pointer. rewrite Hp, last_snoc.
  eexists. split; [reflexivity |]. cbn. by rewrite removelast_last.
Qed.

Lemma take_pointer_nil e s : T_POINTERS s = [] → take_pointer e s = None.
Proof. intros Hp. unfold take_pointer. by rewrite Hp. Qed.

Lemma take_pointers_ok e q : ∀ s l,
  T_POINTERS s = l ++ rev q →
  ∃ s', take_pointers (length q) e s = Returns tt s'
        ∧ T_POINTERS s' = l
        ∧ normalizedEvents s' = normalizedEvents s ++ q
        ∧ (∀ o, button_of s' o
                = if decide (o ∈ q) then default 0 (button e) else button_of s o)
        ∧ bind s' = bind s ∧ pointer_bind s' = pointer_bind s
        ∧ created s' = created s ∧ pointerInitialized s' = pointerInitialized s.
Proof.
  induction q as [| x q IH]; intros s l Hp; cbn [length take_pointers].
  { exists s. cbn in Hp. rewrite app_nil_r in Hp. rewrite app_nil_r.
    split_and!; try done.
    all: intros o; destruct (decide _) as [Hin |]; [by apply elem_of_nil in Hin | done]. }
  cbn [rev] in Hp. rewrite app_assoc in Hp.
  destruct (take_pointer_snoc e s _ x Hp)
    as (s1 & -> & Hp1 & Hq1 & Hb1 & Hbind1 & Hpb1 & Hc1 & Hi1).
  destruct (IH s1 l Hp1) as (s' & -> & Hp' & Hq' & Hb' & Hbind' & Hpb' & Hc' & Hi').
  exists s'. split_and!; try congruence.
  - rewrite Hq', Hq1. by rewrite <- app_assoc.
  - intros o. rewrite Hb', Hb1.
    destruct (decide (o ∈ q)) as [Hin | Hnin].
    + rewrite decide_True; [done | by right].
    + destruct (decide (o = x)) as [-> | Hne].
      * rewrite WorldFacts.upd_eq. rewrite decide_True; [done | by left].
      * rewrite WorldFacts.upd_ne by done. rewrite decide_False; [done |].
        by intros [? | ?]%elem_of_cons.
Qed.

Lemma take_pointers_short e n : ∀ s,
  length (T_POINTERS s) < n →
  ∃ s', take_pointers n e s = TypeError s'
        ∧ T_POINTERS s' = []
        ∧ normalizedEvents s' = normalizedEvents s ++ rev (T_POINTERS s)
        ∧ bind s' = bind s ∧ pointer_bind s' = pointer_bind s.
Proof.
  induction n as [| n IH]; intros s Hlen; [lia |]. cbn [take_pointers].
  destruct (T_POINTERS s) as [| y l'] eqn:Hp using rev_ind.
  { rewrite (take_pointer_nil e s Hp). exists s. rewrite Hp, app_nil_r. by split_and!. }
  clear IHl'.
  destruct (take_pointer_snoc e s _ y Hp)
    as (s1 & -> & Hp1 & Hq1 & _ & Hbind1 & Hpb1 & _).
  rewrite length_app in Hlen. cbn in Hlen.
  destruct (IH s1) as (s' & -> & Hp' & Hq' & Hbind' & Hpb'); [rewrite Hp1; lia |].
  exists s'. split_and!; try congruence.
  rewrite Hq', Hq1, Hp1, rev_app_distr. cbn. by rewrite <- app_assoc.
Qed.

(** whatever [take_pointers] does, the objects of the pool and of
    [normalizedEvents] are the same, and no [bind] array is written *)
Lemma take_pointers_any e n : ∀ s,
  (∀ o, o ∈ T_POINTERS (state_of (take_pointers n e s))
            ++ normalizedEvents (state_of (take_pointers n e s))
        ↔ o ∈ T_POINTERS s ++ normalizedEvents s)
  ∧ bind (state_of (take_pointers n e s)) = bind s
  ∧ pointer_bind (state_of (take_pointers n e s)) = pointer_bind s.
Proof.
  induction n as [| n IH]; intros s; cbn [take_pointers]; [done |].
  destruct (T_POINTERS s) as [| y l'] eqn:Hp using rev_ind.
  { rewrite (take_pointer_nil e s Hp). cbn. by rewrite Hp. }
  clear IHl'.
  destruct (take_pointer_snoc e s _ y Hp)
    as (s1 & -> & Hp1 & Hq1 & _ & Hbind1 & Hpb1 & _).
  destruct (IH s1) as (Hmem & Hbind & Hpb). split_and!; try congruence.
  intros o. rewrite Hmem, Hp1, Hq1. rewrite !elem_of_app, list_elem_of_singleton. tauto.
Qed.

Lemma pool_split n l : n ≤ length l → ∃ l' q, l = l' ++ rev q ∧ length q = n.
Proof.
  intros Hn. exists (take (length l - n) l), (rev (drop (length l - n) l)). split.
  - by rewrite rev_involutive, take_drop.
  - rewrite length_rev, length_drop. lia.
Qed.

Lemma last_rev_cons l x q : last (l ++ rev (x :: q)) = Some x.
Proof. cbn [rev]. by rewrite app_assoc, last_snoc. Qed.

(** *** [normalizeEvent] and [dispatchEvent] *)

Lemma normalizeEvent_ok e s l q :
  normalizedEvents s = [] → T_POINTERS s = l ++ rev q → length q = pointers_of e →
  0 < pointers_of e ∨ isPrimary e = Some false →
  ∃ s1, normalizeEvent e s = Returns tt s1
        ∧ T_POINTERS s1 = l ∧ normalizedEvents s1 = q ∧ bind s1 = bind s
        ∧ pointerInitialized s1 = pointerInitialized s
        ∧ (∀ o, o ∈ q → button_of s1 o = default 0 (button e))
        ∧ pointer_bind s1
          = if bool_decide (isPrimary e = Some false) then pointer_bind s
            else default 0 (head q).
Proof.
  intros Hq Hp Hlen Hsome. unfold normalizeEvent. rewrite <- Hlen.
  destruct (take_pointers_ok e q s l Hp)
    as (s' & -> & Hp' & Hq' & Hb' & Hbind' & Hpb' & _ & Hi').
  rewrite Hq in Hq'. cbn in Hq'.
  assert (∀ o, o ∈ q → button_of s' o = default 0 (button e)) as Hbutton.
  { intros o Ho. rewrite Hb'. by rewrite decide_True. }
  destruct (bool_decide (isPrimary e = Some false)) eqn:Hprim.
  { exists s'. by split_and!. }
  rewrite Hq'. destruct q as [| x q'].
  { apply bool_decide_eq_false_1 in Hprim. cbn in Hlen. destruct Hsome; [lia | done]. }
  eexists. split; [reflexivity |]. cbn. by split_and!.
Qed.

Lemma normalizeEvent_any e s :
  (∀ o, o ∈ T_POINTERS (state_of (normalizeEvent e s))
            ++ normalizedEvents (state_of (normalizeEvent e s))
        ↔ o ∈ T_POINTERS s ++ normalizedEvents s)
  ∧ bind (state_of (normalizeEvent e s)) = bind s
  ∧ (∀ s1, normalizeEvent e s = Returns tt s1 → isPrimary e ≠ Some false →
       pointer_bind s1 ∈ normalizedEvents s1).
Proof.
  unfold normalizeEvent.
  destruct (take_pointers_any e (pointers_of e) s) as (Hmem & Hbind & _).
  destruct (take_pointers (pointers_of e) e s) as [[] s' | s']; cbn [state_of] in *.
  2:{ by split_and!. }
  destruct (bool_decide (isPrimary e = Some false)) eqn:Hprim.
  { apply bool_decide_eq_true_1 in Hprim. by split_and!. }
  destruct (normalizedEvents s') as [| first rest] eqn:Hq; cbn [state_of].
  { rewrite Hq. by split_and!. }
  cbn. rewrite Hq. split_and!; try done.
  all: intros s1 Heq _; injection Heq as <-; cbn; rewrite Hq; by left.
Qed.

(** X23: when no pointer is waiting in [normalizedEvents], an event takes
    as many pointers from the pool as it has touches (one when it has no
    list of touches, or on a device without touch events), in the order
    of a stack, and the dispatch puts them back: afterwards the pool is
    what it was, and after an event that is not marked as not primary
    [pointer.bind] is the array of the pointer on top of the pool.  When
    the pool is too small the call ends in a [TypeError], with the pool
    empty and its pointers left behind in [normalizedEvents]. *)
Theorem pool_is_restored e s :
  normalizedEvents s = [] →
  (pointers_of e ≤ length (T_POINTERS s) →
   0 < pointers_of e ∨ isPrimary e = Some false →
   ∃ s1, onMoveEvent e s = Returns tt s1
         ∧ T_POINTERS s1 = T_POINTERS s ∧ normalizedEvents s1 = [] ∧ bind s1 = bind s
         ∧ (isPrimary e = Some false → pointer_bind s1 = pointer_bind s)
         ∧ (isPrimary e ≠ Some false → settled s1))
  ∧ (length (T_POINTERS s) < pointers_of e →
     ∃ s1, onMoveEvent e s = TypeError s1
           ∧ T_POINTERS s1 = [] ∧ normalizedEvents s1 = rev (T_POINTERS s)).
Proof.
  intros Hq. split.
  - intros Hlen Hsome.
    destruct (pool_split _ _ Hlen) as (l & q & Hp & Hlq).
    destruct (normalizeEvent_ok e s l q Hq Hp Hlq Hsome)
      as (s1 & Hnorm & Hp1 & Hq1 & Hbind1 & _ & _ & Hpb1).
    unfold onMoveEvent. rewrite Hnorm. eexists. split; [reflexivity |].
    unfold settled. cbn. rewrite Hp1, Hq1, <- Hp. split_and!; try done.
    + intros Hprim. by rewrite Hpb1, bool_decide_eq_true_2.
    + intros Hprim. split; [done |].
      rewrite Hpb1, bool_decide_eq_false_2 by done.
      destruct q as [| x q'].
      { cbn in Hlq. destruct Hsome; [lia | done]. }
      rewrite Hp. by rewrite last_rev_cons.
  - intros Hlen. unfold onMoveEvent, normalizeEvent.
    destruct (take_pointers_short e _ s Hlen) as (s' & -> & Hp' & Hq' & _).
    exists s'. rewrite Hq in Hq'. by split_and!.
Qed.

(** *** Bindings *)

Lemma key_event_zeros e b : key_event e b (zeros !! b) = None.
Proof.
  unfold zeros. destruct b as [| [| [| b]]]; [done | done | done |].
  rewrite !lookup_insert_ne by lia. by rewrite lookup_singleton_ne by lia.
Qed.

Lemma pristine_push_new s : pristine s → pristine (push_new s).
Proof.
  intros Hs o Ho. unfold push_new in *. cbn in *.
  destruct (decide (o = S (created s))) as [-> | Hne].
  - by rewrite WorldFacts.upd_eq.
  - rewrite WorldFacts.upd_ne by done. apply Hs.
    rewrite !elem_of_app, list_elem_of_singleton in Ho. rewrite elem_of_app. tauto.
Qed.

Lemma iter_push_new n s :
  pointer_bind (Nat.iter n push_new s) = pointer_bind s
  ∧ (pristine s → pristine (Nat.iter n push_new s)).
Proof.
  induction n as [| n [IH1 IH2]]; [done |]. cbn [Nat.iter]. split; [done |].
  intros Hs. by apply pristine_push_new, IH2.
Qed.

Lemma pristine_enable s :
  pointer_bind (enablePointerEvent s) = pointer_bind s
  ∧ (pristine s → pristine (enablePointerEvent s)).
Proof.
  unfold enablePointerEvent. destruct (pointerInitialized s); [done |].
  destruct (iter_push_new PointerEvent.maxTouchPoints s) as [Hpb Hpr]. cbn.
  split; [done |]. intros Hs o Ho. by apply (Hpr Hs).
Qed.

Lemma pristine_set_bind b v s :
  pointer_bind s = 0 → pristine s → pristine (set_bind b v s).
Proof.
  intros Hpb Hs o Ho. cbn in *. destruct (Hs o Ho) as [Hne Hz]. split; [done |].
  rewrite Hpb. by rewrite WorldFacts.upd_ne.
Qed.

Lemma binding_keeps_pristine c s :
  is_binding c → pointer_bind s = 0 → pristine s →
  pointer_bind (call c s).1 = 0 ∧ pristine (call c s).1 ∧ (call c s).2 = None.
Proof.
  intros Hc Hpb Hs. destruct c as [b k | b | e | e]; try done; cbn [call fst snd].
  - unfold bindPointer. destruct (pristine_enable s) as [Hpb' Hpr'].
    destruct (negb _); cbn.
    + split_and!; [congruence | by apply Hpr' | done].
    + split_and!; [congruence | | done].
      apply pristine_set_bind; [congruence | by apply Hpr'].
  - unfold unbindPointer. split_and!; [done | by apply pristine_set_bind | done].
Qed.

Lemma pristine_ext s s' :
  (∀ o, o ∈ T_POINTERS s' ++ normalizedEvents s' ↔ o ∈ T_POINTERS s ++ normalizedEvents s) →
  bind s' = bind s → pristine s → pristine s'.
Proof. intros Hmem Hbind Hs o Ho. rewrite Hbind. by apply Hs, Hmem. Qed.

Lemma pristine_dispatch s : pristine s → pristine (dispatchEvent s).
Proof.
  intros Hs o Ho. cbn in *. apply Hs.
  rewrite app_nil_r in Ho. rewrite !elem_of_app in *.
  destruct Ho as [Ho | Ho]; [by left |]. right.
  apply list_elem_of_In, in_rev, list_elem_of_In. exact Ho.
Qed.

Lemma primary_event_on_pristine c s :
  is_primary c → pristine s → pristine (call c s).1 ∧ (call c s).2 = None.
Proof.
  intros Hc Hs. destruct (c) as [b k | b | e | e]; try done; cbn [call fst snd].
  - cbn in Hc. unfold onPointerEvent.
    destruct (normalizeEvent_any e s) as (Hmem & Hbind & Hpb).
    destruct (normalizeEvent e s) as [[] s1 | s1] eqn:Hnorm; cbn [state_of] in *.
    2:{ split; [by eapply pristine_ext | done]. }
    pose proof (pristine_ext s s1 Hmem Hbind Hs) as Hs1.
    specialize (Hpb s1 eq_refl Hc).
    destruct (normalizedEvents s1) as [| first rest] eqn:Hq1; [done |].
    cbn [fst snd]. split; [by apply pristine_dispatch |].
    assert (bind s1 (pointer_bind s1) = zeros) as Hz.
    { apply Hs1. rewrite elem_of_app. right. by rewrite Hq1. }
    cbn. rewrite Hz. apply key_event_zeros.
  - cbn in Hc. unfold onMoveEvent.
    destruct (normalizeEvent_any e s) as (Hmem & Hbind & _).
    destruct (normalizeEvent e s) as [[] s1 | s1]; cbn [state_of] in *.
    + split; [| done]. apply pristine_dispatch. by eapply pristine_ext.
    + split; [by eapply pristine_ext | done].
Qed.

Lemma run_app (cs1 cs2 : list Call) s :
  run (cs1 ++ cs2) s = ((run cs2 (run cs1 s).1).1, (run cs1 s).2 ++ (run cs2 (run cs1 s).1).2).
Proof.
  revert s. induction cs1 as [| c cs1 IH]; intros s; cbn [app run fst snd].
  { by destruct (run cs2 s). }
  rewrite IH. cbn [fst snd]. by rewrite app_assoc.
Qed.

Lemma run_bindings (cs : list Call) : ∀ s,
  Forall is_binding cs → pointer_bind s = 0 → pristine s →
  pointer_bind (run cs s).1 = 0 ∧ pristine (run cs s).1 ∧ (run cs s).2 = [].
Proof.
  induction cs as [| c cs IH]; intros s Hcs Hpb Hs; cbn [run fst snd]; [done |].
  apply Forall_cons in Hcs as [Hc Hcs].
  destruct (binding_keeps_pristine c s Hc Hpb Hs) as (Hpb1 & Hs1 & ->).
  destruct (IH _ Hcs Hpb1 Hs1) as (Hpb2 & Hs2 & ->). done.
Qed.

Lemma run_primary (cs : list Call) : ∀ s,
  Forall is_primary cs → pristine s → (run cs s).2 = [].
Proof.
  induction cs as [| c cs IH]; intros s Hcs Hs; cbn [run fst snd]; [done |].
  apply Forall_cons in Hcs as [Hc Hcs].
  destruct (primary_event_on_pristine c s Hc Hs) as (Hs1 & ->).
  by rewrite (IH _ Hcs Hs1).
Qed.

(** X24: [normalizeEvent] copies a pooled pointer into [pointer] with
    [Object.assign], and with it the reference to the [bind] array of
    the pooled pointer.  So the keys bound before the first pointer
    event are written to an array that no pointer event reads: from the
    loading of the module, after any calls of [bindPointer] and
    [unbindPointer], no sequence of pointer and move events that are
    not marked as not primary triggers a key event. *)
Theorem binding_before_first_event_is_lost (bindings events : list Call) :
  Forall is_binding bindings → Forall is_primary events →
  (run (bindings ++ events) initial).2 = [].
Proof.
  intros Hb He. rewrite run_app. cbn [snd].
  destruct (run_bindings bindings initial Hb) as (_ & Hs & ->).
  - done.
  - intros o Ho. cbn in Ho. by apply elem_of_nil in Ho.
  - by rewrite (run_primary events _ He Hs).
Qed.

Lemma onPointerEvent_settled e s :
  settled s → 0 < pointers_of e → pointers_of e ≤ length (T_POINTERS s) →
  ∃ s1, onPointerEvent e s
        = Returns (key_event e (default 0 (button e))
                     (bind s (pointer_bind s) !! default 0 (button e))) s1
        ∧ settled s1 ∧ bind s1 = bind s ∧ pointer_bind s1 = pointer_bind s
        ∧ T_POINTERS s1 = T_POINTERS s
        ∧ pointerInitialized s1 = pointerInitialized s.
Proof.
  intros [Hq Htop] Hpos Hlen.
  destruct (pool_split _ _ Hlen) as (l & q & Hp & Hlq).
  destruct (normalizeEvent_ok e s l q Hq Hp Hlq (or_introl Hpos))
    as (s1 & Hnorm & Hp1 & Hq1 & Hbind1 & Hi1 & Hbutton & Hpb1).
  destruct q as [| x q']; [cbn in Hlq; lia |].
  rewrite Hp, last_rev_cons in Htop. injection Htop as Htop.
  assert (pointer_bind s1 = pointer_bind s) as Hpb.
  { rewrite Hpb1. by destruct (bool_decide _). }
  unfold onPointerEvent. rewrite Hnorm, Hq1.
  eexists. split.
  - cbn. rewrite Hbind1, Hpb, (Hbutton x) by (by left). reflexivity.
  - unfold settled. cbn. rewrite Hp1, Hq1, Hpb, <- Hp. split_and!; try done.
    rewrite Hp. by rewrite last_rev_cons, Htop.
Qed.

(** X25: once [pointer.bind] is the array of the pointer on top of the
    pool, as it is after the first event, bindings work: a key bound to
    a button is triggered by the next pointer event of that button, with
    the status of a press for the types of [POINTER_DOWN] and the button
    number plus one, and after [unbindPointer] it is not. *)
Theorem binding_is_honoured_when_settled b k e s :
  settled s → pointerInitialized s = true →
  getBindingKey k = true → k ≠ 0%Z →
  default 0 (button e) = default LEFT b →
  0 < pointers_of e → pointers_of e ≤ length (T_POINTERS s) →
  ∃ s1 s2 s3,
    bindPointer b k s = Bound s1
    ∧ onPointerEvent e s1
      = Returns (Some (k, bool_decide (type e ∈ PointerEvent.POINTER_DOWN), default LEFT b + 1))
          s2
    ∧ settled s2
    ∧ onPointerEvent e (unbindPointer b s2) = Returns None s3.
Proof.
  intros Hs Hi Hk Hk0 Hb Hpos Hlen.
  unfold bindPointer, enablePointerEvent. rewrite Hi, Hk. cbn [negb].
  set (s1 := set_bind (default LEFT b) (Some k) s).
  assert (settled s1) as Hs1 by done.
  destruct (onPointerEvent_settled e s1 Hs1 Hpos Hlen)
    as (s2 & Hev & Hs2 & Hbind2 & Hpb2 & Hp2 & _).
  assert (settled (unbindPointer b s2)) as Hs2' by done.
  destruct (onPointerEvent_settled e (unbindPointer b s2) Hs2' Hpos)
    as (s3 & Hev3 & _).
  { change (T_POINTERS (unbindPointer b s2)) with (T_POINTERS s2). by rewrite Hp2. }
  exists s1, s2, s3. split_and!; [done | | done |].
  - rewrite Hev. f_equal. rewrite Hb. cbn. rewrite WorldFacts.upd_eq, lookup_insert_eq.
    cbn. destruct (k =? 0)%Z eqn:Hz; [| done]. apply Z.eqb_eq in Hz. done.
  - rewrite Hev3. f_equal. rewrite Hb. cbn. by rewrite WorldFacts.upd_eq, lookup_insert_eq.
Qed.

End Facts.

Section Runs.
Import Sample PointerEvent.Sample.

Lemma pool_is_restored_witness :
  (pointers_of mousedown ≤ length (T_POINTERS (enablePointerEvent initial)) →
   0 < pointers_of mousedown ∨ isPrimary mousedown = Some false →
   ∃ s1, onMoveEvent mousedown (enablePointerEvent initial) = Returns tt s1
         ∧ T_POINTERS s1 = T_POINTERS (enablePointerEvent initial)
         ∧ normalizedEvents s1 = []
         ∧ bind s1 = bind (enablePointerEvent initial)
         ∧ (isPrimary mousedown = Some false
            → pointer_bind s1 = pointer_bind (enablePointerEvent initial))
         ∧ (isPrimary mousedown ≠ Some false → settled s1))
  ∧ (length (T_POINTERS (enablePointerEvent initial)) < pointers_of mousedown →
     ∃ s1, onMoveEvent mousedown (enablePointerEvent initial) = TypeError s1
           ∧ T_POINTERS s1 = []
           ∧ normalizedEvents s1 = rev (T_POINTERS (enablePointerEvent initial))).
Proof.
  apply (pool_is_restored mousedown (enablePointerEvent initial)). reflexivity.
Defined.

Lemma binding_before_first_event_is_lost_witness :
  (run ([CallBind (Some 0) 88] ++ [CallPointerEvent mousedown; CallPointerEvent mousedown])
     initial).2 = [].
Proof.
  apply (binding_before_first_event_is_lost [CallBind (Some 0) 88]
           [CallPointerEvent mousedown; CallPointerEvent mousedown]).
  - repeat constructor.
  - repeat constructor; discriminate.
Defined.

(** the key 88 bound to the left button before the first press is not
    triggered by it; bound again after the press, it is *)
Example bind_press_bind_press :
  (run [CallBind (Some 0) 88; CallPointerEvent mousedown;
        CallBind (Some 0) 88; CallPointerEvent mousedown] initial).2
  = [(88%Z, true, 1)].
Proof. vm_compute. reflexivity. Qed.

Lemma binding_is_honoured_when_settled_witness :
  ∃ s1 s2 s3,
    bindPointer (Some 0) 88 (run [CallPointerEvent mousedown] (enablePointerEvent initial)).1
    = Bound s1
    ∧ onPointerEvent mousedown s1
      = Returns (Some (88%Z, bool_decide (type mousedown ∈ PointerEvent.POINTER_DOWN),
                       default LEFT (Some 0) + 1)) s2
    ∧ settled s2
    ∧ onPointerEvent mousedown (unbindPointer (Some 0) s2) = Returns None s3.
Proof.
  apply (binding_is_honoured_when_settled (Some 0) 88 mousedown
           (run [CallPointerEvent mousedown] (enablePointerEvent initial)).1).
  - split; reflexivity.
  - reflexivity.
  - reflexivity.
  - discriminate.
  - reflexivity.
  - vm_compute. lia.
  - vm_compute. lia.
Defined.

End Runs.
End BindingsFacts.

(** ** [Pointer.setEvent] and [globalToLocal] *)

Module PointerObjectFacts.
Import PointerEvent PointerObject.

Section Facts.
Implicit Types (pg : Page) (event : NativeEvent) (p this : Pointer).

Local Open Scope Q_scope.

Lemma or_else_nonzero (v : option Q) (d : Q) : ¬ d == 0 → ¬ or_else v d == 0.
Proof.
  intros Hd. unfold or_else. destruct v as [q |]; [| done].
  destruct (Qeq_bool q 0) eqn:Hq; [done |]. by apply Qeq_bool_neq.
Qed.

Lemma or_else_zero (v : option Q) : or_else v 0 == default 0 v.
Proof.
  unfold or_else. destruct v as [q |]; [| done]. cbn.
  destruct (Qeq_bool q 0) eqn:Hq; [| done]. apply Qeq_bool_eq in Hq. by rewrite Hq.
Qed.

(** X26: when the renderer scales by no 0, [globalToLocal] is one affine
    map, whatever its test of the scale against 1 decides: it takes off
    the corner of the canvas and the scroll of the page, divides by the
    scale and multiplies by the pixel ratio, which is never 0 since a
    missing or null ratio counts as 1; the factor is 0 on neither
    axis. *)
Theorem globalToLocal_affine pg x y :
  ¬ (scaleRatio pg).1 == 0 → ¬ (scaleRatio pg).2 == 0 →
  ∃ gx gy,
    globalToLocal pg x y = Some (gx, gy)
    ∧ gx == (x - rect_left pg - default 0 (pageXOffset pg))
            * (or_else (devicePixelRatio pg) 1 / (scaleRatio pg).1)
    ∧ gy == (y - rect_top pg - default 0 (pageYOffset pg))
            * (or_else (devicePixelRatio pg) 1 / (scaleRatio pg).2)
    ∧ ¬ or_else (devicePixelRatio pg) 1 / (scaleRatio pg).1 == 0
    ∧ ¬ or_else (devicePixelRatio pg) 1 / (scaleRatio pg).2 == 0.
Proof.
  intros Hx Hy. unfold globalToLocal.
  pose proof (or_else_nonzero (devicePixelRatio pg) 1) as Hr.
  assert (¬ or_else (devicePixelRatio pg) 1 == 0) as Hratio by (apply Hr; discriminate).
  pose proof (or_else_zero (pageXOffset pg)) as Hox.
  pose proof (or_else_zero (pageYOffset pg)) as Hoy.
  assert (∀ a b : Q, ¬ a == 0 → ¬ b == 0 → ¬ a / b == 0) as Hdiv.
  { intros a b Ha Hb Hab. apply Ha.
    assert (a == a / b * b) as -> by (field; exact Hb). rewrite Hab. ring. }
  destruct (negb (Qeq_bool (scaleRatio pg).1 1) || negb (Qeq_bool (scaleRatio pg).2 1))
    eqn:Hguard.
  - rewrite (proj2 (orb_false_iff _ _)).
    2:{ split; apply not_true_is_false; intros H%Qeq_bool_eq; auto. }
    eexists _, _. split; [reflexivity |]. split_and!.
    + rewrite Hox. field. exact Hx.
    + rewrite Hoy. field. exact Hy.
    + by apply Hdiv.
    + by apply Hdiv.
  - apply orb_false_iff in Hguard as [H1 H2].
    apply negb_false_iff, Qeq_bool_eq in H1. apply negb_false_iff, Qeq_bool_eq in H2.
    eexists _, _. split; [reflexivity |]. split_and!.
    + rewrite Hox, H1. field.
    + rewrite Hoy, H2. field.
    + by apply Hdiv.
    + by apply Hdiv.
Qed.

(** X27: [setEvent] never assigns 0 to the width or the height of the
    pointer, which then reads what the accessors of [Bounds] make of
    the value assigned at its screen coordinates; the pointer
    is marked as normalized only on a device that has [PointerEvent]
    and for an event that is none, so that only such events are ever
    skipped as stale; without a viewport its world coordinates are its
    screen coordinates; and the coordinates that the dispatch writes
    for the regions are left as they were. *)
Theorem setEvent_pointer pg event pageX pageY pointerId this p :
  setEvent pg event pageX pageY pointerId this = Some p →
  (∃ w h, ¬ w == 0 ∧ ¬ h == 0
          ∧ width p = Bounds_size pg (gameScreenX p) w
          ∧ height p = Bounds_size pg (gameScreenY p) h)
  ∧ (∀ s : State, stale p s = true →
       PointerEvent_defined pg = true ∧ is_PointerEvent event = false
       ∧ ∃ t, ev_timeStamp event = Some t ∧ t < lastTimeStamp s)
  ∧ (localToWorld pg = None →
     gameWorldX p = gameScreenX p ∧ gameWorldY p = gameScreenY p)
  ∧ globalToLocal pg (default 0 pageX) (default 0 pageY)
    = Some (gameScreenX p, gameScreenY p)
  ∧ gameX p = gameX this ∧ gameY p = gameY this
  ∧ gameLocalX p = gameLocalX this ∧ gameLocalY p = gameLocalY this.
Proof.
  unfold setEvent.
  destruct (globalToLocal pg (default 0 pageX) (default 0 pageY)) as [[sx sy] |]; [| done].
  intros [= <-].
  cbn [width height isNormalized timeStamp gameX gameY gameLocalX gameLocalY
       gameWorldX gameWorldY gameScreenX gameScreenY].
  split_and!; try done.
  - eexists _, _. split_and!; [| | reflexivity | reflexivity].
    + destruct (negb _); cbn [fst snd].
      * apply or_else_nonzero. discriminate.
      * destruct (radiusX event) as [rx |]; cbn [fst snd];
          [apply (or_else_nonzero (Some (rx * 2)) 1) |]; discriminate.
    + destruct (negb _); cbn [fst snd].
      * apply or_else_nonzero. discriminate.
      * destruct (radiusX event) as [rx |]; cbn [fst snd];
          [apply or_else_nonzero |]; discriminate.
  - intros s. unfold stale. cbn [isNormalized timeStamp]. intros Hs.
    apply andb_true_iff in Hs as [Hn Hold].
    apply andb_true_iff in Hn as [Hdef Hnot]. apply negb_true_iff in Hnot.
    split_and!; [done | done |].
    destruct (ev_timeStamp event) as [t |]; [| done].
    exists t. split; [done |]. by apply PointerEventFacts.older_spec.
  - by intros ->.
Qed.

End Facts.

Section Runs.
Import Sample.

Local Open Scope Q_scope.

Lemma globalToLocal_affine_witness :
  ∃ gx gy,
    globalToLocal page 208 308 = Some (gx, gy)
    ∧ gx == (208 - rect_left page - default 0 (pageXOffset page))
            * (or_else (devicePixelRatio page) 1 / (scaleRatio page).1)
    ∧ gy == (308 - rect_top page - default 0 (pageYOffset page))
            * (or_else (devicePixelRatio page) 1 / (scaleRatio page).2)
    ∧ ¬ or_else (devicePixelRatio page) 1 / (scaleRatio page).1 == 0
    ∧ ¬ or_else (devicePixelRatio page) 1 / (scaleRatio page).2 == 0.
Proof.
  apply (globalToLocal_affine page 208 308); discriminate.
Defined.

(** the point (208, 308) of the page is the point (100, 100) of the game *)
Example globalToLocal_run :
  (λ v, (Qred v.1, Qred v.2)) <$> globalToLocal page 208 308 = Some (100, 100).
Proof. vm_compute. reflexivity. Qed.

Lemma setEvent_pointer_witness :
  ∃ p, setEvent page touch (Some 208) (Some 308) None Pointer_new = Some p
       ∧ (∃ w h, ¬ w == 0 ∧ ¬ h == 0
                 ∧ width p = Bounds_size page (gameScreenX p) w
                 ∧ height p = Bounds_size page (gameScreenY p) h)
       ∧ globalToLocal page 208 308 = Some (gameScreenX p, gameScreenY p).
Proof.
  eexists. split; [reflexivity |].
  pose proof (setEvent_pointer page touch (Some 208) (Some 308) None Pointer_new _ eq_refl)
    as (Hsize & _ & _ & Hlocal & _).
  split; [exact Hsize | exact Hlocal].
Defined.

End Runs.
End PointerObjectFacts.

(** ** [Draggable] and [DropTarget] *)

Module DragndropFacts.
Import PointerEvent Dragndrop.

Section Facts.
Context {C : Collaborators}.
Implicit Types (d : Draggable) (e : Pointer) (t : DropTarget).

Local Open Scope Q_scope.

Lemma drag_not_dragging (moves : list Pointer) d : dragging d = false → drag moves d = d.
Proof.
  intros Hd. unfold drag. induction moves as [| e moves IH]; [done |].
  cbn [fold_left]. unfold dragMove at 2. by rewrite Hd.
Qed.

Lemma drag_dragging (moves : list Pointer) : ∀ d e,
  componentwise → dragging d = true →
  dragging (drag (moves ++ [e]) d) = true
  ∧ grabOffset (drag (moves ++ [e]) d) = grabOffset d
  ∧ pos (drag (moves ++ [e]) d)
    = (gameX e - (grabOffset d).1, gameY e - (grabOffset d).2, (pos d).2).
Proof.
  intros d e (_ & _ & Hset & Hsub). revert d.
  induction moves as [| e' moves IH]; intros d Hd.
  - unfold drag. cbn [app fold_left]. unfold dragMove. rewrite Hd. cbn.
    by rewrite Hset, Hsub.
  - unfold drag. cbn [app fold_left]. fold (drag (moves ++ [e]) (dragMove e' d)).
    assert (dragging (dragMove e' d) = true ∧ grabOffset (dragMove e' d) = grabOffset d
            ∧ (pos (dragMove e' d)).2 = (pos d).2) as (Hd' & Hg' & Hz').
    { unfold dragMove. rewrite Hd. cbn. by rewrite Hset, Hsub. }
    destruct (IH _ Hd') as (H1 & H2 & H3). by rewrite H1, H2, H3, Hg', Hz'.
Qed.

(** X28: a drag moves the renderable with the pointer.  With vectors
    whose [set] writes the coordinates and whose [sub] subtracts them,
    after [dragStart] on a renderable at rest and any moves, the
    position is the one at the start moved by the way of the pointer
    from the start to the last move, and [z] is kept; a second
    [dragStart] in between changes nothing; and after [dragEnd] no move
    changes the position.  [dragStart] and [dragEnd] return [false]
    when they take effect and nothing otherwise. *)
Theorem drag_follows_pointer d e0 (moves : list Pointer) e (later : list Pointer) :
  componentwise → dragging d = false →
  (dragStart e0 d).1 = Some false
  ∧ dragStart e (dragStart e0 d).2 = (None, (dragStart e0 d).2)
  ∧ (pos (drag (moves ++ [e]) (dragStart e0 d).2)).1.1 == (pos d).1.1 + (gameX e - gameX e0)
  ∧ (pos (drag (moves ++ [e]) (dragStart e0 d).2)).1.2 == (pos d).1.2 + (gameY e - gameY e0)
  ∧ (pos (drag (moves ++ [e]) (dragStart e0 d).2)).2 = (pos d).2
  ∧ (dragEnd (drag (moves ++ [e]) (dragStart e0 d).2)).1 = Some false
  ∧ pos (drag later (dragEnd (drag (moves ++ [e]) (dragStart e0 d).2)).2)
    = pos (drag (moves ++ [e]) (dragStart e0 d).2)
  ∧ dragEnd d = (None, d)
  ∧ drag later d = d.
Proof.
  intros Hc Hd. pose proof Hc as (Hset2 & Hsub2 & _ & _).
  unfold dragStart. rewrite Hd. cbn [negb fst snd].
  set (d1 := {| dragging := true; pos := pos d; grabOffset := _ |}).
  destruct (drag_dragging moves d1 e Hc eq_refl) as (Hdr & Hg & Hpos).
  split_and!.
  - done.
  - done.
  - rewrite Hpos. subst d1. cbn. rewrite Hset2, Hsub2. cbn. ring.
  - rewrite Hpos. subst d1. cbn. rewrite Hset2, Hsub2. cbn. ring.
  - by rewrite Hpos.
  - unfold dragEnd. by rewrite Hdr.
  - unfold dragEnd. rewrite Hdr. cbn [snd]. by rewrite drag_not_dragging.
  - unfold dragEnd. by rewrite Hd.
  - by apply drag_not_dragging.
Qed.

(** X29: [setCheckMethod] tests the method that the target has, not the
    one it is given.  On a new target, whose method [overlaps] is a
    function of the bounds, it accepts whatever it is given, also
    [undefined] and a name that is no function of the bounds; and once
    the target has such a method no call of [setCheckMethod] changes it
    any more, and [checkOnMe] ends in a [TypeError] for every draggable
    that is dropped. *)
Theorem setCheckMethod_tests_the_old_method m :
  is_function CHECKMETHOD_OVERLAP = true →
  checkMethod (setCheckMethod m DropTarget_new) = m
  ∧ (is_function (key m) = false →
     (∀ m', setCheckMethod m' (setCheckMethod m DropTarget_new)
            = setCheckMethod m DropTarget_new)
     ∧ ∀ draggable, checkOnMe (Some draggable) (setCheckMethod m DropTarget_new)
                    = NotAFunction).
Proof.
  intros Hov.
  assert (setCheckMethod m DropTarget_new = {| checkMethod := m |}) as ->.
  { unfold setCheckMethod, DropTarget_new. cbn [checkMethod].
    change (key (Some CHECKMETHOD_OVERLAP)) with CHECKMETHOD_OVERLAP. by rewrite Hov. }
  split; [done |]. intros Hm. split.
  - intros m'. unfold setCheckMethod. cbn [checkMethod]. by rewrite Hm.
  - intros draggable. unfold checkOnMe. cbn [checkMethod]. by rewrite Hm.
Qed.

End Facts.

Section Runs.
Import Sample.

Local Open Scope Q_scope.

Lemma drag_follows_pointer_witness :
  (dragStart (at_ 12 25) at_rest).1 = Some false
  ∧ dragStart (at_ 40 45) (dragStart (at_ 12 25) at_rest).2
    = (None, (dragStart (at_ 12 25) at_rest).2)
  ∧ (pos (drag ([at_ 30 30] ++ [at_ 40 45]) (dragStart (at_ 12 25) at_rest).2)).1.1
    == (pos at_rest).1.1 + (gameX (at_ 40 45) - gameX (at_ 12 25))
  ∧ (pos (drag ([at_ 30 30] ++ [at_ 40 45]) (dragStart (at_ 12 25) at_rest).2)).1.2
    == (pos at_rest).1.2 + (gameY (at_ 40 45) - gameY (at_ 12 25))
  ∧ (pos (drag ([at_ 30 30] ++ [at_ 40 45]) (dragStart (at_ 12 25) at_rest).2)).2
    = (pos at_rest).2
  ∧ (dragEnd (drag ([at_ 30 30] ++ [at_ 40 45]) (dragStart (at_ 12 25) at_rest).2)).1
    = Some false
  ∧ pos (drag [at_ 0 0]
           (dragEnd (drag ([at_ 30 30] ++ [at_ 40 45]) (dragStart (at_ 12 25) at_rest).2)).2)
    = pos (drag ([at_ 30 30] ++ [at_ 40 45]) (dragStart (at_ 12 25) at_rest).2)
  ∧ dragEnd at_rest = (None, at_rest)
  ∧ drag [at_ 0 0] at_rest = at_rest.
Proof.
  apply (drag_follows_pointer at_rest (at_ 12 25) [at_ 30 30] (at_ 40 45) [at_ 0 0]).
  - by split_and!.
  - reflexivity.
Defined.

Lemma setCheckMethod_tests_the_old_method_witness :
  checkMethod (setCheckMethod (Some "inside") DropTarget_new) = Some "inside"
  ∧ (is_function (key (Some "inside")) = false →
     (∀ m', setCheckMethod m' (setCheckMethod (Some "inside") DropTarget_new)
            = setCheckMethod (Some "inside") DropTarget_new)
     ∧ ∀ draggable, checkOnMe (Some draggable) (setCheckMethod (Some "inside") DropTarget_new)
                    = NotAFunction).
Proof.
  apply (setCheckMethod_tests_the_old_method (Some "inside")). reflexivity.
Defined.

End Runs.
End DragndropFacts.

(** ** The listeners on the DOM *)

Module ListenersFacts.
Import PointerEvent PointerEventMore Listeners RegistrationFacts.

Section Facts.
Context {E : Env}.

Lemma on_type_registerEventListener pd (l : list string) h :
  on_type <$> registerEventListener pd l h
  = List.filter (λ t, negb (bool_decide (t ∈ POINTER_MOVE))) l.
Proof.
  unfold registerEventListener. rewrite <- list_fmap_compose.
  rewrite <- (list_fmap_id (List.filter _ l)) at 2. by apply list_fmap_ext.
Qed.

Lemma on_type_move_listeners ti (active : list string) :
  on_type <$> move_listeners ti active
  = List.filter (λ t, bool_decide (t ∈ active)) (findAllActiveEvents active POINTER_MOVE).
Proof.
  unfold move_listeners. rewrite <- list_fmap_compose.
  rewrite <- (list_fmap_id (List.filter _ _)) at 2. by apply list_fmap_ext.
Qed.

Lemma heard_once pd ti (active : list string) :
  NoDup active →
  (on_type <$> registerEventListener pd active OnPointerEvent)
  ++ (on_type <$> move_listeners ti active) ≡ₚ active.
Proof.
  intros Hnd. rewrite on_type_registerEventListener, on_type_move_listeners.
  assert (NoDup POINTER_MOVE) as Hmove by (apply (bool_decide_unpack _); by vm_compute).
  apply NoDup_Permutation; [| done |].
  - apply NoDup_app. split_and!.
    + by apply NoDup_ListNoDup, List.NoDup_filter, NoDup_ListNoDup.
    + intros t Ht Ht'. apply list_elem_of_In, filter_In in Ht as [_ Ht].
      apply list_elem_of_In, filter_In in Ht' as [Ht' _].
      apply filter_In in Ht' as [Ht' _]. apply list_elem_of_In in Ht'.
      apply negb_true_iff, bool_decide_eq_false_1 in Ht. done.
    + unfold findAllActiveEvents.
      by apply NoDup_ListNoDup, List.NoDup_filter, List.NoDup_filter, NoDup_ListNoDup.
  - intros t. rewrite elem_of_app, !list_elem_of_In. unfold findAllActiveEvents.
    rewrite !filter_In, negb_true_iff, bool_decide_eq_false, !bool_decide_eq_true.
    rewrite <- !list_elem_of_In.
    destruct (decide (t ∈ POINTER_MOVE)); tauto.
Qed.

(** X30: the listeners that [enablePointerEvent] adds for dispatching
    cover the active list, once each: on every device, each active type
    of event is listened to by [onPointerEvent] when it is no move and
    by [onMoveEvent], throttled or not and always passive, when it is
    one, no type is listened to twice or outside of the list, and the
    listener for the focus sits on a type of [POINTER_DOWN]. *)
Theorem every_active_event_is_heard_once pd ti :
  (on_type <$> registerEventListener pd active_events OnPointerEvent)
  ++ (on_type <$> move_listeners ti active_events) ≡ₚ active_events
  ∧ Forall (λ l, handler l = OnPointerEvent ∧ on_type l ∉ POINTER_MOVE)
      (registerEventListener pd active_events OnPointerEvent)
  ∧ Forall (λ l, handler l = (if negb (Qle_bool 17 ti) then OnMoveEvent
                              else ThrottledMoveEvent ti)
                 ∧ passive l = true ∧ on_type l ∈ POINTER_MOVE)
      (move_listeners ti active_events)
  ∧ on_type (focus_listener pd active_events) ∈ POINTER_DOWN
  ∧ installed pd ti active_events
    = registerEventListener pd active_events OnPointerEvent
      ++ focus_listener pd active_events :: move_listeners ti active_events.
Proof.
  split_and!.
  - apply heard_once, active_events_NoDup.
  - apply Forall_forall. intros l Hl. unfold registerEventListener in Hl.
    apply list_elem_of_fmap in Hl as (t & -> & Ht). cbn. split; [done |].
    apply list_elem_of_In, filter_In in Ht as [_ Ht].
    by apply negb_true_iff, bool_decide_eq_false_1 in Ht.
  - apply Forall_forall. intros l Hl. unfold move_listeners in Hl.
    apply list_elem_of_fmap in Hl as (t & -> & Ht). cbn. split_and!; [done | done |].
    apply list_elem_of_In, filter_In in Ht as [Ht _].
    apply filter_In in Ht as [Ht _]. by apply list_elem_of_In.
  - unfold focus_listener, active_events. cbn [on_type].
    destruct device_pointerEvent, device_touch; cbn [andb negb].
    all: apply (bool_decide_unpack _); by vm_compute.
  - done.
Qed.

End Facts.
End ListenersFacts.
